(** * DevHubX Cloud Blog: theme, toast and newsletter-form subsystems

    A shallow embedding of [script.js].  The browser is modelled by an
    explicit [state] record (local storage, the [data-theme] attribute, the
    elements the script reads and writes, the pending timers and a clock);
    every function of the script that touches that state becomes a state
    transformer with the name it has in the source.  Closures handed to
    [setTimeout] and the continuation after [await] are defunctionalised
    into the [callback] and [continuation] types, and one turn of the event
    loop is the function [step].  Console output has no counterpart in the
    state: [trackEvent], which only logs, and [trackPageView] return what
    they write to the console.

    The markup is taken to be well formed where the script takes it to be:
    the newsletter form, when present, has its email input and its submit
    button, a theme toggle, when present, has its two icons, and the footer
    has the element [#currentYear] that [init] writes to.  Where the script
    can meet a missing element ([.nav-container] in [createNavActions]) the
    exception is modelled.  Toasts are modelled for messages free of markup
    (see [text]). *)

From Stdlib Require Import ZArith NArith QArith Qabs Lia Bool String Ascii.
From stdpp Require Import base gmap strings list pretty.

Open Scope string_scope.
Open Scope list_scope.
Open Scope nat_scope.

(** ** JavaScript strings as sequences of UTF-16 code units *)

Definition jsstring := list N.

Definition code_of_ascii (a : ascii) : N := N_of_ascii a.

Fixpoint units (s : string) : jsstring :=
  match s with
  | EmptyString => []
  | String a rest => code_of_ascii a :: units rest
  end.

(** The class [\s] of ECMAScript: WhiteSpace and LineTerminator. *)
Definition is_space (c : N) : bool :=
  ((9 <=? c) && (c <=? 13) || (c =? 32) || (c =? 160) || (c =? 5760)
   || (8192 <=? c) && (c <=? 8202) || (c =? 8232) || (c =? 8233)
   || (c =? 8239) || (c =? 8287) || (c =? 12288) || (c =? 65279))%N.

Definition is_at (c : N) : bool := (c =? 64)%N.
Definition is_dot (c : N) : bool := (c =? 46)%N.

(** The class [[^\s@]]. *)
Definition not_space_at (c : N) : bool := negb (is_space c || is_at c).

Fixpoint trimStart (s : jsstring) : jsstring :=
  match s with
  | [] => []
  | c :: rest => if is_space c then trimStart rest else s
  end.

Definition trimEnd (s : jsstring) : jsstring := rev (trimStart (rev s)).

(** [String.prototype.trim] *)
Definition trim (s : jsstring) : jsstring := trimEnd (trimStart s).

(** ** Regular expressions

    The fragment of the pattern language that [emailRegex] uses, with a
    matcher by derivatives.  [test] on a pattern anchored by [^] and [$]
    succeeds exactly when the whole subject is in the language of the body,
    which is what [matches] decides. *)

Inductive regex : Type :=
| Void : regex
| Eps : regex
| Class : (N -> bool) -> regex
| Cat : regex -> regex -> regex
| Alt : regex -> regex -> regex
| Star : regex -> regex.

(** The quantifier [+]. *)
Definition Plus (r : regex) : regex := Cat r (Star r).

Fixpoint nullable (r : regex) : bool :=
  match r with
  | Void => false
  | Eps => true
  | Class _ => false
  | Cat r1 r2 => nullable r1 && nullable r2
  | Alt r1 r2 => nullable r1 || nullable r2
  | Star _ => true
  end.

Fixpoint deriv (c : N) (r : regex) : regex :=
  match r with
  | Void => Void
  | Eps => Void
  | Class p => if p c then Eps else Void
  | Cat r1 r2 =>
      if nullable r1
      then Alt (Cat (deriv c r1) r2) (deriv c r2)
      else Cat (deriv c r1) r2
  | Alt r1 r2 => Alt (deriv c r1) (deriv c r2)
  | Star r1 => Cat (deriv c r1) (Star r1)
  end.

Fixpoint matches (r : regex) (s : jsstring) : bool :=
  match s with
  | [] => nullable r
  | c :: rest => matches (deriv c r) rest
  end.

(** The language of a pattern. *)
Inductive lang : regex -> jsstring -> Prop :=
| lang_eps : lang Eps []
| lang_class p c : p c = true -> lang (Class p) [c]
| lang_cat r1 r2 s1 s2 : lang r1 s1 -> lang r2 s2 -> lang (Cat r1 r2) (s1 ++ s2)
| lang_alt_l r1 r2 s : lang r1 s -> lang (Alt r1 r2) s
| lang_alt_r r1 r2 s : lang r2 s -> lang (Alt r1 r2) s
| lang_star_nil r : lang (Star r) []
| lang_star_app r s1 s2 : lang r s1 -> lang (Star r) s2 -> lang (Star r) (s1 ++ s2).

(** [/^[^\s@]+@[^\s@]+\.[^\s@]+$/] *)
Definition emailRegex : regex :=
  Cat (Plus (Class not_space_at))
    (Cat (Class is_at)
       (Cat (Plus (Class not_space_at))
          (Cat (Class is_dot) (Plus (Class not_space_at))))).

Definition isValidEmail (email : jsstring) : bool := matches emailRegex email.

(** The shape the pattern describes, spelled out on the string. *)
Definition email_shape (s : jsstring) : Prop :=
  exists a b c : jsstring,
    s = a ++ [64%N] ++ b ++ [46%N] ++ c
    /\ a <> [] /\ b <> [] /\ c <> []
    /\ Forall (fun x => not_space_at x = true) a
    /\ Forall (fun x => not_space_at x = true) b
    /\ Forall (fun x => not_space_at x = true) c.

(** ** Configuration ([CONFIG]) *)

Definition CONFIG_api_newsletter : string := "https://api.devhubx.org/newsletter".
Definition CONFIG_storage_theme : string := "devhubx_theme".
Definition CONFIG_storage_newsletterSubscribed : string := "devhubx_newsletter_subscribed".
Definition CONFIG_animations_normal : Z := 300.
Definition CONFIG_toast_duration : Z := 5000.

(** ** The page *)

(** [DOMTokenList.add] and [DOMTokenList.remove] *)
Definition classList_add (c : string) (l : list string) : list string :=
  if decide (c ∈ l) then l else l ++ [c].

Definition classList_remove (c : string) (l : list string) : list string :=
  filter (λ x, x ≠ c) l.

(** The theme toggle button: its [aria-pressed] attribute and the opacity
    of its two icons. *)
Record toggle : Type := Toggle {
  aria_pressed : bool;
  sun_opacity : string;
  moon_opacity : string
}.

Record emailInput : Type := EmailInput {
  value : jsstring;
  defaultValue : jsstring;
  placeholder : string;
  input_disabled : bool
}.

Record submitBtn : Type := SubmitBtn {
  btn_textContent : string;
  btn_disabled : bool;
  btn_classList : list string;
  aria_busy : bool
}.

(** The newsletter form with the two controls the handlers select in it. *)
Record form : Type := Form {
  form_email : emailInput;
  form_submit : submitBtn
}.

(** An element of the document, with its identity. *)
Record node : Type := Node {
  node_id : nat;
  classList : list string;
  aria_live : option string;
  textContent : string
}.

(** What an element has to be for the selector [.toast] to pick it. *)
Definition is_toast (n : node) : bool := bool_decide ("toast" ∈ classList n).

(** The body of the request of the newsletter form. *)
Record payload : Type := Payload {
  payload_email : jsstring;
  payload_timestamp : Z
}.

(** What runs after [await simulateAPICall(...)]. *)
Inductive continuation : Type :=
| NewsletterAwait (email : jsstring).

(** The closures the script hands to [setTimeout]. *)
Inductive callback : Type :=
| ToastShow (id : nat)
| ToastAutoHide (id : nat)
| ToastRemove (id : nat)
| AnnouncementRemove (id : nat)
| ApiSettle (endpoint : string) (data : payload) (k : continuation).

Record timer : Type := Timer {
  due : Z;
  timer_cb : callback
}.

Record state : Type := State {
  localStorage : gmap string string;   (* [window.localStorage] *)
  prefers_dark : bool;   (* [matchMedia('(prefers-color-scheme: dark)').matches] *)
  data_theme : option string;   (* the [data-theme] attribute of the root element *)
  themeToggle : option toggle;   (* the element [.theme-toggle], if any *)
  nav_actions : bool;   (* whether [.nav-actions] exists *)
  nav_container : bool;   (* whether [.nav-container] exists *)
  newsletterForm : option form;   (* the element [#newsletterForm], if any *)
  focus_email : bool;   (* whether the email input has the focus *)
  body : list node;   (* the elements that [querySelectorAll] and [removeChild] reach *)
  timers : list timer;   (* pending [setTimeout] callbacks *)
  now : Z;   (* the clock, in ms *)
  next_id : nat;   (* identity of the next created element *)
  theme_listener : bool;   (* the [change] listener of [initTheme] is installed *)
  submit_listener : bool   (* the [submit] listener of [initForms] is installed *)
}.

Definition set_localStorage (v : gmap string string) (s : state) : state :=
  State v (prefers_dark s) (data_theme s) (themeToggle s) (nav_actions s)
    (nav_container s) (newsletterForm s) (focus_email s) (body s) (timers s) (now s)
    (next_id s) (theme_listener s) (submit_listener s).

Definition set_prefers_dark (v : bool) (s : state) : state :=
  State (localStorage s) v (data_theme s) (themeToggle s) (nav_actions s)
    (nav_container s) (newsletterForm s) (focus_email s) (body s) (timers s) (now s)
    (next_id s) (theme_listener s) (submit_listener s).

Definition set_data_theme (v : option string) (s : state) : state :=
  State (localStorage s) (prefers_dark s) v (themeToggle s) (nav_actions s)
    (nav_container s) (newsletterForm s) (focus_email s) (body s) (timers s) (now s)
    (next_id s) (theme_listener s) (submit_listener s).

Definition set_themeToggle (v : option toggle) (s : state) : state :=
  State (localStorage s) (prefers_dark s) (data_theme s) v (nav_actions s)
    (nav_container s) (newsletterForm s) (focus_email s) (body s) (timers s) (now s)
    (next_id s) (theme_listener s) (submit_listener s).

Definition set_nav_actions (v : bool) (s : state) : state :=
  State (localStorage s) (prefers_dark s) (data_theme s) (themeToggle s) v
    (nav_container s) (newsletterForm s) (focus_email s) (body s) (timers s) (now s)
    (next_id s) (theme_listener s) (submit_listener s).

Definition set_nav_container (v : bool) (s : state) : state :=
  State (localStorage s) (prefers_dark s) (data_theme s) (themeToggle s)
    (nav_actions s) v (newsletterForm s) (focus_email s) (body s) (timers s) (now s)
    (next_id s) (theme_listener s) (submit_listener s).

Definition set_newsletterForm (v : option form) (s : state) : state :=
  State (localStorage s) (prefers_dark s) (data_theme s) (themeToggle s)
    (nav_actions s) (nav_container s) v (focus_email s) (body s) (timers s) (now s)
    (next_id s) (theme_listener s) (submit_listener s).

Definition set_focus_email (v : bool) (s : state) : state :=
  State (localStorage s) (prefers_dark s) (data_theme s) (themeToggle s)
    (nav_actions s) (nav_container s) (newsletterForm s) v (body s) (timers s) (now s)
    (next_id s) (theme_listener s) (submit_listener s).

Definition set_body (v : list node) (s : state) : state :=
  State (localStorage s) (prefers_dark s) (data_theme s) (themeToggle s)
    (nav_actions s) (nav_container s) (newsletterForm s) (focus_email s) v (timers s)
    (now s) (next_id s) (theme_listener s) (submit_listener s).

Definition set_timers (v : list timer) (s : state) : state :=
  State (localStorage s) (prefers_dark s) (data_theme s) (themeToggle s)
    (nav_actions s) (nav_container s) (newsletterForm s) (focus_email s) (body s) v
    (now s) (next_id s) (theme_listener s) (submit_listener s).

Definition set_now (v : Z) (s : state) : state :=
  State (localStorage s) (prefers_dark s) (data_theme s) (themeToggle s)
    (nav_actions s) (nav_container s) (newsletterForm s) (focus_email s) (body s)
    (timers s) v (next_id s) (theme_listener s) (submit_listener s).

Definition set_next_id (v : nat) (s : state) : state :=
  State (localStorage s) (prefers_dark s) (data_theme s) (themeToggle s)
    (nav_actions s) (nav_container s) (newsletterForm s) (focus_email s) (body s)
    (timers s) (now s) v (theme_listener s) (submit_listener s).

Definition set_theme_listener (v : bool) (s : state) : state :=
  State (localStorage s) (prefers_dark s) (data_theme s) (themeToggle s)
    (nav_actions s) (nav_container s) (newsletterForm s) (focus_email s) (body s)
    (timers s) (now s) (next_id s) v (submit_listener s).

Definition set_submit_listener (v : bool) (s : state) : state :=
  State (localStorage s) (prefers_dark s) (data_theme s) (themeToggle s)
    (nav_actions s) (nav_container s) (newsletterForm s) (focus_email s) (body s)
    (timers s) (now s) (next_id s) (theme_listener s) v.

(** How a call ends: normally, or with an exception thrown. *)
Inductive completion : Type :=
| Normal
| Throw (error : string).

(** JavaScript truthiness of what [localStorage.getItem] returns. *)
Definition truthy (v : option string) : bool :=
  match v with
  | None => false
  | Some x => negb (String.eqb x "")
  end.

(** ** Timers and elements *)

Definition setTimeout (cb : callback) (delay : Z) (s : state) : state :=
  set_timers (timers s ++ [Timer (now s + delay) cb]) s.

Definition createElement (s : state) : nat * state :=
  (next_id s, set_next_id (S (next_id s)) s).

Definition appendChild (n : node) (s : state) : state :=
  set_body (body s ++ [n]) s.

(** [el.parentNode] is not null *)
Definition has_parent (id : nat) (s : state) : bool :=
  bool_decide (id ∈ node_id <$> body s).

Definition removeChild (id : nat) (s : state) : state :=
  set_body (filter (λ n, node_id n ≠ id) (body s)) s.

Definition update_classList (f : list string -> list string) (id : nat) (n : node) : node :=
  if decide (node_id n = id)
  then Node (node_id n) (f (classList n)) (aria_live n) (textContent n)
  else n.

(** ** Accessibility *)

Definition announceToScreenReader (message priority : string) (s : state) : state :=
  let (id, s1) := createElement s in
  let announcement := Node id ["visually-hidden"] (Some priority) message in
  let s2 := appendChild announcement s1 in
  setTimeout (AnnouncementRemove id) 1000 s2.

(** ** Theme management *)

Definition updateThemeToggle (theme : option string) (s : state) : state :=
  match themeToggle s with
  | None => s
  | Some _ =>
      if decide (theme = Some "dark")
      then set_themeToggle (Some (Toggle true "0.5" "1")) s
      else set_themeToggle (Some (Toggle false "1" "0.5")) s
  end.

Definition setTheme (theme : string) (s : state) : state :=
  if negb (bool_decide (theme ∈ ["light"; "dark"])) then s
  else
    let s1 := set_data_theme (Some theme) s in
    let s2 := set_localStorage (<[CONFIG_storage_theme := theme]> (localStorage s1)) s1 in
    let s3 := updateThemeToggle (Some theme) s2 in
    announceToScreenReader ("Theme changed to " +:+ theme +:+ " mode") "polite" s3.

Definition toggleTheme (s : state) : state :=
  let currentTheme := data_theme s in
  let newTheme := if decide (currentTheme = Some "dark") then "light" else "dark" in
  setTheme newTheme s.

Definition createNavActions (s : state) : state * completion :=
  if nav_container s then (set_nav_actions true s, Normal)
  else (s, Throw "TypeError").

Definition createThemeToggle (s : state) : state * completion :=
  match themeToggle s with
  | Some _ => (s, Normal)
  | None =>
      let (s1, c) := if nav_actions s then (s, Normal) else createNavActions s in
      match c with
      | Throw e => (s1, Throw e)
      | Normal =>
          let s2 := set_themeToggle (Some (Toggle false "" "")) s1 in
          let currentTheme := data_theme s2 in
          (updateThemeToggle currentTheme s2, Normal)
      end
  end.

(** The listener [initTheme] registers for [change] of the color scheme. *)
Definition onSystemThemeChange (e_matches : bool) (s : state) : state :=
  if negb (truthy (localStorage s !! CONFIG_storage_theme))
  then setTheme (if e_matches then "dark" else "light") s
  else s.

Definition initTheme (s : state) : state * completion :=
  let savedTheme := localStorage s !! CONFIG_storage_theme in
  let systemPrefersDark := prefers_dark s in
  let s1 :=
    if bool_decide (savedTheme = Some "dark") || (negb (truthy savedTheme) && systemPrefersDark)
    then setTheme "dark" s
    else setTheme "light" s in
  let (s2, c) := createThemeToggle s1 in
  match c with
  | Throw e => (s2, Throw e)
  | Normal => (set_theme_listener true s2, Normal)
  end.

(** ** Toast notifications *)

(** [showToast] does not set its message as text, as
    [announceToScreenReader] does: it splices it into the markup of the
    toast ([toast.innerHTML = `... ${message} ...`]), and the kind into the
    class name ([toast.className = `toast ${type}`]).  What a message with
    markup in it becomes is up to the HTML parser of the browser (elements
    of any class, a comment that swallows the close button so that
    [closeBtn] is [null], handlers that run script), and a kind with
    a space in it, or with the name of a class the script selects elsewhere,
    changes what [querySelector] finds.  None of that has a place in
    [state].  The model covers the calls whose message is free of markup and
    whose kind is one of the four the script passes; for those the parser
    leaves the message as the text of the [.toast-message] element, which is
    the text recorded for the toast, and [.toast-close] is the button of the
    template (see [innerHTML] below, which follows the parser through the
    template). *)

(** The characters that are not left as they are between tags: [<] opens a
    tag, [&] a character reference, U+0000 is dropped and a carriage return
    becomes a line feed. *)
Definition is_markup_char (c : ascii) : bool :=
  let n := nat_of_ascii c in
  Nat.eqb n 60 || Nat.eqb n 38 || Nat.eqb n 0 || Nat.eqb n 13.

Fixpoint markup_free (message : string) : bool :=
  match message with
  | EmptyString => true
  | String c rest => negb (is_markup_char c) && markup_free rest
  end.

(** A message that is free of markup. *)
Record text : Type := Text {
  text_string : string;
  text_markup_free : markup_free text_string = true
}.

Abbreviation txt message := (Text message eq_refl) (only parsing).

(** The kinds of toast: [type_class] is the string the script passes. *)
Inductive toastType : Type :=
| Info
| Success
| Warning
| Error.

Definition type_class (type : toastType) : string :=
  match type with
  | Info => "info"
  | Success => "success"
  | Warning => "warning"
  | Error => "error"
  end.

Definition removeExistingToasts (s : state) : state :=
  set_body (filter (λ n, is_toast n = false) (body s)) s.

(** The result is the state and the identity of the toast returned. *)
Definition showToast (message : text) (type : toastType) (s : state) : state * nat :=
  let s1 := removeExistingToasts s in
  let (id, s2) := createElement s1 in
  let toast :=
    Node id ["toast"; type_class type] (Some "assertive") (text_string message) in
  let s3 := appendChild toast s2 in
  let s4 := setTimeout (ToastShow id) 10 s3 in
  let s5 := setTimeout (ToastAutoHide id) CONFIG_toast_duration s4 in
  (s5, id).

Definition hideToast (id : nat) (s : state) : state :=
  let s1 := set_body (update_classList (classList_remove "show") id <$> body s) s in
  setTimeout (ToastRemove id) CONFIG_animations_normal s1.

(** ** Mock API *)

Inductive apiResult : Type :=
| Resolved (success : bool) (data : payload)
| Rejected (error : string).

(** The value of the literal [0.1]: the binary64 number nearest to one tenth.
    Numbers are compared by their values, so a draw is kept as a rational. *)
Definition success_threshold : Q := 3602879701896397 # 36028797018963968.

Definition api_delay : Z := 1500.

(** The body of the timer callback of [simulateAPICall], given the draw
    [random] of [Math.random()]. *)
Definition api_settle (random : Q) (data : payload) : apiResult :=
  let isSuccess := negb (Qle_bool random success_threshold) in
  if isSuccess then Resolved true data else Rejected "API request failed".

(** The promise settles in the timer callback; [k] is what awaits it. *)
Definition simulateAPICall (endpoint : string) (data : payload)
    (k : continuation) (s : state) : state :=
  setTimeout (ApiSettle endpoint data k) api_delay s.

(** ** Form handling *)

Definition setButtonLoading (isLoading : bool) (button : submitBtn) : submitBtn :=
  if isLoading
  then SubmitBtn (btn_textContent button) true
         (classList_add "btn-loading" (btn_classList button)) true
  else SubmitBtn (btn_textContent button) false
         (classList_remove "btn-loading" (btn_classList button)) false.

Definition update_submit (f : submitBtn -> submitBtn) (s : state) : state :=
  match newsletterForm s with
  | None => s
  | Some fm => set_newsletterForm (Some (Form (form_email fm) (f (form_submit fm)))) s
  end.

Definition updateNewsletterFormState (isSubscribed : bool) (s : state) : state :=
  match newsletterForm s with
  | None => s
  | Some fm =>
      if isSubscribed then
        let emailInput :=
          EmailInput [] (defaultValue (form_email fm)) "You are already subscribed!" true in
        let submitBtn :=
          SubmitBtn "Subscribed ✓" true
            (classList_add "success"
               (classList_add "btn-outline"
                  (classList_remove "btn-primary" (btn_classList (form_submit fm)))))
            (aria_busy (form_submit fm)) in
        set_newsletterForm (Some (Form emailInput submitBtn)) s
      else s
  end.

(** [form.reset()] *)
Definition form_reset (s : state) : state :=
  match newsletterForm s with
  | None => s
  | Some fm =>
      let i := form_email fm in
      set_newsletterForm
        (Some (Form (EmailInput (defaultValue i) (defaultValue i) (placeholder i) (input_disabled i))
                 (form_submit fm))) s
  end.

(** [emailInput.focus()]: a disabled control does not take the focus. *)
Definition focus_emailInput (s : state) : state :=
  match newsletterForm s with
  | None => s
  | Some fm => if input_disabled (form_email fm) then s else set_focus_email true s
  end.

Definition initForms (s : state) : state :=
  match newsletterForm s with
  | None => s
  | Some _ =>
      let s1 := set_submit_listener true s in
      let isSubscribed := localStorage s1 !! CONFIG_storage_newsletterSubscribed in
      if truthy isSubscribed then updateNewsletterFormState true s1 else s1
  end.

(** [handleNewsletterSubmit] up to its [await]. *)
Definition handleNewsletterSubmit (s : state) : state :=
  match newsletterForm s with
  | None => s
  | Some fm =>
      let email := trim (value (form_email fm)) in
      if negb (isValidEmail email) then
        let s1 := fst (showToast (txt "Please enter a valid email address") Error s) in
        focus_emailInput s1
      else
        let s1 := update_submit (setButtonLoading true) s in
        simulateAPICall CONFIG_api_newsletter (Payload email (now s1))
          (NewsletterAwait email) s1
  end.

(** [handleNewsletterSubmit] from its [await] on: the [try] block after the
    call, the [catch] block, and [finally]. *)
Definition handleNewsletterSubmit_resume (email : jsstring) (res : apiResult)
    (s : state) : state :=
  let s' :=
    match res with
    | Resolved _ _ =>
        let s1 := fst (showToast (txt "Successfully subscribed to newsletter!") Success s) in
        let s2 :=
          set_localStorage
            (<[CONFIG_storage_newsletterSubscribed := "true"]> (localStorage s1)) s1 in
        let s3 := updateNewsletterFormState true s2 in
        form_reset s3
    | Rejected _ =>
        fst (showToast (txt "Subscription failed. Please try again.") Error s)
    end in
  update_submit (setButtonLoading false) s'.

Definition resume (k : continuation) (res : apiResult) (s : state) : state :=
  match k with
  | NewsletterAwait email => handleNewsletterSubmit_resume email res s
  end.

(** ** Analytics: [trackEvent] and [trackPageView] *)

Definition CONFIG_storage_visitedBefore : string := "devhubx_visited".

(** A value of a field of a logged record.  [VDate t] stands for the ISO
    string of the instant [t]. *)
Inductive jsval : Type :=
| VStr (s : string)
| VBool (b : bool)
| VNum (n : Z)
| VDate (t : Z).

(** What [trackEvent] and [trackPageView] read from [window], [document]
    and [navigator]. *)
Record environment : Type := Environment {
  location_href : string;
  document_referrer : string;
  userAgent : string;
  document_title : string;
  location_pathname : string
}.

(** The record [trackEvent] writes to the console: the built-in fields,
    then the fields of [data], which replace a built-in field of the same
    name. *)
Definition trackEvent (env : environment) (clock : Z) (eventName : string)
    (data : gmap string jsval) : gmap string jsval :=
  data ∪ <["event" := VStr eventName]>
           (<["timestamp" := VDate clock]>
              (<["url" := VStr (location_href env)]>
                 (<["referrer" := VStr (document_referrer env)]>
                    (<["userAgent" := VStr (userAgent env)]> ∅)))).

(** The result is the state and the records written to the console. *)
Definition trackPageView (env : environment) (s : state)
    : state * list (gmap string jsval) :=
  let visitedBefore := localStorage s !! CONFIG_storage_visitedBefore in
  let log1 :=
    [trackEvent env (now s) "page_view"
       (<["is_first_visit" := VBool (negb (truthy visitedBefore))]>
          (<["page_title" := VStr (document_title env)]>
             (<["page_path" := VStr (location_pathname env)]> ∅)))] in
  if negb (truthy visitedBefore)
  then (set_localStorage
          (<[CONFIG_storage_visitedBefore := "true"]> (localStorage s)) s,
        log1 ++ [trackEvent env (now s) "first_visit" ∅])
  else (s, log1).

(** The state [trackPageView] leaves does not depend on what it reads
    from the environment, which only enters the records.  [init] keeps the
    state; the console has no counterpart in [state]. *)
Definition unread_environment : environment := Environment "" "" "" "" "".

(** ** The event loop *)

Definition run_callback (cb : callback) (random : Q) (s : state) : state :=
  match cb with
  | ToastShow id =>
      set_body (update_classList (classList_add "show") id <$> body s) s
  | ToastAutoHide id => if has_parent id s then hideToast id s else s
  | ToastRemove id => if has_parent id s then removeChild id s else s
  | AnnouncementRemove id => if has_parent id s then removeChild id s else s
  | ApiSettle endpoint data k => resume k (api_settle random data) s
  end.

(** [init]: the calls that write to [state], in the order of the source.
    An exception in [initTheme] ends [init] before [initForms] and
    [trackPageView].  The calls left out install listeners and write to
    parts of the page that [state] does not have. *)
Definition init (s : state) : state * completion :=
  let (s1, c) := initTheme s in
  match c with
  | Throw e => (s1, Throw e)
  | Normal =>
      let s2 := initForms s1 in
      let s3 := fst (trackPageView unread_environment s2) in
      (s3, Normal)
  end.

(** What can happen to the page.  The [Call...] events are the functions
    the script exports in [window.DevHubXBlog] and calls from its other
    listeners; [CallShowToast] is a call of [showToast] that the model
    covers, with a message free of markup.  [Fire i random] runs the [i]-th
    pending timer, handing it the next value of [Math.random()]. *)
Inductive event : Type :=
| CallInit
| SystemThemeChange (e_matches : bool)
| CallToggleTheme
| CallSetTheme (theme : string)
| CallShowToast (message : text) (type : toastType)
| ToastCloseClick (id : nat)
| EditEmail (v : jsstring)
| SubmitNewsletter
| Elapse (dt : Z)
| Fire (i : nat) (random : Q).

(** One turn of the event loop; [None] when the event cannot occur. *)
Definition step (ev : event) (s : state) : option state :=
  match ev with
  | CallInit => Some (fst (init s))
  | SystemThemeChange e_matches =>
      let s1 := set_prefers_dark e_matches s in
      Some (if theme_listener s1 then onSystemThemeChange e_matches s1 else s1)
  | CallToggleTheme => Some (toggleTheme s)
  | CallSetTheme theme => Some (setTheme theme s)
  | CallShowToast message type => Some (fst (showToast message type s))
  | ToastCloseClick id => Some (hideToast id s)
  | EditEmail v =>
      match newsletterForm s with
      | Some fm =>
          let i := form_email fm in
          if input_disabled i then None
          else Some (set_newsletterForm
                 (Some (Form (EmailInput v (defaultValue i) (placeholder i) false)
                          (form_submit fm))) s)
      | None => None
      end
  | SubmitNewsletter =>
      if submit_listener s && bool_decide (is_Some (newsletterForm s))
      then Some (handleNewsletterSubmit s)
      else None
  | Elapse dt => if (0 <=? dt)%Z then Some (set_now (now s + dt)%Z s) else None
  | Fire i random =>
      match timers s !! i with
      | Some t =>
          if (due t <=? now s)%Z
          then Some (run_callback (timer_cb t) random (set_timers (delete i (timers s)) s))
          else None
      | None => None
      end
  end.

Fixpoint run (evs : list event) (s : state) : option state :=
  match evs with
  | [] => Some s
  | ev :: rest =>
      match step ev s with
      | Some s' => run rest s'
      | None => None
      end
  end.

(** The number of elements of the document that are toasts. *)
Definition toast_count (s : state) : nat :=
  length (filter (λ n, is_toast n = true) (body s)).

(** Every toast of the document has a pending timer that hides or removes it. *)
Definition toasts_have_removal (s : state) : Prop :=
  ∀ n, n ∈ body s → is_toast n = true →
    ∃ t, t ∈ timers s ∧
      (timer_cb t = ToastAutoHide (node_id n) ∨ timer_cb t = ToastRemove (node_id n)).

(** ** Notions the statements use *)

(** What [initTheme] hands to [setTheme]. *)
Definition resolved_theme (s : state) : string :=
  let savedTheme := localStorage s !! CONFIG_storage_theme in
  if bool_decide (savedTheme = Some "dark") || (negb (truthy savedTheme) && prefers_dark s)
  then "dark" else "light".

Definition sample_form : form :=
  Form (EmailInput [] [] "Enter your email" false)
    (SubmitBtn "Subscribe" false ["btn"; "btn-primary"] false).

(** A first visit: nothing stored, the system prefers light, the markup
    has the navigation bar and the newsletter form, nothing has run yet. *)
Definition first_visit : state :=
  State ∅ false None None true true (Some sample_form) false [] [] 0 0 false false.

(** The toasts of the document. *)
Definition toasts (s : state) : list node :=
  filter (λ n, is_toast n = true) (body s).

(** The document shows the toast [message] of kind [type], and no other. *)
Definition shows_toast (message type : string) (s : state) : Prop :=
  ∃ id, toasts s = [Node id ["toast"; type] (Some "assertive") message].

Definition is_api_call (t : timer) : bool :=
  match timer_cb t with
  | ApiSettle _ _ _ => true
  | _ => false
  end.

(** The calls of [simulateAPICall] that have not settled yet. *)
Definition api_calls (s : state) : list timer :=
  filter (λ t, is_api_call t = true) (timers s).

(** The two ways a submission ends, between the state [before] the
    continuation runs and the state [after] it. *)
Definition success_outcome (before after : state) : Prop :=
  shows_toast "Successfully subscribed to newsletter!" "success" after
  ∧ localStorage after
    = <[CONFIG_storage_newsletterSubscribed := "true"]> (localStorage before).

Definition failure_outcome (before after : state) : Prop :=
  shows_toast "Subscription failed. Please try again." "error" after
  ∧ localStorage after = localStorage before.

(** The toast the continuation of the newsletter handler shows. *)
Definition outcome_toast (res : apiResult) : text * toastType :=
  match res with
  | Resolved _ _ => (txt "Successfully subscribed to newsletter!", Success)
  | Rejected _ => (txt "Subscription failed. Please try again.", Error)
  end.

(** The form is rendered as for a subscriber. *)
Definition rendered_subscribed (s : state) : Prop :=
  ∃ fm, newsletterForm s = Some fm
    ∧ input_disabled (form_email fm) = true
    ∧ btn_disabled (form_submit fm) = true
    ∧ placeholder (form_email fm) = "You are already subscribed!".

(** ** Invariants of the event loop *)

Definition toast_ids (s : state) : list nat :=
  node_id <$> filter (λ n, is_toast n = true) (body s).

(** A pending timer that hides or removes the toast [id]. *)
Definition removal_pending (id : nat) (l : list timer) : Prop :=
  ∃ t, t ∈ l ∧ (timer_cb t = ToastAutoHide id ∨ timer_cb t = ToastRemove id).

(** At most one toast, and a way out of the document for it. *)
Definition toast_inv (s : state) : Prop :=
  (length (toast_ids s) ≤ 1)%nat ∧ ∀ id, id ∈ toast_ids s → removal_pending id (timers s).

(** [s'] has the elements and the timers of [s], perhaps with more elements
    that are no toasts and with more timers, at the same time. *)
Definition quiet (s s' : state) : Prop :=
  (∃ l, body s' = body s ++ l ∧ Forall (λ n, is_toast n = false) l)
  ∧ (∃ l, timers s' = timers s ++ l)
  ∧ now s' = now s.

(** [s'] has the timers of [s], perhaps with more, at the same time. *)
Definition grows (s s' : state) : Prop :=
  (∃ l, timers s' = timers s ++ l) ∧ now s' = now s.

(** Every key stored in [s] is still stored in [s']. *)
Definition keeps_keys (s s' : state) : Prop :=
  ∀ k, is_Some (localStorage s !! k) → is_Some (localStorage s' !! k).

(** The active theme and the stored preference are both [t]. *)
Definition theme_is (t : string) (s : state) : Prop :=
  data_theme s = Some t ∧ localStorage s !! CONFIG_storage_theme = Some t.

(** The active theme is light or dark, and it is the stored preference. *)
Definition theme_in_sync (s : state) : Prop :=
  ∃ t, (t = "light" ∨ t = "dark") ∧ theme_is t s.

(** A later load of the page in the same browser profile: the markup as
    [page] has it, the local storage as the session [s] left it, and the
    system preferring dark, or not, at that moment. *)
Definition later_load (page s : state) (dark : bool) : state :=
  set_prefers_dark dark (set_localStorage (localStorage s) page).

(** The subscribed flag is absent or holds ["true"], the one value the
    script writes: the flag of a profile that only the page has written. *)
Definition flag_as_written (s : state) : Prop :=
  ∀ v, localStorage s !! CONFIG_storage_newsletterSubscribed = Some v → v = "true".

(** [s'] has the active theme and the stored preference of [s]. *)
Definition same_theme (s s' : state) : Prop :=
  data_theme s' = data_theme s
  ∧ localStorage s' !! CONFIG_storage_theme = localStorage s !! CONFIG_storage_theme.

(** The events by which a theme is chosen explicitly. *)
Definition is_theme_call (ev : event) : bool :=
  match ev with
  | CallToggleTheme | CallSetTheme _ => true
  | _ => false
  end.

(** ** Further notions: the toggle, the elements the script creates *)

(** How [updateThemeToggle] renders the toggle for a theme. *)
Definition toggle_for (theme : option string) : toggle :=
  if decide (theme = Some "dark") then Toggle true "0.5" "1" else Toggle false "1" "0.5".

(** The toggle exists and shows the active theme. *)
Definition toggle_mirrors (s : state) : Prop :=
  themeToggle s = Some (toggle_for (data_theme s)).

(** A pending timer that hides or removes the element [id]. *)
Definition removal_scheduled (id : nat) (l : list timer) : Prop :=
  ∃ t, t ∈ l ∧ (timer_cb t = ToastAutoHide id ∨ timer_cb t = ToastRemove id
                ∨ timer_cb t = AnnouncementRemove id).

(** Every element of the document has a pending timer that hides or removes it. *)
Definition all_removable (s : state) : Prop :=
  ∀ n, n ∈ body s → removal_scheduled (node_id n) (timers s).

(** ** Utility functions: [throttle] *)

(** The function [throttle(func, limit)] returns, as the state it closes
    over: the flag, the due times of the resets it has scheduled, the clock,
    and the state [func] acts on. *)
Record throttled (T : Type) : Type := Throttled {
  inThrottle : bool;
  th_timers : list Z;
  th_now : Z;
  th_target : T
}.

Arguments Throttled {T} _ _ _ _.
Arguments inThrottle {T} _.
Arguments th_timers {T} _.
Arguments th_now {T} _.
Arguments th_target {T} _.

(** [throttle(func, limit)] itself: [inThrottle] starts undefined. *)
Definition throttle {T : Type} (clock : Z) (target : T) : throttled T :=
  Throttled false [] clock target.

(** A call of the returned function. *)
Definition throttle_call {A T : Type} (func : A → T → T) (limit : Z)
    (args : A) (t : throttled T) : throttled T :=
  if negb (inThrottle t)
  then Throttled true (th_timers t ++ [(th_now t + limit)%Z]) (th_now t)
         (func args (th_target t))
  else t.

(** What happens around a rate-limited function: a call, time passing, the
    [i]-th pending timer firing. *)
Inductive rl_event (A : Type) : Type :=
| RlCall (args : A)
| RlElapse (dt : Z)
| RlFire (i : nat).

Arguments RlCall {A} _.
Arguments RlElapse {A} _.
Arguments RlFire {A} _.

Definition throttle_step {A T : Type} (func : A → T → T) (limit : Z)
    (ev : rl_event A) (t : throttled T) : option (throttled T) :=
  match ev with
  | RlCall args => Some (throttle_call func limit args t)
  | RlElapse dt =>
      if (0 <=? dt)%Z
      then Some (Throttled (inThrottle t) (th_timers t) (th_now t + dt)%Z (th_target t))
      else None
  | RlFire i =>
      match th_timers t !! i with
      | Some d =>
          if (d <=? th_now t)%Z
          then Some (Throttled false (delete i (th_timers t)) (th_now t) (th_target t))
          else None
      | None => None
      end
  end.

Fixpoint throttle_run {A T : Type} (func : A → T → T) (limit : Z)
    (evs : list (rl_event A)) (t : throttled T) : option (throttled T) :=
  match evs with
  | [] => Some t
  | ev :: rest =>
      match throttle_step func limit ev t with
      | Some t' => throttle_run func limit rest t'
      | None => None
      end
  end.

(** ** Utility functions: [debounce] *)

(** A pending timer of a debounced function: its identity, its due time and
    the arguments its callback [later] has captured. *)
Record db_timer (A : Type) : Type := DbTimer {
  db_id : nat;
  db_due : Z;
  db_args : A
}.

Arguments DbTimer {A} _ _ _.
Arguments db_id {A} _.
Arguments db_due {A} _.
Arguments db_args {A} _.

(** The function [debounce(func, wait)] returns, as the state it closes
    over: the variable [timeout], the pending timers, the identity of the
    next timer, the clock, and the state [func] acts on. *)
Record debounced (A T : Type) : Type := Debounced {
  timeout : option nat;
  db_timers : list (db_timer A);
  db_next : nat;
  db_now : Z;
  db_target : T
}.

Arguments Debounced {A T} _ _ _ _ _.
Arguments timeout {A T} _.
Arguments db_timers {A T} _.
Arguments db_next {A T} _.
Arguments db_now {A T} _.
Arguments db_target {A T} _.

Definition debounce {A T : Type} (clock : Z) (target : T) : debounced A T :=
  Debounced None [] 0 clock target.

(** [clearTimeout(id)]: an undefined or unknown identity clears nothing. *)
Definition clearTimeout {A : Type} (id : option nat) (l : list (db_timer A))
    : list (db_timer A) :=
  filter (λ t, Some (db_id t) ≠ id) l.

(** A call of the returned function. *)
Definition debounce_call {A T : Type} (wait : Z) (args : A) (d : debounced A T)
    : debounced A T :=
  let timers1 := clearTimeout (timeout d) (db_timers d) in
  let id := db_next d in
  Debounced (Some id) (timers1 ++ [DbTimer id (db_now d + wait)%Z args])
    (S id) (db_now d) (db_target d).

(** The callback [later] of the timer [t], once the timer has been taken
    off the pending ones. *)
Definition debounce_later {A T : Type} (func : A → T → T) (t : db_timer A)
    (d : debounced A T) : debounced A T :=
  Debounced (timeout d) (clearTimeout (timeout d) (db_timers d)) (db_next d)
    (db_now d) (func (db_args t) (db_target d)).

Definition debounce_step {A T : Type} (func : A → T → T) (wait : Z)
    (ev : rl_event A) (d : debounced A T) : option (debounced A T) :=
  match ev with
  | RlCall args => Some (debounce_call wait args d)
  | RlElapse dt =>
      if (0 <=? dt)%Z
      then Some (Debounced (timeout d) (db_timers d) (db_next d) (db_now d + dt)%Z
                   (db_target d))
      else None
  | RlFire i =>
      match db_timers d !! i with
      | Some t =>
          if (db_due t <=? db_now d)%Z
          then Some (debounce_later func t
                       (Debounced (timeout d) (delete i (db_timers d)) (db_next d)
                          (db_now d) (db_target d)))
          else None
      | None => None
      end
  end.

Fixpoint debounce_run {A T : Type} (func : A → T → T) (wait : Z)
    (evs : list (rl_event A)) (d : debounced A T) : option (debounced A T) :=
  match evs with
  | [] => Some d
  | ev :: rest =>
      match debounce_step func wait ev d with
      | Some d' => debounce_run func wait rest d'
      | None => None
      end
  end.

(** The events that are no timer firing. *)
Definition is_fire {A : Type} (ev : rl_event A) : bool :=
  match ev with
  | RlFire _ => true
  | _ => false
  end.

(** ** Invariants of the rate-limited functions *)

(** Either the function is free and no reset is pending, or it is held and
    exactly one reset is pending. *)
Definition throttle_inv {T : Type} (t : throttled T) : Prop :=
  (inThrottle t = false ∧ th_timers t = [])
  ∨ (inThrottle t = true ∧ ∃ d, th_timers t = [d]).

(** The function is held until [d], with [x] the state [func] has left. *)
Definition held_until {T : Type} (d : Z) (x : T) (t : throttled T) : Prop :=
  inThrottle t = true ∧ th_timers t = [d] ∧ th_target t = x.

(** At most one timer is pending, and it is the one [timeout] names. *)
Definition debounce_inv {A T : Type} (d : debounced A T) : Prop :=
  db_timers d = []
  ∨ ∃ t, db_timers d = [t] ∧ timeout d = Some (db_id t).

(** The one pending timer is [t]; [func] has left [x]. *)
Definition waiting_for {A T : Type} (t : db_timer A) (x : T) (d : debounced A T) : Prop :=
  db_timers d = [t] ∧ timeout d = Some (db_id t) ∧ db_target d = x.

(** Since the instant [t0] of a call the function has been waiting, [func]
    having left [x]; its timer is due [wait] ms after [t0] or later. *)
Definition quiet_since {A T : Type} (wait : Z) (t0 : Z) (x : T) (d : debounced A T) : Prop :=
  (t0 ≤ db_now d)%Z ∧ ∃ t, waiting_for t x d ∧ (t0 + wait ≤ db_due t)%Z.

(** ** Utility functions: [calculateReadingTime] *)

(** [text.split(/\s+/)]: the pieces of [text] between its maximal runs of
    whitespace, an empty piece before a leading run and after a trailing
    one.  [in_gap] says that the character before was whitespace; [piece]
    is the current piece, in reverse. *)
Fixpoint split_whitespace_from (in_gap : bool) (piece : jsstring) (text : jsstring)
    : list jsstring :=
  match text with
  | [] => [rev piece]
  | c :: rest =>
      if is_space c
      then if in_gap
           then split_whitespace_from true [] rest
           else rev piece :: split_whitespace_from true [] rest
      else split_whitespace_from false (c :: piece) rest
  end.

Definition split_whitespace (text : jsstring) : list jsstring :=
  split_whitespace_from false [] text.

(** [Math.ceil(a / b)] for natural numbers. *)
Definition ceil_quotient (a b : nat) : nat :=
  a / b + (if a mod b =? 0 then 0 else 1).

Definition calculateReadingTime (text : jsstring) : string :=
  let wordsPerMinute := 200 in
  let words := length (split_whitespace text) in
  let minutes := ceil_quotient words wordsPerMinute in
  pretty minutes +:+ " min read".

(** A text written as a first word and then gaps of whitespace, each
    followed by a word. *)
Fixpoint join_gaps (first : jsstring) (rest : list (jsstring * jsstring)) : jsstring :=
  match rest with
  | [] => first
  | (gap, word) :: rest' => first ++ gap ++ join_gaps word rest'
  end.

(** The words have no whitespace, the gaps are whitespace and not empty,
    and only the first and the last word may be empty. *)
Fixpoint words_and_gaps (first : jsstring) (rest : list (jsstring * jsstring)) : Prop :=
  Forall (λ c, is_space c = false) first
  ∧ match rest with
    | [] => True
    | (gap, word) :: rest' =>
        gap ≠ [] ∧ Forall (λ c, is_space c = true) gap
        ∧ (rest' ≠ [] → word ≠ [])
        ∧ words_and_gaps word rest'
    end.

(** ** Navigation: [updateActiveNavLink] *)

(** A [section[id]] element with its position in the page. *)
Record pageSection : Type := PageSection {
  section_id : string;
  offsetTop : Z;
  clientHeight : Z
}.

(** A [.nav-link] element; [link_href] is what [getAttribute('href')] returns. *)
Record navLink : Type := NavLink {
  link_href : option string;
  link_classList : list string
}.

(** The test of the loop over the sections. *)
Definition in_view (scrollPosition : Z) (sec : pageSection) : bool :=
  (offsetTop sec <=? scrollPosition)%Z
  && (scrollPosition <? offsetTop sec + clientHeight sec)%Z.

(** The loop over the sections: a later section in view replaces an
    earlier one. *)
Definition currentSection (scrollPosition : Z) (sections : list pageSection) : string :=
  foldl (λ currentSectionId sec,
           if in_view scrollPosition sec then section_id sec else currentSectionId)
    "" sections.

(** [scrollY] is taken to be a whole number of pixels. *)
Definition updateActiveNavLink (scrollY : Z) (sections : list pageSection)
    (navLinks : list navLink) : list navLink :=
  let scrollPosition := (scrollY + 100)%Z in
  let currentSectionId := currentSection scrollPosition sections in
  (λ link,
     let cleared := classList_remove "active" (link_classList link) in
     NavLink (link_href link)
       (if decide (link_href link = Some ("#" +:+ currentSectionId))
        then classList_add "active" cleared
        else cleared)) <$> navLinks.

(** The link is marked as the active one. *)
Definition link_active (link : navLink) : Prop := "active" ∈ link_classList link.

(** ** Lazy loading of images *)

(** An [img] element: its [src] and [srcset], its [data-src] and
    [data-srcset] attributes, its classes, and whether the observer
    watches it. *)
Record image : Type := Image {
  img_src : option string;
  img_srcset : option string;
  img_data_src : option string;
  img_data_srcset : option string;
  img_classList : list string;
  img_observed : bool
}.

(** The callback of the observer, for one entry. *)
Definition lazy_entry (isIntersecting : bool) (img : image) : image :=
  if isIntersecting then
    let img1 :=
      if truthy (img_data_src img)
      then Image (img_data_src img) (img_srcset img) None (img_data_srcset img)
             (img_classList img) (img_observed img)
      else img in
    let img2 :=
      if truthy (img_data_srcset img1)
      then Image (img_src img1) (img_data_srcset img1) (img_data_src img1) None
             (img_classList img1) (img_observed img1)
      else img1 in
    Image (img_src img2) (img_srcset img2) (img_data_src img2) (img_data_srcset img2)
      (classList_add "loaded" (img_classList img2)) false
  else img.

(** The entries the browser hands to the callback: the position of the
    image among the images of the document, and whether it intersects.  The
    browser has entries only for the images the observer watches. *)
Definition lazy_entries (entries : list (nat * bool)) (images : list image) : list image :=
  foldl (λ imgs entry,
           match imgs !! entry.1 with
           | Some img =>
               if img_observed img
               then <[entry.1 := lazy_entry entry.2 img]> imgs
               else imgs
           | None => imgs
           end)
    images entries.

(** [initLazyLoading]: with [IntersectionObserver] the images that have
    one of the two attributes are observed; without it the images that have
    [data-src] get it as their source at once. *)
Definition initLazyLoading (hasIntersectionObserver : bool) (images : list image)
    : list image :=
  if hasIntersectionObserver then
    (λ img,
       if bool_decide (is_Some (img_data_src img) ∨ is_Some (img_data_srcset img))
       then Image (img_src img) (img_srcset img) (img_data_src img) (img_data_srcset img)
              (img_classList img) true
       else img) <$> images
  else
    (λ img,
       match img_data_src img with
       | Some src => Image (Some src) (img_srcset img) None (img_data_srcset img)
                       (img_classList img) (img_observed img)
       | None => img
       end) <$> images.

(** Each image is as [initLazyLoading] has left it, or has been loaded from
    that state by one intersecting entry. *)
Definition waiting_or_loaded (watched imgs : list image) : Prop :=
  ∀ i img0, watched !! i = Some img0 →
    ∃ img', imgs !! i = Some img'
      ∧ (img' = img0 ∨ (img_observed img0 = true ∧ img' = lazy_entry true img0)).

(** ** The contact form *)

Definition CONFIG_api_contact : string := "https://api.devhubx.org/contact".

(** A text control: what it holds and what [form.reset()] gives it back. *)
Record textField : Type := TextField {
  field_value : jsstring;
  field_default : jsstring
}.

(** The form [#contactForm] with the controls the handler selects in it. *)
Record contactForm : Type := ContactForm {
  contactName : textField;
  contactEmail : textField;
  contactSubject : textField;
  contactMessage : textField;
  contact_submit : submitBtn
}.

Record formData : Type := FormData {
  fd_name : jsstring;
  fd_email : jsstring;
  fd_subject : jsstring;
  fd_message : jsstring
}.

(** A call of [simulateAPICall] made for the contact form that has not
    settled: the timer it has set, with what the callback has captured. *)
Record contactCall : Type := ContactCall {
  call_due : Z;
  call_endpoint : string;
  call_data : formData
}.

(** The page with its contact form.  The timers of the calls made for the
    contact form are kept beside those of [cp_page], whose callbacks know
    the newsletter continuation only. *)
Record contactPage : Type := ContactPage {
  cp_page : state;
  cp_form : option contactForm;
  cp_calls : list contactCall
}.

(** [!value] for a string. *)
Definition is_empty (v : jsstring) : bool :=
  match v with
  | [] => true
  | _ => false
  end.

Definition contact_formData (form : contactForm) : formData :=
  FormData (trim (field_value (contactName form)))
    (trim (field_value (contactEmail form)))
    (trim (field_value (contactSubject form)))
    (trim (field_value (contactMessage form))).

Definition contact_update_submit (f : submitBtn → submitBtn) (form : contactForm)
    : contactForm :=
  ContactForm (contactName form) (contactEmail form) (contactSubject form)
    (contactMessage form) (f (contact_submit form)).

(** [form.reset()] *)
Definition contact_reset (form : contactForm) : contactForm :=
  let reset := λ fld, TextField (field_default fld) (field_default fld) in
  ContactForm (reset (contactName form)) (reset (contactEmail form))
    (reset (contactSubject form)) (reset (contactMessage form)) (contact_submit form).

(** [handleContactSubmit] up to its [await]. *)
Definition handleContactSubmit (cp : contactPage) : contactPage :=
  match cp_form cp with
  | None => cp
  | Some form =>
      let formData := contact_formData form in
      if is_empty (fd_name formData) || is_empty (fd_email formData)
         || is_empty (fd_subject formData) || is_empty (fd_message formData)
      then
        ContactPage
          (fst (showToast (txt "Please fill in all required fields") Error (cp_page cp)))
          (cp_form cp) (cp_calls cp)
      else if negb (isValidEmail (fd_email formData))
      then
        ContactPage
          (fst (showToast (txt "Please enter a valid email address") Error (cp_page cp)))
          (cp_form cp) (cp_calls cp)
      else
        ContactPage (cp_page cp)
          (Some (contact_update_submit (setButtonLoading true) form))
          (cp_calls cp
           ++ [ContactCall (now (cp_page cp) + api_delay) CONFIG_api_contact formData])
  end.

(** [handleContactSubmit] from its [await] on, [isSuccess] being the test
    of [simulateAPICall]. *)
Definition handleContactSubmit_resume (isSuccess : bool) (cp : contactPage)
    : contactPage :=
  let cp1 :=
    if isSuccess then
      ContactPage
        (fst (showToast (txt "Message sent successfully! We'll get back to you soon.")
                Success (cp_page cp)))
        (contact_reset <$> cp_form cp) (cp_calls cp)
    else
      ContactPage
        (fst (showToast (txt "Failed to send message. Please try again.") Error
                (cp_page cp)))
        (cp_form cp) (cp_calls cp) in
  ContactPage (cp_page cp1)
    (contact_update_submit (setButtonLoading false) <$> cp_form cp1) (cp_calls cp1).

(** The timer of the [i]-th pending call fires, with the draw [random]. *)
Definition contact_fire (i : nat) (random : Q) (cp : contactPage) : option contactPage :=
  match cp_calls cp !! i with
  | Some call =>
      if (call_due call <=? now (cp_page cp))%Z
      then
        let isSuccess := negb (Qle_bool random success_threshold) in
        Some (handleContactSubmit_resume isSuccess
                (ContactPage (cp_page cp) (cp_form cp) (delete i (cp_calls cp))))
      else None
  | None => None
  end.

(** All four fields are filled, once trimmed. *)
Definition contact_filled (form : contactForm) : Prop :=
  fd_name (contact_formData form) ≠ [] ∧ fd_email (contact_formData form) ≠ []
  ∧ fd_subject (contact_formData form) ≠ [] ∧ fd_message (contact_formData form) ≠ [].

(** A contact form on the first-visit page, its subject being blank. *)
Definition sample_contact (email : string) : contactPage :=
  ContactPage first_visit
    (Some (ContactForm (TextField (units "Ada") []) (TextField (units email) [])
             (TextField (units "   ") []) (TextField (units "Hello") [])
             (SubmitBtn "Send" false ["btn"] false)))
    [].

(** ** The markup of a toast

    What [toast.innerHTML = `...`] makes of the template literal of
    [showToast] with a message spliced in: the part of the HTML fragment
    parser (tokenizer and tree construction, with a [div] as context) that
    the template itself needs, namely the elements [div], [span], [button],
    [svg] and [path] with the attributes of the template, text and
    comments.  The result is [None] as soon as the markup leaves that part
    (another element or attribute, a character reference, a quirk of error
    recovery): nothing is said about such markup.  Text nodes and comments
    are parsed and dropped, the result being the tree of elements. *)

Definition dquote : string := String (ascii_of_nat 34) EmptyString.
Definition newline : string := String (ascii_of_nat 10) EmptyString.

(** The template literal, before and after [${message}]. *)
Definition template_before : string :=
  newline +:+ "        <div class=" +:+ dquote +:+ "toast-content" +:+ dquote +:+ ">"
  +:+ newline +:+ "            <span class=" +:+ dquote +:+ "toast-message" +:+ dquote +:+ ">".

Definition template_after : string :=
  "</span>"
  +:+ newline +:+ "            <button class=" +:+ dquote +:+ "toast-close" +:+ dquote
  +:+ " aria-label=" +:+ dquote +:+ "Close notification" +:+ dquote +:+ ">"
  +:+ newline +:+ "                <svg width=" +:+ dquote +:+ "16" +:+ dquote
  +:+ " height=" +:+ dquote +:+ "16" +:+ dquote
  +:+ " viewBox=" +:+ dquote +:+ "0 0 24 24" +:+ dquote
  +:+ " fill=" +:+ dquote +:+ "none" +:+ dquote
  +:+ " stroke=" +:+ dquote +:+ "currentColor" +:+ dquote
  +:+ " stroke-width=" +:+ dquote +:+ "2" +:+ dquote +:+ ">"
  +:+ newline +:+ "                    <path d=" +:+ dquote +:+ "M18 6L6 18M6 6l12 12"
  +:+ dquote +:+ "/>"
  +:+ newline +:+ "                </svg>"
  +:+ newline +:+ "            </button>"
  +:+ newline +:+ "        </div>"
  +:+ newline +:+ "    ".

Definition toast_markup (message : string) : string :=
  template_before +:+ message +:+ template_after.

Definition is_ascii_whitespace (c : ascii) : bool :=
  let n := nat_of_ascii c in
  Nat.eqb n 9 || Nat.eqb n 10 || Nat.eqb n 12 || Nat.eqb n 32.

Definition is_ascii_alpha (c : ascii) : bool :=
  let n := nat_of_ascii c in
  (65 <=? n) && (n <=? 90) || (97 <=? n) && (n <=? 122).

Definition to_ascii_lowercase (c : ascii) : ascii :=
  let n := nat_of_ascii c in
  if (65 <=? n) && (n <=? 90) then ascii_of_nat (n + 32) else c.

(** The characters taken for a tag name or an attribute name: letters,
    digits and the hyphen. *)
Definition is_name_char (c : ascii) : bool :=
  let n := nat_of_ascii c in
  is_ascii_alpha c || (48 <=? n) && (n <=? 57) || Nat.eqb n 45.

(** The characters taken for an unquoted attribute value. *)
Definition is_unquoted_char (c : ascii) : bool :=
  let n := nat_of_ascii c in
  negb (is_ascii_whitespace c || is_markup_char c || Nat.eqb n 62 || Nat.eqb n 34
        || Nat.eqb n 39 || Nat.eqb n 61 || Nat.eqb n 96).

Definition append_char (s : string) (c : ascii) : string := s +:+ String c EmptyString.

Inductive token : Type :=
| TChar (c : ascii)
| TComment
| TStart (name : string) (attributes : list (string * string)) (self_closing : bool)
| TEnd (name : string).

(** The states of the tokenizer, with the tag being read: its name, its
    attributes so far, the attribute being read.  In a comment, [dashes]
    counts the hyphens just read, up to two; the two that open the comment
    count. *)
Inductive tokenizer : Type :=
| Data
| TagOpen
| EndTagOpen
| TagName (name : string)
| EndTagName (name : string)
| BeforeAttributeName (name : string) (attributes : list (string * string))
| AttributeName (name : string) (attributes : list (string * string)) (attribute : string)
| AfterAttributeName (name : string) (attributes : list (string * string))
    (attribute : string)
| BeforeAttributeValue (name : string) (attributes : list (string * string))
    (attribute : string)
| AttributeValueDoubleQuoted (name : string) (attributes : list (string * string))
    (attribute value : string)
| AttributeValueUnquoted (name : string) (attributes : list (string * string))
    (attribute value : string)
| AfterAttributeValueQuoted (name : string) (attributes : list (string * string))
| SelfClosingStartTag (name : string) (attributes : list (string * string))
| MarkupDeclarationOpen (dashes : nat)
| Comment (dashes : nat).

(** An attribute whose name the tag already has is dropped. *)
Definition add_attribute (attribute value : string) (attributes : list (string * string))
    : list (string * string) :=
  if existsb (λ a, String.eqb (fst a) attribute) attributes then attributes
  else attributes ++ [(attribute, value)].

(** One character through the tokenizer: the next state and the token
    emitted, if any. *)
Definition tokenize (t : tokenizer) (c : ascii) : option (tokenizer * option token) :=
  let n := nat_of_ascii c in
  match t with
  | Data =>
      if Nat.eqb n 60 then Some (TagOpen, None)
      else if is_markup_char c then None
      else Some (Data, Some (TChar c))
  | TagOpen =>
      if is_ascii_alpha c
      then Some (TagName (String (to_ascii_lowercase c) EmptyString), None)
      else if Nat.eqb n 47 then Some (EndTagOpen, None)
      else if Nat.eqb n 33 then Some (MarkupDeclarationOpen 0, None)
      else None
  | EndTagOpen =>
      if is_ascii_alpha c
      then Some (EndTagName (String (to_ascii_lowercase c) EmptyString), None)
      else None
  | TagName name =>
      if is_ascii_whitespace c then Some (BeforeAttributeName name [], None)
      else if Nat.eqb n 47 then Some (SelfClosingStartTag name [], None)
      else if Nat.eqb n 62 then Some (Data, Some (TStart name [] false))
      else if is_name_char c
      then Some (TagName (append_char name (to_ascii_lowercase c)), None)
      else None
  | EndTagName name =>
      if Nat.eqb n 62 then Some (Data, Some (TEnd name))
      else if is_name_char c
      then Some (EndTagName (append_char name (to_ascii_lowercase c)), None)
      else None
  | BeforeAttributeName name attributes =>
      if is_ascii_whitespace c then Some (t, None)
      else if Nat.eqb n 47 then Some (SelfClosingStartTag name attributes, None)
      else if Nat.eqb n 62 then Some (Data, Some (TStart name attributes false))
      else if is_name_char c
      then Some (AttributeName name attributes
                   (String (to_ascii_lowercase c) EmptyString), None)
      else None
  | AttributeName name attributes attribute =>
      if is_ascii_whitespace c then Some (AfterAttributeName name attributes attribute, None)
      else if Nat.eqb n 47
      then Some (SelfClosingStartTag name (add_attribute attribute "" attributes), None)
      else if Nat.eqb n 62
      then Some (Data, Some (TStart name (add_attribute attribute "" attributes) false))
      else if Nat.eqb n 61 then Some (BeforeAttributeValue name attributes attribute, None)
      else if is_name_char c
      then Some (AttributeName name attributes
                   (append_char attribute (to_ascii_lowercase c)), None)
      else None
  | AfterAttributeName name attributes attribute =>
      if is_ascii_whitespace c then Some (t, None)
      else if Nat.eqb n 47
      then Some (SelfClosingStartTag name (add_attribute attribute "" attributes), None)
      else if Nat.eqb n 61 then Some (BeforeAttributeValue name attributes attribute, None)
      else if Nat.eqb n 62
      then Some (Data, Some (TStart name (add_attribute attribute "" attributes) false))
      else if is_name_char c
      then Some (AttributeName name (add_attribute attribute "" attributes)
                   (String (to_ascii_lowercase c) EmptyString), None)
      else None
  | BeforeAttributeValue name attributes attribute =>
      if is_ascii_whitespace c then Some (t, None)
      else if Nat.eqb n 34
      then Some (AttributeValueDoubleQuoted name attributes attribute "", None)
      else if is_unquoted_char c
      then Some (AttributeValueUnquoted name attributes attribute
                   (String c EmptyString), None)
      else None
  | AttributeValueDoubleQuoted name attributes attribute value =>
      if Nat.eqb n 34
      then Some (AfterAttributeValueQuoted name
                   (add_attribute attribute value attributes), None)
      else if Nat.eqb n 38 || Nat.eqb n 0 || Nat.eqb n 13 then None
      else Some (AttributeValueDoubleQuoted name attributes attribute
                   (append_char value c), None)
  | AttributeValueUnquoted name attributes attribute value =>
      if is_ascii_whitespace c
      then Some (BeforeAttributeName name (add_attribute attribute value attributes), None)
      else if Nat.eqb n 62
      then Some (Data, Some (TStart name (add_attribute attribute value attributes) false))
      else if is_unquoted_char c
      then Some (AttributeValueUnquoted name attributes attribute
                   (append_char value c), None)
      else None
  | AfterAttributeValueQuoted name attributes =>
      if is_ascii_whitespace c then Some (BeforeAttributeName name attributes, None)
      else if Nat.eqb n 47 then Some (SelfClosingStartTag name attributes, None)
      else if Nat.eqb n 62 then Some (Data, Some (TStart name attributes false))
      else None
  | SelfClosingStartTag name attributes =>
      if Nat.eqb n 62 then Some (Data, Some (TStart name attributes true)) else None
  | MarkupDeclarationOpen dashes =>
      if Nat.eqb n 45
      then Some (if Nat.eqb dashes 0 then MarkupDeclarationOpen 1 else Comment 2, None)
      else None
  | Comment dashes =>
      if Nat.eqb n 45 then Some (Comment (Nat.min 2 (S dashes)), None)
      else if Nat.eqb n 62 && (2 <=? dashes) then Some (Data, Some TComment)
      else if Nat.eqb n 33 || Nat.eqb n 0 || Nat.eqb n 13 then None
      else Some (Comment 0, None)
  end.

(** The end of the input: in a comment, the comment is emitted. *)
Definition end_of_input (t : tokenizer) : option (option token) :=
  match t with
  | Data => Some None
  | Comment _ => Some (Some TComment)
  | _ => None
  end.

(** An element: its name, whether it is in the SVG namespace, its classes
    and its child elements. *)
#[warnings="-register-all"] Inductive element : Type :=
| Element (tagName : string) (svg : bool) (classes : list string)
    (children : list element).

(** An entry of the stack of open elements, with the children it has so far. *)
Record open_element : Type := Open {
  open_tagName : string;
  open_svg : bool;
  open_classes : list string;
  open_children : list element
}.

(** Pops the stack until an element named [name] has been popped, each
    element popped becoming the last child of the one below it.  The root
    is never popped. *)
Fixpoint pop_until (name : string) (last : list element) (stack : list open_element)
    : option (list open_element) :=
  match stack with
  | [] => None
  | current :: below =>
      let e := Element (open_tagName current) (open_svg current) (open_classes current)
                 (open_children current ++ last) in
      match below with
      | [] => None
      | parent :: rest =>
          if String.eqb (open_tagName current) name
          then Some (Open (open_tagName parent) (open_svg parent) (open_classes parent)
                       (open_children parent ++ [e]) :: rest)
          else pop_until name [e] below
      end
  end.

(** The end of the input closes every open element; the result is the
    children of the root. *)
Fixpoint close_all (last : list element) (stack : list open_element) : list element :=
  match stack with
  | [] => last
  | current :: below =>
      match below with
      | [] => open_children current ++ last
      | _ =>
          close_all [Element (open_tagName current) (open_svg current)
                       (open_classes current) (open_children current ++ last)] below
      end
  end.

Definition has_open (name : string) (stack : list open_element) : bool :=
  existsb (λ e, String.eqb (open_tagName e) name) stack.

(** The pieces of a [class] attribute between ASCII whitespace. *)
Fixpoint split_on_ascii_whitespace (piece : string) (s : string) : list string :=
  match s with
  | EmptyString => if String.eqb piece "" then [] else [piece]
  | String c rest =>
      if is_ascii_whitespace c
      then (if String.eqb piece "" then [] else [piece]) ++ split_on_ascii_whitespace "" rest
      else split_on_ascii_whitespace (append_char piece c) rest
  end.

Definition class_of (attributes : list (string * string)) : list string :=
  match find (λ a, String.eqb (fst a) "class") attributes with
  | Some a => split_on_ascii_whitespace "" (snd a)
  | None => []
  end.

(** The attributes of the template (names in lower case, as the tokenizer
    gives them). *)
Definition template_attributes : list string :=
  ["class"; "aria-label"; "width"; "height"; "viewbox"; "fill"; "stroke";
   "stroke-width"; "d"].

Definition known_attributes (attributes : list (string * string)) : bool :=
  forallb (λ a, bool_decide (fst a ∈ template_attributes)) attributes.

(** Tree construction for one token, in the insertion mode "in body" and,
    when the current node is an SVG element, in foreign content. *)
Definition tree_construction (tok : token) (stack : list open_element)
    : option (list open_element) :=
  match stack with
  | [] => None
  | current :: _ =>
      match tok with
      | TChar _ => Some stack
      | TComment => Some stack
      | TStart name attributes self_closing =>
          if negb (known_attributes attributes) then None
          else if open_svg current then
            if String.eqb name "svg" || String.eqb name "path" then
              let stack' := Open name true (class_of attributes) [] :: stack in
              if self_closing then pop_until name [] stack' else Some stack'
            else None
          else if String.eqb name "div" || String.eqb name "span" then
            if self_closing then None
            else Some (Open name false (class_of attributes) [] :: stack)
          else if String.eqb name "button" then
            if self_closing || has_open "button" stack then None
            else Some (Open name false (class_of attributes) [] :: stack)
          else if String.eqb name "svg" then
            let stack' := Open name true (class_of attributes) [] :: stack in
            if self_closing then pop_until name [] stack' else Some stack'
          else None
      | TEnd name =>
          if open_svg current then
            if String.eqb (open_tagName current) name then pop_until name [] stack
            else None
          else if String.eqb name "span" then
            if String.eqb (open_tagName current) "span" then pop_until name [] stack
            else Some stack
          else if String.eqb name "div" || String.eqb name "button" then
            if has_open name stack then pop_until name [] stack else Some stack
          else None
      end
  end.

Record parser : Type := Parser {
  parser_tokenizer : tokenizer;
  parser_stack : list open_element
}.

Definition feed (p : parser) (c : ascii) : option parser :=
  match tokenize (parser_tokenizer p) c with
  | None => None
  | Some (t, None) => Some (Parser t (parser_stack p))
  | Some (t, Some tok) =>
      match tree_construction tok (parser_stack p) with
      | Some stack => Some (Parser t stack)
      | None => None
      end
  end.

Fixpoint feed_string (p : parser) (s : string) : option parser :=
  match s with
  | EmptyString => Some p
  | String c rest =>
      match feed p c with
      | Some p' => feed_string p' rest
      | None => None
      end
  end.

(** The child elements an element gets when [markup] is assigned to its
    [innerHTML]. *)
Definition innerHTML (markup : string) : option (list element) :=
  match feed_string (Parser Data [Open "html" false [] []]) markup with
  | None => None
  | Some p =>
      match end_of_input (parser_tokenizer p) with
      | None => None
      | Some None => Some (close_all [] (parser_stack p))
      | Some (Some tok) =>
          match tree_construction tok (parser_stack p) with
          | Some stack => Some (close_all [] stack)
          | None => None
          end
      end
  end.

(** [querySelectorAll('.c')] and [querySelector('.c')] on the descendants
    of an element with the children [l], in tree order. *)
Fixpoint matching (c : string) (e : element) : list element :=
  match e with
  | Element _ _ classes children =>
      (if bool_decide (c ∈ classes) then [e] else []) ++ flat_map (matching c) children
  end.

Definition querySelectorAll (c : string) (l : list element) : list element :=
  flat_map (matching c) l.

Definition querySelector (c : string) (l : list element) : option element :=
  head (querySelectorAll c l).

(** What the template gives when the message adds no element. *)
Definition template_elements : list element :=
  [Element "div" false ["toast-content"]
     [Element "span" false ["toast-message"] [];
      Element "button" false ["toast-close"]
        [Element "svg" true [] [Element "path" true [] []]]]].

(** ** Regular expressions: correctness of the matcher *)

Lemma nullable_lang (r : regex) : nullable r = true <-> lang r [].
Proof.
  induction r as [| | p | r1 IH1 r2 IH2 | r1 IH1 r2 IH2 | r1 IH1]; simpl.
  - split; [discriminate | intros H; inversion H].
  - split; [constructor | reflexivity].
  - split; [discriminate | intros H; inversion H].
  - rewrite andb_true_iff, IH1, IH2. split.
    + intros [H1 H2]. change (@nil N) with (@nil N ++ []). by constructor.
    + intros H. inv H.
      match goal with E : _ ++ _ = [] |- _ => apply app_eq_nil in E as [-> ->] end.
      done.
  - rewrite orb_true_iff, IH1, IH2. split.
    + intros [H | H]; [by apply lang_alt_l | by apply lang_alt_r].
    + intros H. inversion H; subst; tauto.
  - split; [constructor | reflexivity].
Qed.

Lemma lang_star_cons (r : regex) (c : N) (s : jsstring) :
  lang (Star r) (c :: s) ->
  exists s1 s2, s = s1 ++ s2 /\ lang r (c :: s1) /\ lang (Star r) s2.
Proof.
  intros H. remember (Star r) as r' eqn:Er. remember (c :: s) as w eqn:Ew.
  induction H as [| | | | | | r0 s1 s2 H1 _ H2 IH2]; try discriminate.
  injection Er as ->. destruct s1 as [| c' s1'].
  - simpl in Ew. apply IH2; auto.
  - simpl in Ew. injection Ew as -> <-. eauto.
Qed.

Lemma deriv_lang (r : regex) (c : N) (s : jsstring) :
  lang (deriv c r) s <-> lang r (c :: s).
Proof.
  revert s. induction r as [| | p | r1 IH1 r2 IH2 | r1 IH1 r2 IH2 | r1 IH1];
    intros s; simpl.
  - split; intros H; inversion H.
  - split; intros H; inversion H.
  - destruct (p c) eqn:Hp; split; intros H.
    + inversion H; subst. by constructor.
    + inversion H; subst. constructor.
    + inversion H.
    + inversion H; subst. congruence.
  - assert (Hcat : lang (Cat (deriv c r1) r2) s -> lang (Cat r1 r2) (c :: s)).
    { intros H. inv H.
      match goal with |- lang _ (c :: ?s1 ++ ?s2) =>
        change (c :: s1 ++ s2) with ((c :: s1) ++ s2) end.
      constructor; [by apply IH1 | done]. }
    assert (Hinv : lang (Cat r1 r2) (c :: s) ->
                   lang (Cat (deriv c r1) r2) s \/ (lang r1 [] /\ lang r2 (c :: s))).
    { intros H. inversion H as [| | ? ? s1 s2 H1 H2 | | | |]; subst.
      destruct s1 as [| c' s1']; simplify_eq/=.
      - by right.
      - left. constructor; [by apply IH1 | done]. }
    destruct (nullable r1) eqn:Hn; split; intros H.
    + inversion H; subst; [by apply Hcat |].
      change (c :: s) with ([] ++ c :: s).
      constructor; [by apply nullable_lang | by apply IH2].
    + destruct (Hinv H) as [H' | [_ H']]; [by apply lang_alt_l |].
      apply lang_alt_r. by apply IH2.
    + by apply Hcat.
    + destruct (Hinv H) as [H' | [H' _]]; [done |].
      apply nullable_lang in H'. congruence.
  - split; intros H; inversion H; subst.
    + apply lang_alt_l. by apply IH1.
    + apply lang_alt_r. by apply IH2.
    + apply lang_alt_l. by apply IH1.
    + apply lang_alt_r. by apply IH2.
  - split; intros H.
    + inv H.
      match goal with |- lang _ (c :: ?s1 ++ ?s2) =>
        change (c :: s1 ++ s2) with ((c :: s1) ++ s2) end.
      constructor; [by apply IH1 | done].
    + apply lang_star_cons in H as (s1 & s2 & -> & H1 & H2).
      constructor; [by apply IH1 | done].
Qed.

Lemma matches_lang (r : regex) (s : jsstring) : matches r s = true <-> lang r s.
Proof.
  revert r. induction s as [| c s IH]; intros r; simpl.
  - apply nullable_lang.
  - rewrite IH. apply deriv_lang.
Qed.

Lemma lang_class_iff (p : N -> bool) (s : jsstring) :
  lang (Class p) s <-> exists c, s = [c] /\ p c = true.
Proof.
  split.
  - intros H. inv H. eauto.
  - intros (c & -> & Hp). by constructor.
Qed.

Lemma lang_cat_iff (r1 r2 : regex) (s : jsstring) :
  lang (Cat r1 r2) s <-> exists s1 s2, s = s1 ++ s2 /\ lang r1 s1 /\ lang r2 s2.
Proof.
  split.
  - intros H. inv H. eauto.
  - intros (s1 & s2 & -> & H1 & H2). by constructor.
Qed.

Lemma lang_star_class (p : N -> bool) (s : jsstring) :
  lang (Star (Class p)) s <-> Forall (fun x => p x = true) s.
Proof.
  split.
  - intros H. remember (Star (Class p)) as r eqn:Er.
    induction H as [| | | | | | r0 s1 s2 H1 _ H2 IH2]; try discriminate.
    + constructor.
    + injection Er as ->. apply lang_class_iff in H1 as (c & -> & Hc).
      simpl. constructor; auto.
  - induction 1 as [| c s Hc _ IH].
    + constructor.
    + change (c :: s) with ([c] ++ s). constructor; [by constructor | done].
Qed.

Lemma lang_plus_class (p : N -> bool) (s : jsstring) :
  lang (Plus (Class p)) s <-> s <> [] /\ Forall (fun x => p x = true) s.
Proof.
  unfold Plus. rewrite lang_cat_iff. split.
  - intros (s1 & s2 & -> & H1 & H2).
    apply lang_class_iff in H1 as (c & -> & Hc). apply lang_star_class in H2.
    split; [done | by constructor].
  - intros [Hne Hall]. destruct Hall as [| c s Hc Hall]; [done |].
    exists [c], s. split; [done |]. split; [by constructor | by apply lang_star_class].
Qed.

Lemma lang_emailRegex (s : jsstring) : lang emailRegex s <-> email_shape s.
Proof.
  unfold emailRegex, email_shape. split.
  - intros H.
    apply lang_cat_iff in H as (a & s1 & -> & Ha & H).
    apply lang_cat_iff in H as (x & s2 & -> & Hx & H).
    apply lang_cat_iff in H as (b & s3 & -> & Hb & H).
    apply lang_cat_iff in H as (y & c & -> & Hy & Hc).
    apply lang_class_iff in Hx as (cx & -> & Hcx).
    apply lang_class_iff in Hy as (cy & -> & Hcy).
    apply N.eqb_eq in Hcx as ->. apply N.eqb_eq in Hcy as ->.
    apply lang_plus_class in Ha as [? ?], Hb as [? ?], Hc as [? ?].
    exists a, b, c. done.
  - intros (a & b & c & -> & Ha & Hb & Hc & Fa & Fb & Fc).
    constructor; [by apply lang_plus_class |].
    constructor; [by constructor |].
    constructor; [by apply lang_plus_class |].
    constructor; [by constructor | by apply lang_plus_class].
Qed.

Lemma email_shape_no_space (s : jsstring) :
  email_shape s -> Forall (fun c => is_space c = false) s.
Proof.
  intros (a & b & c & -> & _ & _ & _ & Fa & Fb & Fc).
  assert (Hok : forall l, Forall (fun x => not_space_at x = true) l ->
                          Forall (fun x => is_space x = false) l).
  { intros l Hl. eapply Forall_impl; [exact Hl |]. intros x Hx. simpl in Hx.
    unfold not_space_at in Hx. apply negb_true_iff, orb_false_iff in Hx. tauto. }
  repeat (apply Forall_app; split); auto; by repeat constructor.
Qed.

(** C10: [isValidEmail] accepts exactly the strings made of one or more
    characters that are neither whitespace nor [@], then [@], then one or
    more such characters, then [.], then one or more such characters.  So it
    rejects ["a@b"], which has no dot after the [@], and every string that
    contains whitespace; nothing but the shape matters, whatever the length
    or the other content (a second dot, for instance). *)
Theorem isValidEmail_accepts_exactly_shape :
  (forall s : jsstring, isValidEmail s = true <-> email_shape s)
  /\ isValidEmail (units "a@b") = false
  /\ (forall s : jsstring, Exists (fun c => is_space c = true) s -> isValidEmail s = false)
  /\ isValidEmail (units "user@example.com") = true
  /\ isValidEmail (units "a@b..c") = true
  /\ isValidEmail (units "not-an-email") = false.
Proof.
  assert (Hiff : forall s, isValidEmail s = true <-> email_shape s).
  { intros s. unfold isValidEmail. rewrite matches_lang. apply lang_emailRegex. }
  split; [exact Hiff |]. split; [reflexivity |]. split; [| by vm_compute].
  intros s Hs. destruct (isValidEmail s) eqn:Hv; [| done].
  apply Hiff, email_shape_no_space in Hv.
  apply Exists_exists in Hs as (c & Hin & Hc).
  rewrite Forall_forall in Hv. specialize (Hv c Hin). simpl in Hv. congruence.
Qed.

Lemma isValidEmail_rejects_space_witness :
  isValidEmail (units "user name@example.com") = false.
Proof.
  destruct isValidEmail_accepts_exactly_shape as (_ & _ & H & _).
  apply H. apply Exists_exists. exists 32%N. split; [| reflexivity].
  apply list_elem_of_In. vm_compute. tauto.
Defined.

(** ** Theme management: how each function acts on the fields *)

Lemma updateThemeToggle_frame (theme : option string) (s : state) :
  localStorage (updateThemeToggle theme s) = localStorage s
  /\ data_theme (updateThemeToggle theme s) = data_theme s
  /\ body (updateThemeToggle theme s) = body s
  /\ timers (updateThemeToggle theme s) = timers s
  /\ now (updateThemeToggle theme s) = now s
  /\ next_id (updateThemeToggle theme s) = next_id s
  /\ newsletterForm (updateThemeToggle theme s) = newsletterForm s.
Proof.
  unfold updateThemeToggle. destruct (themeToggle s); [case_decide |]; done.
Qed.

Lemma setTheme_invalid (theme : string) (s : state) :
  theme <> "light" -> theme <> "dark" -> setTheme theme s = s.
Proof.
  intros Hl Hd. unfold setTheme.
  rewrite bool_decide_eq_false_2; [done |].
  rewrite !elem_of_cons, elem_of_nil. tauto.
Qed.

Lemma setTheme_valid (theme : string) (s : state) :
  theme = "light" \/ theme = "dark" ->
  data_theme (setTheme theme s) = Some theme
  /\ localStorage (setTheme theme s) = <[CONFIG_storage_theme := theme]> (localStorage s)
  /\ body (setTheme theme s) =
       body s ++ [Node (next_id s) ["visually-hidden"] (Some "polite")
                    ("Theme changed to " +:+ theme +:+ " mode")]
  /\ timers (setTheme theme s) =
       timers s ++ [Timer (now s + 1000) (AnnouncementRemove (next_id s))]
  /\ now (setTheme theme s) = now s
  /\ newsletterForm (setTheme theme s) = newsletterForm s.
Proof.
  intros Hv. unfold setTheme.
  rewrite bool_decide_eq_true_2 by (rewrite !elem_of_cons; tauto). simpl.
  match goal with |- context [updateThemeToggle ?t ?s0] =>
    destruct (updateThemeToggle_frame t s0) as (E1 & E2 & E3 & E4 & E5 & E6 & E7) end.
  simpl in *. rewrite E1, E2, E3, E4, E5, E6, E7. done.
Qed.

Lemma createThemeToggle_frame (s : state) :
  localStorage (fst (createThemeToggle s)) = localStorage s
  /\ data_theme (fst (createThemeToggle s)) = data_theme s
  /\ body (fst (createThemeToggle s)) = body s
  /\ timers (fst (createThemeToggle s)) = timers s
  /\ now (fst (createThemeToggle s)) = now s
  /\ newsletterForm (fst (createThemeToggle s)) = newsletterForm s.
Proof.
  unfold createThemeToggle, createNavActions.
  destruct (themeToggle s); [done |].
  destruct (nav_actions s); [| destruct (nav_container s)]; simpl; try done.
  all: match goal with |- context [updateThemeToggle ?t ?s0] =>
         destruct (updateThemeToggle_frame t s0) as (E1 & E2 & E3 & E4 & E5 & E6 & E7) end.
  all: simpl in *; rewrite E1, E2, E3, E4, E5, E7; done.
Qed.

Lemma resolved_theme_valid (s : state) :
  resolved_theme s = "light" \/ resolved_theme s = "dark".
Proof. unfold resolved_theme. case_match; auto. Qed.

Lemma initTheme_frame (s : state) :
  data_theme (fst (initTheme s)) = Some (resolved_theme s)
  /\ localStorage (fst (initTheme s)) =
       <[CONFIG_storage_theme := resolved_theme s]> (localStorage s).
Proof.
  unfold initTheme.
  match goal with |- context [createThemeToggle ?x] => set (s1 := x) end.
  assert (Hs1 : s1 = setTheme (resolved_theme s) s).
  { unfold s1, resolved_theme. by case_match. }
  destruct (createThemeToggle_frame s1) as (E1 & E2 & _).
  destruct (setTheme_valid _ s (resolved_theme_valid s)) as (F1 & F2 & _).
  rewrite <- Hs1 in F1, F2.
  destruct (createThemeToggle s1) as [s2 [| e]]; simpl in *; split; congruence.
Qed.

Lemma initTheme_keeps_form (s : state) :
  newsletterForm (fst (initTheme s)) = newsletterForm s.
Proof.
  unfold initTheme.
  match goal with |- context [createThemeToggle ?x] => set (s1 := x) end.
  assert (Hs1 : newsletterForm s1 = newsletterForm s).
  { unfold s1. case_match.
    - by destruct (setTheme_valid "dark" s) as (_ & _ & _ & _ & _ & ->); [right |].
    - by destruct (setTheme_valid "light" s) as (_ & _ & _ & _ & _ & ->); [left |]. }
  destruct (createThemeToggle_frame s1) as (_ & _ & _ & _ & _ & F).
  destruct (createThemeToggle s1) as [s2 [| e]]; simpl in *; congruence.
Qed.

Lemma toggleTheme_frame (s : state) :
  let newTheme := if decide (data_theme s = Some "dark") then "light" else "dark" in
  data_theme (toggleTheme s) = Some newTheme
  /\ localStorage (toggleTheme s) = <[CONFIG_storage_theme := newTheme]> (localStorage s).
Proof.
  unfold toggleTheme. simpl.
  destruct (setTheme_valid (if decide (data_theme s = Some "dark") then "light" else "dark") s)
    as (E1 & E2 & _); [case_decide; auto | done].
Qed.

(** At load time [initTheme] makes the stored value the active theme when
    it is a theme; with nothing stored the active theme is what the system
    reports: dark when it prefers dark, light otherwise. *)
Lemma initTheme_stored_then_system_then_light (s : state) :
  let saved := localStorage s !! CONFIG_storage_theme in
  let active := data_theme (fst (initTheme s)) in
  (saved = Some "dark" -> active = Some "dark")
  /\ (saved = Some "light" -> active = Some "light")
  /\ (saved = None -> prefers_dark s = true -> active = Some "dark")
  /\ (saved = None -> prefers_dark s = false -> active = Some "light").
Proof.
  simpl. destruct (initTheme_frame s) as [-> _]. unfold resolved_theme.
  repeat split.
  - by intros ->.
  - by intros ->.
  - by intros -> ->.
  - by intros -> ->.
Qed.

(** What [initTheme] does with stored values that are no theme: the empty
    string counts as nothing stored, anything else gives light. *)
Lemma initTheme_other_stored_values (s : state) (v : string) :
  localStorage s !! CONFIG_storage_theme = Some v →
  v ≠ "dark" →
  data_theme (fst (initTheme s))
  = Some (if String.eqb v "" && prefers_dark s then "dark" else "light").
Proof.
  intros Hv Hne. destruct (initTheme_frame s) as [-> _]. unfold resolved_theme.
  rewrite Hv. simpl. rewrite bool_decide_eq_false_2 by congruence.
  rewrite negb_involutive. simpl. by destruct (_ && _).
Qed.

Lemma onSystemThemeChange_after_initTheme (s : state) (e_matches : bool) :
  onSystemThemeChange e_matches (fst (initTheme s)) = fst (initTheme s).
Proof.
  unfold onSystemThemeChange. destruct (initTheme_frame s) as [_ ->].
  rewrite lookup_insert_eq. by destruct (resolved_theme_valid s) as [-> | ->].
Qed.

(** C2, at the input where the code departs from it: on a first visit the
    theme key is absent, the user toggles nothing, and after [initTheme] the
    key holds ["light"].  In general [initTheme] stores the theme it has
    resolved, whatever was stored before. *)
Theorem initTheme_writes_theme_key :
  localStorage first_visit !! CONFIG_storage_theme = None
  /\ localStorage (fst (initTheme first_visit)) !! CONFIG_storage_theme = Some "light"
  /\ (forall s : state,
        localStorage (fst (initTheme s)) !! CONFIG_storage_theme = Some (resolved_theme s)).
Proof.
  split; [reflexivity |]. split; [by vm_compute |].
  intros s. destruct (initTheme_frame s) as [_ ->]. apply lookup_insert_eq.
Qed.

(** ** Toasts: the identities of the toasts in the document *)

Lemma toast_count_ids (s : state) : toast_count s = length (toast_ids s).
Proof. unfold toast_count, toast_ids. by rewrite length_fmap. Qed.

Lemma toasts_have_removal_ids (s : state) :
  toasts_have_removal s ↔ ∀ id, id ∈ toast_ids s → removal_pending id (timers s).
Proof.
  unfold toasts_have_removal, toast_ids, removal_pending. split.
  - intros H id Hid. apply list_elem_of_fmap in Hid as (n & -> & Hn).
    apply list_elem_of_filter in Hn as [Ht Hn]. by apply H.
  - intros H n Hn Ht. apply H. apply list_elem_of_fmap. exists n. split; [done |].
    by apply list_elem_of_filter.
Qed.

Lemma toast_inv_iff (s : state) :
  toast_inv s ↔ (toast_count s ≤ 1)%nat ∧ toasts_have_removal s.
Proof. unfold toast_inv. by rewrite toast_count_ids, toasts_have_removal_ids. Qed.

Lemma is_toast_classList_add_show (id : nat) (n : node) :
  is_toast (update_classList (classList_add "show") id n) = is_toast n.
Proof.
  unfold update_classList, is_toast, classList_add. case_decide; [| done]. simpl.
  case_decide; [done |]. apply bool_decide_ext. rewrite elem_of_app, list_elem_of_singleton.
  split; [intros [H' | H'] |]; by auto.
Qed.

Lemma is_toast_classList_remove_show (id : nat) (n : node) :
  is_toast (update_classList (classList_remove "show") id n) = is_toast n.
Proof.
  unfold update_classList, is_toast, classList_remove. case_decide; [| done]. simpl.
  apply bool_decide_ext. rewrite list_elem_of_filter. split; [tauto | done].
Qed.

Lemma node_id_update_classList (f : list string → list string) (id : nat) (n : node) :
  node_id (update_classList f id n) = node_id n.
Proof. unfold update_classList. by case_decide. Qed.

Lemma toast_ids_update (f : list string → list string) (id : nat) (l : list node) :
  (∀ n, is_toast (update_classList f id n) = is_toast n) →
  node_id <$> filter (λ n, is_toast n = true) (update_classList f id <$> l)
  = node_id <$> filter (λ n, is_toast n = true) l.
Proof.
  intros Hf. induction l as [| n l IH]; [done |].
  rewrite fmap_cons, !filter_cons, Hf.
  case_decide; rewrite ?fmap_cons, ?node_id_update_classList, IH; done.
Qed.

Lemma toast_ids_remove (id : nat) (l : list node) :
  node_id <$> filter (λ n, is_toast n = true) (filter (λ n, node_id n ≠ id) l)
  = filter (λ i, i ≠ id) (node_id <$> filter (λ n, is_toast n = true) l).
Proof.
  induction l as [| n l IH]; [done |].
  rewrite (filter_cons (λ n, node_id n ≠ id)), (filter_cons (λ n, is_toast n = true) n l).
  destruct (decide (node_id n ≠ id)) as [Hi | Hi],
    (decide (is_toast n = true)) as [Ht | Ht].
  - rewrite filter_cons_True, !fmap_cons, filter_cons_True, IH by done. done.
  - rewrite filter_cons_False by done. done.
  - rewrite fmap_cons, filter_cons_False by tauto. done.
  - done.
Qed.

Lemma toast_ids_app_quiet (l l' : list node) :
  Forall (λ n, is_toast n = false) l' →
  node_id <$> filter (λ n, is_toast n = true) (l ++ l')
  = node_id <$> filter (λ n, is_toast n = true) l.
Proof.
  intros Hq. rewrite filter_app.
  assert (E : filter (λ n, is_toast n = true) l' = []).
  { induction Hq as [| n l' Hn _ IH]; [done |].
    rewrite filter_cons. case_decide; [congruence | done]. }
  by rewrite E, app_nil_r.
Qed.

Lemma toast_ids_removeExisting (l : list node) :
  filter (λ n, is_toast n = true) (filter (λ n, is_toast n = false) l) = [].
Proof.
  induction l as [| n l IH]; [done |].
  rewrite filter_cons. case_decide; [| done].
  rewrite filter_cons. case_decide; [congruence | done].
Qed.

(** ** Steps that leave the toasts alone *)

Lemma quiet_same (s s' : state) :
  body s' = body s → timers s' = timers s → now s' = now s → quiet s s'.
Proof.
  intros Hb Ht Hn. split; [| split; [| done]].
  - exists []. by rewrite app_nil_r.
  - exists []. by rewrite app_nil_r.
Qed.

Lemma quiet_trans (s1 s2 s3 : state) : quiet s1 s2 → quiet s2 s3 → quiet s1 s3.
Proof.
  intros ((l1 & B1 & Q1) & (t1 & T1) & N1) ((l2 & B2 & Q2) & (t2 & T2) & N2).
  split; [| split].
  - exists (l1 ++ l2). rewrite B2, B1, app_assoc. split; [done |]. by apply Forall_app.
  - exists (t1 ++ t2). by rewrite T2, T1, app_assoc.
  - congruence.
Qed.

Lemma quiet_toast_ids (s s' : state) : quiet s s' → toast_ids s' = toast_ids s.
Proof.
  intros ((l & B & Q) & _). unfold toast_ids. rewrite B. by apply toast_ids_app_quiet.
Qed.

Lemma removal_pending_app (id : nat) (l l' : list timer) :
  removal_pending id l → removal_pending id (l ++ l').
Proof. intros (t & Ht & Hcb). exists t. split; [| done]. apply elem_of_app. by left. Qed.

Lemma quiet_toast_inv (s s' : state) : quiet s s' → toast_inv s → toast_inv s'.
Proof.
  intros Hq [Hlen Hrem]. pose proof (quiet_toast_ids _ _ Hq) as E.
  destruct Hq as (_ & (l & T) & _). unfold toast_inv. rewrite E, T.
  split; [done |]. intros id Hid. by apply removal_pending_app, Hrem.
Qed.

Lemma setTheme_quiet (theme : string) (s : state) : quiet s (setTheme theme s).
Proof.
  destruct (decide (theme = "light")) as [Hl | Hl];
    [| destruct (decide (theme = "dark")) as [Hd | Hd]].
  3: { rewrite setTheme_invalid by done. by apply quiet_same. }
  all: destruct (setTheme_valid theme s) as (_ & _ & B & T & N & _); [by auto |].
  all: split; [exists [Node (next_id s) ["visually-hidden"] (Some "polite")
                         ("Theme changed to " +:+ theme +:+ " mode")];
               split; [done | by repeat constructor]
              | split; [by eexists | done]].
Qed.

Lemma toggleTheme_quiet (s : state) : quiet s (toggleTheme s).
Proof. apply setTheme_quiet. Qed.

Lemma onSystemThemeChange_quiet (e_matches : bool) (s : state) :
  quiet s (onSystemThemeChange e_matches s).
Proof.
  unfold onSystemThemeChange. case_match; [apply setTheme_quiet | by apply quiet_same].
Qed.

Lemma initTheme_quiet (s : state) : quiet s (fst (initTheme s)).
Proof.
  unfold initTheme.
  match goal with |- context [createThemeToggle ?x] => set (s1 := x) end.
  assert (Hs1 : quiet s s1) by (unfold s1; case_match; apply setTheme_quiet).
  destruct (createThemeToggle_frame s1) as (_ & _ & B & T & N & _).
  eapply quiet_trans; [exact Hs1 |].
  destruct (createThemeToggle s1) as [s2 [| e]]; simpl in *; by apply quiet_same.
Qed.

Lemma updateNewsletterFormState_frame (b : bool) (s : state) :
  body (updateNewsletterFormState b s) = body s
  ∧ timers (updateNewsletterFormState b s) = timers s
  ∧ now (updateNewsletterFormState b s) = now s
  ∧ localStorage (updateNewsletterFormState b s) = localStorage s.
Proof.
  unfold updateNewsletterFormState.
  destruct (newsletterForm s), b; repeat split; reflexivity.
Qed.

Lemma update_submit_frame (f : submitBtn → submitBtn) (s : state) :
  body (update_submit f s) = body s
  ∧ timers (update_submit f s) = timers s
  ∧ now (update_submit f s) = now s
  ∧ localStorage (update_submit f s) = localStorage s.
Proof. unfold update_submit. destruct (newsletterForm s); repeat split; reflexivity. Qed.

Lemma form_reset_frame (s : state) :
  body (form_reset s) = body s
  ∧ timers (form_reset s) = timers s
  ∧ now (form_reset s) = now s
  ∧ localStorage (form_reset s) = localStorage s.
Proof. unfold form_reset. destruct (newsletterForm s); repeat split; reflexivity. Qed.

Lemma focus_emailInput_frame (s : state) :
  body (focus_emailInput s) = body s
  ∧ timers (focus_emailInput s) = timers s
  ∧ now (focus_emailInput s) = now s
  ∧ localStorage (focus_emailInput s) = localStorage s
  ∧ newsletterForm (focus_emailInput s) = newsletterForm s.
Proof.
  unfold focus_emailInput. destruct (newsletterForm s) as [fm |] eqn:E; [| done].
  destruct (input_disabled (form_email fm)); repeat split; done.
Qed.

Lemma initForms_frame (s : state) :
  body (initForms s) = body s
  ∧ timers (initForms s) = timers s
  ∧ now (initForms s) = now s
  ∧ localStorage (initForms s) = localStorage s.
Proof.
  unfold initForms. destruct (newsletterForm s); [| done].
  case_match; [| done].
  apply (updateNewsletterFormState_frame true (set_submit_listener true s)).
Qed.

(** [trackPageView] writes the visited flag on a profile that has none;
    whatever the environment, that is all it does to the state. *)
Lemma trackPageView_state (env : environment) (s : state) :
  fst (trackPageView env s)
  = if truthy (localStorage s !! CONFIG_storage_visitedBefore) then s
    else set_localStorage
           (<[CONFIG_storage_visitedBefore := "true"]> (localStorage s)) s.
Proof. unfold trackPageView. cbv zeta. by destruct (truthy _). Qed.

Lemma trackPageView_frame (env : environment) (s : state) :
  let s' := fst (trackPageView env s) in
  body s' = body s
  ∧ timers s' = timers s
  ∧ now s' = now s
  ∧ data_theme s' = data_theme s
  ∧ themeToggle s' = themeToggle s
  ∧ newsletterForm s' = newsletterForm s
  ∧ (∀ k, k ≠ CONFIG_storage_visitedBefore →
       localStorage s' !! k = localStorage s !! k).
Proof.
  cbv zeta. rewrite trackPageView_state. destruct (truthy _); [done |].
  repeat split. intros k Hk. simpl. by rewrite lookup_insert_ne.
Qed.

(** [init] on a page whose [initTheme] completes. *)
Lemma init_steps (s : state) :
  init s
  = (let (s1, c) := initTheme s in
     match c with
     | Throw e => (s1, Throw e)
     | Normal =>
         (if truthy (localStorage (initForms s1) !! CONFIG_storage_visitedBefore)
          then initForms s1
          else set_localStorage
                 (<[CONFIG_storage_visitedBefore := "true"]>
                    (localStorage (initForms s1))) (initForms s1),
          Normal)
     end).
Proof.
  unfold init. destruct (initTheme s) as [s1 [| e]]; [| done].
  cbv zeta. by rewrite trackPageView_state.
Qed.

Lemma init_quiet (s : state) : quiet s (fst (init s)).
Proof.
  rewrite init_steps. pose proof (initTheme_quiet s) as Hq.
  destruct (initTheme s) as [s1 [| e]]; simpl in *; [| done].
  eapply quiet_trans; [exact Hq |].
  destruct (initForms_frame s1) as (B & T & N & _).
  by destruct (truthy _); apply quiet_same.
Qed.

(** ** Toasts: [showToast], [hideToast] and the timer callbacks *)

Lemma showToast_frame (message : text) (type : toastType) (s : state) :
  let s' := fst (showToast message type s) in
  body s' = filter (λ n, is_toast n = false) (body s)
            ++ [Node (next_id s) ["toast"; type_class type] (Some "assertive")
                  (text_string message)]
  ∧ timers s' = timers s ++ [Timer (now s + 10) (ToastShow (next_id s));
                             Timer (now s + CONFIG_toast_duration)
                               (ToastAutoHide (next_id s))]
  ∧ now s' = now s
  ∧ localStorage s' = localStorage s
  ∧ newsletterForm s' = newsletterForm s
  ∧ snd (showToast message type s) = next_id s.
Proof. unfold showToast. simpl. unfold setTimeout. simpl. rewrite <- app_assoc. done. Qed.

Lemma is_toast_new (id : nat) (type message : string) (live : option string) :
  is_toast (Node id ["toast"; type] live message) = true.
Proof. unfold is_toast. apply bool_decide_eq_true_2. simpl. apply elem_of_cons. by left. Qed.

Lemma showToast_toast_ids (message : text) (type : toastType) (s : state) :
  toast_ids (fst (showToast message type s)) = [next_id s].
Proof.
  unfold toast_ids. destruct (showToast_frame message type s) as (-> & _).
  rewrite filter_app, toast_ids_removeExisting, filter_cons, is_toast_new.
  by case_decide.
Qed.

Lemma showToast_toast_inv (message : text) (type : toastType) (s : state) :
  toast_inv (fst (showToast message type s)).
Proof.
  unfold toast_inv. rewrite showToast_toast_ids. split; [done |].
  intros id ->%list_elem_of_singleton.
  destruct (showToast_frame message type s) as (_ & -> & _).
  exists (Timer (now s + CONFIG_toast_duration) (ToastAutoHide (next_id s))).
  split; [| by left]. rewrite elem_of_app, !elem_of_cons. tauto.
Qed.

Lemma hideToast_frame (id : nat) (s : state) :
  body (hideToast id s) = update_classList (classList_remove "show") id <$> body s
  ∧ timers (hideToast id s) = timers s ++ [Timer (now s + CONFIG_animations_normal) (ToastRemove id)]
  ∧ now (hideToast id s) = now s
  ∧ localStorage (hideToast id s) = localStorage s.
Proof. done. Qed.

Lemma hideToast_toast_ids (id : nat) (s : state) :
  toast_ids (hideToast id s) = toast_ids s.
Proof.
  unfold toast_ids. destruct (hideToast_frame id s) as (-> & _).
  apply toast_ids_update. intros n. apply is_toast_classList_remove_show.
Qed.

Lemma hideToast_toast_inv (id : nat) (s : state) : toast_inv s → toast_inv (hideToast id s).
Proof.
  intros [Hlen Hrem]. unfold toast_inv. rewrite hideToast_toast_ids.
  split; [done |]. intros id' Hid'.
  destruct (hideToast_frame id s) as (_ & -> & _). by apply removal_pending_app, Hrem.
Qed.

Lemma elem_of_delete_ne {A : Type} (l : list A) (i : nat) (x y : A) :
  x ∈ l → l !! i = Some y → x ≠ y → x ∈ delete i l.
Proof.
  intros Hx Hy Hne. apply list_elem_of_lookup in Hx as [j Hj].
  apply list_elem_of_lookup.
  destruct (decide (j < i)) as [Hlt | Hge].
  - exists j. by rewrite list_lookup_delete_lt.
  - assert (j ≠ i) by (intros ->; congruence).
    exists (pred j). rewrite list_lookup_delete_ge by lia.
    replace (S (pred j)) with j by lia. done.
Qed.

Lemma removal_pending_delete (id : nat) (l : list timer) (i : nat) (t : timer) :
  removal_pending id l → l !! i = Some t →
  timer_cb t ≠ ToastAutoHide id → timer_cb t ≠ ToastRemove id →
  removal_pending id (delete i l).
Proof.
  intros (t' & Hin & Hcb) Hi H1 H2. exists t'. split; [| done].
  eapply elem_of_delete_ne; [done.. |]. intros ->. tauto.
Qed.

Lemma toast_ids_has_parent (id : nat) (s : state) :
  id ∈ toast_ids s → has_parent id s = true.
Proof.
  unfold toast_ids, has_parent. intros (n & -> & Hn)%list_elem_of_fmap.
  apply list_elem_of_filter in Hn as [_ Hn]. apply bool_decide_eq_true_2.
  apply list_elem_of_fmap. eauto.
Qed.

Lemma removeChild_toast_ids (id : nat) (s : state) :
  toast_ids (removeChild id s) = filter (λ i, i ≠ id) (toast_ids s).
Proof. unfold toast_ids, removeChild. simpl. apply toast_ids_remove. Qed.

(** A state whose toasts are among those of a state with the invariant,
    each with its removal still pending, has the invariant. *)
Lemma toast_inv_shrink (s s' : state) :
  toast_inv s →
  length (toast_ids s') ≤ length (toast_ids s) →
  (∀ id, id ∈ toast_ids s' →
     id ∈ toast_ids s ∧ (removal_pending id (timers s) → removal_pending id (timers s'))) →
  toast_inv s'.
Proof.
  intros [Hlen Hrem] Hle Hsub. split; [lia |].
  intros id Hid. destruct (Hsub id Hid) as [Hin Hkeep]. by apply Hkeep, Hrem.
Qed.

Lemma toast_inv_same (s s' : state) :
  body s' = body s → timers s' = timers s → toast_inv s → toast_inv s'.
Proof. unfold toast_inv, toast_ids. by intros -> ->. Qed.

Lemma handleNewsletterSubmit_resume_frame (email : jsstring) (res : apiResult) (s : state) :
  let s' := handleNewsletterSubmit_resume email res s in
  let shown := fst (showToast (fst (outcome_toast res)) (snd (outcome_toast res)) s) in
  body s' = body shown
  ∧ timers s' = timers shown
  ∧ now s' = now s
  ∧ localStorage s' =
      match res with
      | Resolved _ _ => <[CONFIG_storage_newsletterSubscribed := "true"]> (localStorage s)
      | Rejected _ => localStorage s
      end.
Proof.
  unfold handleNewsletterSubmit_resume.
  destruct res as [ok data | err]; cbv zeta;
    match goal with |- context [update_submit ?f ?x] =>
      destruct (update_submit_frame f x) as (-> & -> & -> & ->) end.
  - match goal with |- context [form_reset ?x] =>
      destruct (form_reset_frame x) as (-> & -> & -> & ->) end.
    match goal with |- context [updateNewsletterFormState ?b ?x] =>
      destruct (updateNewsletterFormState_frame b x) as (-> & -> & -> & ->) end.
    done.
  - done.
Qed.

Lemma run_callback_toast_inv (s : state) (i : nat) (t : timer) (random : Q) :
  toast_inv s → timers s !! i = Some t →
  toast_inv (run_callback (timer_cb t) random (set_timers (delete i (timers s)) s)).
Proof.
  intros Hinv Hi. set (s0 := set_timers (delete i (timers s)) s).
  assert (Hids : toast_ids s0 = toast_ids s) by done.
  assert (Hkeep : ∀ id, timer_cb t ≠ ToastAutoHide id → timer_cb t ≠ ToastRemove id →
                        removal_pending id (timers s) → removal_pending id (timers s0)).
  { intros id H1 H2 Hp. by eapply removal_pending_delete. }
  destruct (timer_cb t) as [id | id | id | id | endpoint data k] eqn:Hcb; simpl.
  - apply (toast_inv_shrink s); [done | |].
    + unfold toast_ids at 1. simpl.
      rewrite toast_ids_update by apply is_toast_classList_add_show. done.
    + intros id'. unfold toast_ids at 1. simpl.
      rewrite toast_ids_update by apply is_toast_classList_add_show.
      intros Hin. split; [done |]. by apply Hkeep.
  - destruct (has_parent id s0) eqn:Hp.
    + apply (toast_inv_shrink s); [done | by rewrite hideToast_toast_ids |].
      intros id'. rewrite hideToast_toast_ids, Hids. intros Hin. split; [done |].
      intros Hpend. destruct (hideToast_frame id s0) as (_ & -> & _).
      destruct (decide (id' = id)) as [-> | Hne].
      * exists (Timer (now s0 + CONFIG_animations_normal) (ToastRemove id)).
        split; [| by right]. rewrite elem_of_app, list_elem_of_singleton. by right.
      * apply removal_pending_app, Hkeep; [congruence | congruence | done].
    + apply (toast_inv_shrink s); [done | by rewrite Hids |].
      intros id'. rewrite Hids. intros Hin. split; [done |].
      apply Hkeep; [| congruence]. intros [= <-].
      apply toast_ids_has_parent in Hin. unfold has_parent in *. simpl in *. congruence.
  - destruct (has_parent id s0) eqn:Hp.
    + apply (toast_inv_shrink s); [done | |].
      * rewrite removeChild_toast_ids, Hids. apply length_filter.
      * intros id'. rewrite removeChild_toast_ids, Hids.
        intros [Hne Hin]%list_elem_of_filter. split; [done |].
        apply Hkeep; congruence.
    + apply (toast_inv_shrink s); [done | by rewrite Hids |].
      intros id'. rewrite Hids. intros Hin. split; [done |].
      apply Hkeep; [congruence |]. intros [= <-].
      apply toast_ids_has_parent in Hin. unfold has_parent in *. simpl in *. congruence.
  - assert (Hrest : ∀ id', removal_pending id' (timers s) → removal_pending id' (timers s0))
      by (intros id'; apply Hkeep; congruence).
    destruct (has_parent id s0) eqn:Hp.
    + apply (toast_inv_shrink s); [done | |].
      * rewrite removeChild_toast_ids, Hids. apply length_filter.
      * intros id'. rewrite removeChild_toast_ids, Hids.
        intros [Hne Hin]%list_elem_of_filter. split; [done |]. apply Hrest.
    + apply (toast_inv_shrink s); [done | by rewrite Hids |].
      intros id'. rewrite Hids. intros Hin. split; [done |]. apply Hrest.
  - destruct k as [email]. simpl.
    destruct (handleNewsletterSubmit_resume_frame email (api_settle random data) s0)
      as (B & T & _).
    eapply toast_inv_same; [exact B | exact T |]. apply showToast_toast_inv.
Qed.

Lemma handleNewsletterSubmit_toast_inv (s : state) :
  toast_inv s → toast_inv (handleNewsletterSubmit s).
Proof.
  intros Hinv. unfold handleNewsletterSubmit.
  destruct (newsletterForm s) as [fm |]; [| done].
  destruct (isValidEmail (trim (value (form_email fm)))); cbn [negb]; cbv zeta.
  - match goal with |- context [update_submit ?f ?x] =>
      destruct (update_submit_frame f x) as (B & T & N & _) end.
    apply (quiet_toast_inv s); [| done].
    repeat split; [exists []; by rewrite app_nil_r | | done].
    unfold simulateAPICall, setTimeout. simpl. rewrite T. by eexists.
  - match goal with |- context [focus_emailInput ?x] =>
      destruct (focus_emailInput_frame x) as (B & T & _) end.
    eapply toast_inv_same; [exact B | exact T |]. apply showToast_toast_inv.
Qed.

Lemma step_toast_inv (ev : event) (s s' : state) :
  toast_inv s → step ev s = Some s' → toast_inv s'.
Proof.
  intros Hinv Hstep. destruct ev; simpl in Hstep.
  - injection Hstep as <-. eapply quiet_toast_inv; [apply init_quiet | done].
  - injection Hstep as <-. case_match.
    + eapply quiet_toast_inv; [apply onSystemThemeChange_quiet |].
      by apply (toast_inv_same s).
    + by apply (toast_inv_same s).
  - injection Hstep as <-. eapply quiet_toast_inv; [apply toggleTheme_quiet | done].
  - injection Hstep as <-. eapply quiet_toast_inv; [apply setTheme_quiet | done].
  - injection Hstep as <-. apply showToast_toast_inv.
  - injection Hstep as <-. by apply hideToast_toast_inv.
  - destruct (newsletterForm s) as [fm |]; [| done].
    destruct (input_disabled (form_email fm)); [done |].
    injection Hstep as <-. by apply (toast_inv_same s).
  - case_match; [| done]. injection Hstep as <-.
    by apply handleNewsletterSubmit_toast_inv.
  - case_match; [| done]. injection Hstep as <-. by apply (toast_inv_same s).
  - destruct (timers s !! i) as [t |] eqn:Hi; [| done].
    case_match; [| done]. injection Hstep as <-. by apply run_callback_toast_inv.
Qed.

Lemma run_toast_inv (evs : list event) (s s' : state) :
  toast_inv s → run evs s = Some s' → toast_inv s'.
Proof.
  revert s. induction evs as [| ev evs IH]; intros s Hinv Hrun; simpl in Hrun.
  - by injection Hrun as <-.
  - destruct (step ev s) as [s1 |] eqn:Hstep; [| done].
    eapply IH; [| exact Hrun]. by eapply step_toast_inv.
Qed.

(** C3, where the code keeps it.  [showToast] splices its message into the
    markup of the toast, so a message with markup in it can leave the
    document with a second element of class [toast] inside the first, or
    with a toast that has no timer to hide it (see [text]): there the code
    departs from the claim.  For the messages free of markup the claim
    holds.  After a call of [showToast], from any state of the page, the
    document holds exactly one toast; and whatever happens next (further
    calls of [showToast], in immediate succession or while an earlier toast
    is being hidden, clicks on the close button, timers that fire in any
    order, the other handlers), it holds at most one toast, and that toast
    has a pending timer that hides or removes it. *)
Theorem showToast_at_most_one_toast (message : text) (type : toastType) (s : state) :
  let s1 := fst (showToast message type s) in
  toast_count s1 = 1
  ∧ toasts_have_removal s1
  ∧ (∀ message' type', toast_count (fst (showToast message' type' s1)) = 1)
  ∧ (∀ evs s', run evs s1 = Some s' → toast_count s' ≤ 1 ∧ toasts_have_removal s').
Proof.
  cbv zeta. pose proof (showToast_toast_inv message type s) as Hinv.
  split; [| split; [| split]].
  - by rewrite toast_count_ids, showToast_toast_ids.
  - by apply toast_inv_iff in Hinv as [_ ?].
  - intros m' t'. by rewrite toast_count_ids, showToast_toast_ids.
  - intros evs s' Hrun. apply toast_inv_iff. by eapply run_toast_inv.
Qed.

Lemma showToast_run_witness :
  ∃ s', run [CallShowToast (txt "second") Success; Elapse 5000; Fire 3 0%Q;
             CallShowToast (txt "third") Info; Elapse 300; Fire 3 0%Q]
            (fst (showToast (txt "first") Info first_visit)) = Some s'
        ∧ toast_count s' ≤ 1.
Proof.
  destruct (showToast_at_most_one_toast (txt "first") Info first_visit) as (_ & _ & _ & H).
  match goal with |- ∃ s', ?r = Some s' ∧ _ => destruct r as [s' |] eqn:E end.
  - exists s'. split; [reflexivity |]. exact (proj1 (H _ _ E)).
  - vm_compute in E. discriminate E.
Defined.

(** ** The newsletter form *)

Lemma showToast_toasts (message : text) (type : toastType) (s : state) :
  toasts (fst (showToast message type s))
  = [Node (next_id s) ["toast"; type_class type] (Some "assertive")
       (text_string message)].
Proof.
  unfold toasts. destruct (showToast_frame message type s) as (-> & _).
  rewrite filter_app, toast_ids_removeExisting, filter_cons, is_toast_new.
  by case_decide.
Qed.

Lemma api_settle_success (random : Q) (data : payload) :
  (success_threshold < random)%Q → api_settle random data = Resolved true data.
Proof.
  intros Hlt. unfold api_settle.
  destruct (Qle_bool random success_threshold) eqn:Hle; [| done].
  apply Qle_bool_iff in Hle. exfalso. by eapply Qlt_not_le.
Qed.

Lemma api_settle_failure (random : Q) (data : payload) :
  ¬ (success_threshold < random)%Q → api_settle random data = Rejected "API request failed".
Proof.
  intros Hnlt. unfold api_settle.
  destruct (Qle_bool random success_threshold) eqn:Hle; [done |].
  exfalso. apply Hnlt. apply Qnot_le_lt. intros H. apply Qle_bool_iff in H. congruence.
Qed.

(** C5: when the trimmed value of the email input fails [isValidEmail],
    [handleNewsletterSubmit] shows the toast "Please enter a valid email
    address" of kind error and returns: the only timers it adds are the two
    of that toast, so no call of [simulateAPICall] is pending that was not
    before; local storage (the subscribed flag with it) and the form are
    as they were. *)
Theorem invalid_email_toast_and_no_api_call (s : state) (fm : form) :
  newsletterForm s = Some fm →
  isValidEmail (trim (value (form_email fm))) = false →
  let s' := handleNewsletterSubmit s in
  toasts s' = [Node (next_id s) ["toast"; "error"] (Some "assertive")
                 "Please enter a valid email address"]
  ∧ timers s' = timers s ++ [Timer (now s + 10) (ToastShow (next_id s));
                             Timer (now s + 5000) (ToastAutoHide (next_id s))]
  ∧ api_calls s' = api_calls s
  ∧ localStorage s' = localStorage s
  ∧ newsletterForm s' = newsletterForm s.
Proof.
  intros Hfm Hbad. cbv zeta. unfold handleNewsletterSubmit. rewrite Hfm, Hbad. simpl negb.
  cbv iota zeta.
  set (shown := fst (showToast (txt "Please enter a valid email address") Error s)).
  destruct (focus_emailInput_frame shown) as (B & T & _ & L & F).
  destruct (showToast_frame (txt "Please enter a valid email address") Error s)
    as (_ & T' & _ & L' & F' & _). fold shown in T', L', F'.
  assert (Htimers : timers (focus_emailInput shown)
                    = timers s ++ [Timer (now s + 10) (ToastShow (next_id s));
                                   Timer (now s + 5000) (ToastAutoHide (next_id s))])
    by (rewrite T, T'; done).
  split; [| split; [| split; [| split]]].
  - unfold toasts. rewrite B. apply showToast_toasts.
  - exact Htimers.
  - unfold api_calls. rewrite Htimers, filter_app. simpl. by rewrite app_nil_r.
  - congruence.
  - congruence.
Qed.

Lemma invalid_email_witness :
  let s := set_newsletterForm
             (Some (Form (EmailInput (units "  not-an-email ") [] "Enter your email" false)
                      (form_submit sample_form))) first_visit in
  api_calls (handleNewsletterSubmit s) = []
  ∧ shows_toast "Please enter a valid email address" "error" (handleNewsletterSubmit s).
Proof.
  cbv zeta.
  match goal with |- context [handleNewsletterSubmit ?x] => set (s := x) end.
  destruct (invalid_email_toast_and_no_api_call s
              (Form (EmailInput (units "  not-an-email ") [] "Enter your email" false)
                 (form_submit sample_form)) eq_refl eq_refl)
    as (Ht & _ & Ha & _).
  split; [exact Ha | by eexists].
Defined.

Lemma resume_outcome (email : jsstring) (res : apiResult) (s : state) :
  let s' := handleNewsletterSubmit_resume email res s in
  match res with
  | Resolved _ _ => success_outcome s s'
  | Rejected _ => failure_outcome s s'
  end.
Proof.
  cbv zeta. destruct (handleNewsletterSubmit_resume_frame email res s) as (B & _ & _ & L).
  destruct res as [ok data | err]; cbn [outcome_toast fst snd] in *.
  - split; [| done]. exists (next_id s). unfold toasts. rewrite B. apply showToast_toasts.
  - split; [| done]. exists (next_id s). unfold toasts. rewrite B. apply showToast_toasts.
Qed.

Lemma outcomes_exclusive (s s' : state) : ¬ (success_outcome s s' ∧ failure_outcome s s').
Proof.
  intros [[[id1 H1] _] [[id2 H2] _]]. rewrite H1 in H2. discriminate.
Qed.

(** Once [d] ms have passed, the timer scheduled last can fire. *)
Lemma fire_after_delay (s : state) (l : list timer) (t : timer) (d : Z) (random : Q) :
  (0 ≤ d)%Z → timers s = l ++ [t] → (due t ≤ now s + d)%Z →
  run [Elapse d; Fire (length l) random] s
  = Some (run_callback (timer_cb t) random (set_timers l (set_now (now s + d) s))).
Proof.
  intros Hd Ht Hdue. unfold run, step.
  rewrite (proj2 (Z.leb_le 0 d) Hd). simpl timers. simpl now. rewrite Ht.
  rewrite lookup_app_r, Nat.sub_diag by done. simpl.
  rewrite (proj2 (Z.leb_le _ _) Hdue).
  by rewrite delete_middle, app_nil_r.
Qed.

(** C4: a submission whose trimmed email passes [isValidEmail] shows no
    toast and stores nothing by itself; it marks the button as loading and
    schedules the one simulated call, which can settle once 1500 ms have
    passed.  When that call settles, in whatever state the page is then,
    exactly one of two things happens: the success
    toast is shown and the subscribed flag is stored, or the failure toast
    is shown and local storage is left as it was; the first when the draw is
    above the threshold, the second otherwise. *)
Theorem newsletter_submit_success_xor_failure (s : state) (fm : form) :
  newsletterForm s = Some fm →
  isValidEmail (trim (value (form_email fm))) = true →
  let email := trim (value (form_email fm)) in
  let call := ApiSettle CONFIG_api_newsletter (Payload email (now s)) (NewsletterAwait email) in
  let s1 := handleNewsletterSubmit s in
  (timers s1 = timers s ++ [Timer (now s + api_delay) call]
   ∧ body s1 = body s
   ∧ localStorage s1 = localStorage s)
  ∧ (∀ random : Q,
       run [Elapse api_delay; Fire (length (timers s)) random] s1
       = Some (run_callback call random
                 (set_timers (timers s) (set_now (now s + api_delay) s1))))
  ∧ ∀ (s2 : state) (random : Q),
      let s3 := run_callback call random s2 in
      (success_outcome s2 s3 ∨ failure_outcome s2 s3)
      ∧ ¬ (success_outcome s2 s3 ∧ failure_outcome s2 s3)
      ∧ (success_outcome s2 s3 ↔ (success_threshold < random)%Q)
      ∧ (failure_outcome s2 s3 ↔ ¬ (success_threshold < random)%Q).
Proof.
  intros Hfm Hok. cbv zeta.
  assert (Hs1 : handleNewsletterSubmit s
                = simulateAPICall CONFIG_api_newsletter
                    (Payload (trim (value (form_email fm))) (now s))
                    (NewsletterAwait (trim (value (form_email fm))))
                    (update_submit (setButtonLoading true) s)).
  { unfold handleNewsletterSubmit. rewrite Hfm, Hok. simpl negb. cbv iota zeta.
    unfold update_submit. by rewrite Hfm. }
  assert (Htimers : timers (handleNewsletterSubmit s)
                    = timers s ++ [Timer (now s + api_delay)
                        (ApiSettle CONFIG_api_newsletter
                           (Payload (trim (value (form_email fm))) (now s))
                           (NewsletterAwait (trim (value (form_email fm)))))]).
  { rewrite Hs1. unfold simulateAPICall, setTimeout, update_submit. by rewrite Hfm. }
  assert (Hnow : now (handleNewsletterSubmit s) = now s).
  { rewrite Hs1. unfold simulateAPICall, setTimeout, update_submit. by rewrite Hfm. }
  split; [| split].
  - split; [exact Htimers |].
    rewrite Hs1. unfold simulateAPICall, setTimeout, update_submit. by rewrite Hfm.
  - intros random.
    rewrite (fire_after_delay (handleNewsletterSubmit s) (timers s) _ api_delay random)
      by (try exact Htimers; rewrite ?Hnow; unfold api_delay; simpl; lia).
    by rewrite Hnow.
  - intros s2 random. simpl run_callback.
    set (email := trim (value (form_email fm))).
    set (data := Payload email (now s)).
    pose proof (resume_outcome email (api_settle random data) s2) as Hout.
    pose proof (outcomes_exclusive s2
                  (handleNewsletterSubmit_resume email (api_settle random data) s2)) as Hex.
    cbv zeta in Hout.
    destruct (Qlt_le_dec success_threshold random) as [Hlt | Hle].
    + rewrite (api_settle_success random data Hlt) in *. intuition.
    + assert (Hn : ¬ (success_threshold < random)%Q) by by apply Qle_not_lt.
      rewrite (api_settle_failure random data Hn) in *. intuition.
Qed.

Lemma newsletter_submit_witness :
  let s := set_newsletterForm
             (Some (Form (EmailInput (units "user@example.com") [] "Enter your email" false)
                      (form_submit sample_form))) first_visit in
  let s3 := run_callback
              (ApiSettle CONFIG_api_newsletter (Payload (units "user@example.com") 0)
                 (NewsletterAwait (units "user@example.com")))
              (1 # 2) (handleNewsletterSubmit s) in
  success_outcome (handleNewsletterSubmit s) s3
  ∧ ¬ failure_outcome (handleNewsletterSubmit s) s3.
Proof.
  cbv zeta.
  match goal with |- context [handleNewsletterSubmit ?x] => set (s := x) end.
  destruct (newsletter_submit_success_xor_failure s
              (Form (EmailInput (units "user@example.com") [] "Enter your email" false)
                 (form_submit sample_form)) eq_refl eq_refl)
    as (_ & _ & H).
  destruct (H (handleNewsletterSubmit s) (1 # 2)%Q) as (_ & _ & [_ Hs] & [Hf _]).
  split.
  - apply Hs. reflexivity.
  - intros Hfail. apply (Hf Hfail). reflexivity.
Defined.

(** ** Timers stay pending until they are due *)

Lemma grows_same (s s' : state) : timers s' = timers s → now s' = now s → grows s s'.
Proof. intros Ht Hn. split; [| done]. exists []. by rewrite app_nil_r. Qed.

Lemma grows_trans (s1 s2 s3 : state) : grows s1 s2 → grows s2 s3 → grows s1 s3.
Proof.
  intros [[l1 T1] N1] [[l2 T2] N2]. split; [| congruence].
  exists (l1 ++ l2). by rewrite T2, T1, app_assoc.
Qed.

Lemma quiet_grows (s s' : state) : quiet s s' → grows s s'.
Proof. by intros (_ & T & N). Qed.

Lemma showToast_grows (message : text) (type : toastType) (s : state) :
  grows s (fst (showToast message type s)).
Proof.
  destruct (showToast_frame message type s) as (_ & T & N & _).
  split; [by eexists | done].
Qed.

Lemma hideToast_grows (id : nat) (s : state) : grows s (hideToast id s).
Proof. split; [by eexists | done]. Qed.

Lemma handleNewsletterSubmit_grows (s : state) : grows s (handleNewsletterSubmit s).
Proof.
  unfold handleNewsletterSubmit. destruct (newsletterForm s) as [fm |] eqn:Hfm;
    [| by apply grows_same].
  destruct (isValidEmail (trim (value (form_email fm)))); cbn [negb]; cbv zeta.
  - unfold simulateAPICall, setTimeout, update_submit. rewrite Hfm. simpl.
    split; [by eexists | done].
  - match goal with |- context [focus_emailInput ?x] =>
      destruct (focus_emailInput_frame x) as (_ & T & N & _);
      apply (grows_trans s x); [apply showToast_grows | by apply grows_same] end.
Qed.

Lemma run_callback_grows (cb : callback) (random : Q) (s : state) :
  grows s (run_callback cb random s).
Proof.
  destruct cb as [id | id | id | id | endpoint data k]; simpl.
  - by apply grows_same.
  - case_match; [apply hideToast_grows | by apply grows_same].
  - case_match; by apply grows_same.
  - case_match; by apply grows_same.
  - destruct k as [email]. cbn [resume].
    destruct (handleNewsletterSubmit_resume_frame email (api_settle random data) s)
      as (_ & T & N & _).
    eapply grows_trans; [apply showToast_grows |]. apply grows_same; [exact T |].
    rewrite N. symmetry. apply showToast_frame.
Qed.

Lemma grows_pending (s s' : state) (t : timer) :
  grows s s' → (now s ≤ now s')%Z ∧ (t ∈ timers s → t ∈ timers s').
Proof.
  intros [[l T] N]. split; [lia |]. rewrite T, elem_of_app. by left.
Qed.

Lemma step_pending (ev : event) (s s' : state) (t : timer) :
  step ev s = Some s' →
  (now s ≤ now s')%Z ∧ (t ∈ timers s → (now s' < due t)%Z → t ∈ timers s').
Proof.
  intros Hstep.
  assert (Hg : grows s s' → (now s ≤ now s')%Z
                 ∧ (t ∈ timers s → (now s' < due t)%Z → t ∈ timers s')).
  { intros Hgr. destruct (grows_pending s s' t Hgr). by split; auto. }
  destruct ev; simpl in Hstep.
  - injection Hstep as <-. apply Hg, quiet_grows, init_quiet.
  - injection Hstep as <-. apply Hg. case_match; [| by apply grows_same].
    eapply grows_trans; [| apply quiet_grows, onSystemThemeChange_quiet].
    by apply grows_same.
  - injection Hstep as <-. apply Hg, quiet_grows, toggleTheme_quiet.
  - injection Hstep as <-. apply Hg, quiet_grows, setTheme_quiet.
  - injection Hstep as <-. apply Hg, showToast_grows.
  - injection Hstep as <-. apply Hg, hideToast_grows.
  - destruct (newsletterForm s) as [fm |]; [| done].
    destruct (input_disabled (form_email fm)); [done |].
    injection Hstep as <-. apply Hg. by apply grows_same.
  - case_match; [| done]. injection Hstep as <-. apply Hg, handleNewsletterSubmit_grows.
  - destruct (0 <=? dt)%Z eqn:Hdt; [| done]. injection Hstep as <-. simpl.
    apply Z.leb_le in Hdt. split; [lia | done].
  - destruct (timers s !! i) as [t' |] eqn:Hi; [| done].
    destruct (due t' <=? now s)%Z eqn:Hdue; [| done]. injection Hstep as <-.
    apply Z.leb_le in Hdue.
    destruct (run_callback_grows (timer_cb t') random (set_timers (delete i (timers s)) s))
      as [[l T] N]. simpl in T, N.
    split; [lia |]. intros Hin Hlt. rewrite T, elem_of_app. left.
    eapply elem_of_delete_ne; [done.. |]. intros ->. lia.
Qed.

Lemma run_pending (evs : list event) (s s' : state) (t : timer) :
  run evs s = Some s' →
  (now s ≤ now s')%Z ∧ (t ∈ timers s → (now s' < due t)%Z → t ∈ timers s').
Proof.
  revert s. induction evs as [| ev evs IH]; intros s Hrun; simpl in Hrun.
  - injection Hrun as <-. split; [lia | done].
  - destruct (step ev s) as [s1 |] eqn:Hstep; [| done].
    destruct (step_pending ev s s1 t Hstep) as [N1 P1].
    destruct (IH s1 Hrun) as [N2 P2].
    split; [lia |]. intros Hin Hlt. apply P2; [| done]. apply P1; [done | lia].
Qed.

(** C9: [simulateAPICall] does nothing but schedule one timer, due 1500 ms
    after the call, whose callback settles the promise.  However the page
    runs, the timer is still pending (the promise is not settled) as long as
    the clock has not advanced by 1500 ms, and it cannot fire before.  When
    it fires with the draw [random], the promise resolves with
    [{success: true, data}] exactly when [random > 0.1] and is rejected with
    an error otherwise.  The threshold is the binary64 value of [0.1], just
    above one tenth, so the draws of [0, 1) that succeed fill an interval of
    length just below nine tenths. *)
Theorem simulateAPICall_delay_and_outcome
    (endpoint : string) (data : payload) (k : continuation) (s : state) :
  let call := Timer (now s + 1500) (ApiSettle endpoint data k) in
  let s1 := simulateAPICall endpoint data k s in
  s1 = set_timers (timers s ++ [call]) s
  ∧ (∀ evs s', run evs s1 = Some s' → (now s' < now s + 1500)%Z → call ∈ timers s')
  ∧ (∀ s' i random, timers s' !! i = Some call → (now s' < now s + 1500)%Z →
       step (Fire i random) s' = None)
  ∧ (∀ s' random, run_callback (timer_cb call) random s'
                  = resume k (api_settle random data) s')
  ∧ (∀ random, api_settle random data = Resolved true data ↔ (success_threshold < random)%Q)
  ∧ (∀ random, api_settle random data = Rejected "API request failed"
               ↔ ¬ (success_threshold < random)%Q)
  ∧ (1 # 10 < success_threshold)%Q
  ∧ ((9 # 10) - (1 # 100000000000000000) < 1 - success_threshold)%Q
  ∧ (1 - success_threshold < 9 # 10)%Q.
Proof.
  cbv zeta. split; [reflexivity |]. split; [| split; [| split; [| split; [| split]]]].
  - intros evs s' Hrun Hlt.
    destruct (run_pending evs (simulateAPICall endpoint data k s) s'
                (Timer (now s + 1500) (ApiSettle endpoint data k)) Hrun) as [_ P].
    apply P; [| done]. unfold simulateAPICall, setTimeout. simpl.
    rewrite elem_of_app, list_elem_of_singleton. by right.
  - intros s' i random Hi Hlt. simpl. rewrite Hi. simpl.
    destruct (now s + 1500 <=? now s')%Z eqn:Hle; [| done].
    apply Z.leb_le in Hle. lia.
  - done.
  - intros random. split.
    + intros H. destruct (Qlt_le_dec success_threshold random) as [| Hle]; [done |].
      rewrite api_settle_failure in H by by apply Qle_not_lt. discriminate.
    + apply api_settle_success.
  - intros random. split.
    + intros H Hlt. rewrite api_settle_success in H by done. discriminate.
    + apply api_settle_failure.
  - repeat split; reflexivity.
Qed.

Lemma simulateAPICall_not_before_delay_witness :
  step (Fire 0 (1 # 2)%Q)
    (set_now 1499
       (simulateAPICall CONFIG_api_newsletter (Payload [] 0) (NewsletterAwait []) first_visit))
  = None.
Proof.
  destruct (simulateAPICall_delay_and_outcome CONFIG_api_newsletter (Payload [] 0)
              (NewsletterAwait []) first_visit) as (_ & _ & H & _).
  apply H; reflexivity.
Defined.

(** ** An explicit choice of theme stays, a resolved theme too *)

Lemma same_theme_fields (s s' : state) :
  data_theme s' = data_theme s → localStorage s' = localStorage s → same_theme s s'.
Proof. intros Hd Hl. split; [done | by rewrite Hl]. Qed.

Lemma same_theme_is (t : string) (s s' : state) :
  same_theme s s' → theme_is t s → theme_is t s'.
Proof. intros [Hd Hl] [H1 H2]. split; congruence. Qed.

Lemma updateNewsletterFormState_data_theme (b : bool) (s : state) :
  data_theme (updateNewsletterFormState b s) = data_theme s.
Proof. unfold updateNewsletterFormState. by destruct (newsletterForm s), b. Qed.

Lemma update_submit_data_theme (f : submitBtn → submitBtn) (s : state) :
  data_theme (update_submit f s) = data_theme s.
Proof. unfold update_submit. by destruct (newsletterForm s). Qed.

Lemma form_reset_data_theme (s : state) : data_theme (form_reset s) = data_theme s.
Proof. unfold form_reset. by destruct (newsletterForm s). Qed.

Lemma focus_emailInput_data_theme (s : state) :
  data_theme (focus_emailInput s) = data_theme s.
Proof.
  unfold focus_emailInput. destruct (newsletterForm s) as [fm |]; [| done].
  by destruct (input_disabled (form_email fm)).
Qed.

Lemma initForms_same_theme (s : state) : same_theme s (initForms s).
Proof.
  apply same_theme_fields; [| apply initForms_frame].
  unfold initForms. destruct (newsletterForm s); [| done]. case_match; [| done].
  apply (updateNewsletterFormState_data_theme true (set_submit_listener true s)).
Qed.

Lemma handleNewsletterSubmit_same_theme (s : state) :
  same_theme s (handleNewsletterSubmit s).
Proof.
  unfold handleNewsletterSubmit. destruct (newsletterForm s) as [fm |] eqn:Hfm;
    [| by apply same_theme_fields].
  destruct (isValidEmail (trim (value (form_email fm)))); simpl.
  - apply same_theme_fields; unfold update_submit; by rewrite Hfm.
  - apply same_theme_fields.
    + by rewrite focus_emailInput_data_theme.
    + match goal with |- context [focus_emailInput ?x] =>
        destruct (focus_emailInput_frame x) as (_ & _ & _ & -> & _) end.
      done.
Qed.

Lemma handleNewsletterSubmit_resume_same_theme
    (email : jsstring) (res : apiResult) (s : state) :
  same_theme s (handleNewsletterSubmit_resume email res s).
Proof.
  split.
  - unfold handleNewsletterSubmit_resume. rewrite update_submit_data_theme.
    destruct res; [| done].
    by rewrite form_reset_data_theme, updateNewsletterFormState_data_theme.
  - destruct (handleNewsletterSubmit_resume_frame email res s) as (_ & _ & _ & ->).
    destruct res; [| done]. by rewrite lookup_insert_ne.
Qed.

Lemma run_callback_same_theme (cb : callback) (random : Q) (s : state) :
  same_theme s (run_callback cb random s).
Proof.
  destruct cb as [id | id | id | id | endpoint data k]; simpl.
  - by apply same_theme_fields.
  - case_match; by apply same_theme_fields.
  - case_match; by apply same_theme_fields.
  - case_match; by apply same_theme_fields.
  - destruct k as [email]. apply handleNewsletterSubmit_resume_same_theme.
Qed.

Lemma resolved_theme_stored (t : string) (s : state) :
  t = "light" ∨ t = "dark" →
  localStorage s !! CONFIG_storage_theme = Some t → resolved_theme s = t.
Proof. unfold resolved_theme. by intros [-> | ->] ->. Qed.

Lemma trackPageView_same_theme (env : environment) (s : state) :
  same_theme s (fst (trackPageView env s)).
Proof.
  destruct (trackPageView_frame env s) as (_ & _ & _ & D & _ & _ & L).
  split; [exact D | by apply L].
Qed.

Lemma init_theme_is (t : string) (s : state) :
  t = "light" ∨ t = "dark" → theme_is t s → theme_is t (fst (init s)).
Proof.
  intros Hv [_ Hl]. unfold init. destruct (initTheme_frame s) as [D L].
  rewrite (resolved_theme_stored t s Hv Hl) in D, L.
  assert (H1 : theme_is t (fst (initTheme s))).
  { split; [done |]. rewrite L. apply lookup_insert_eq. }
  destruct (initTheme s) as [s1 [| e]]; simpl in *; [| done].
  eapply same_theme_is; [apply trackPageView_same_theme |].
  eapply same_theme_is; [apply initForms_same_theme | done].
Qed.

Lemma step_theme_is (t : string) (ev : event) (s s' : state) :
  t = "light" ∨ t = "dark" → theme_is t s → is_theme_call ev = false →
  step ev s = Some s' → theme_is t s'.
Proof.
  intros Hv Ht Hev Hstep.
  assert (Hsame : same_theme s s' → theme_is t s') by (intros H; by eapply same_theme_is).
  destruct ev; try discriminate Hev; simpl in Hstep.
  - injection Hstep as <-. by apply init_theme_is.
  - injection Hstep as <-. apply Hsame. case_match; [| by apply same_theme_fields].
    unfold onSystemThemeChange. simpl. destruct Ht as [_ ->].
    destruct Hv as [-> | ->]; by apply same_theme_fields.
  - injection Hstep as <-. by apply Hsame, same_theme_fields.
  - injection Hstep as <-. by apply Hsame, same_theme_fields.
  - destruct (newsletterForm s) as [fm |]; [| done].
    destruct (input_disabled (form_email fm)); [done |].
    injection Hstep as <-. by apply Hsame, same_theme_fields.
  - case_match; [| done]. injection Hstep as <-.
    apply Hsame, handleNewsletterSubmit_same_theme.
  - case_match; [| done]. injection Hstep as <-. by apply Hsame, same_theme_fields.
  - destruct (timers s !! i) as [tm |]; [| done].
    case_match; [| done]. injection Hstep as <-.
    apply (same_theme_is t (set_timers (delete i (timers s)) s));
      [apply run_callback_same_theme | done].
Qed.

Lemma run_theme_is (t : string) (evs : list event) (s s' : state) :
  t = "light" ∨ t = "dark" → theme_is t s →
  Forall (λ ev, is_theme_call ev = false) evs →
  run evs s = Some s' → theme_is t s'.
Proof.
  intros Hv. revert s. induction evs as [| ev evs IH]; intros s Ht Hevs Hrun; simpl in Hrun.
  - by injection Hrun as <-.
  - destruct (step ev s) as [s1 |] eqn:Hstep; [| done].
    apply Forall_cons in Hevs as [Hev Hevs].
    apply (IH s1); [| done | done]. by apply (step_theme_is t ev s).
Qed.

Lemma toggleTheme_theme_is (s : state) :
  ∃ t, (t = "light" ∨ t = "dark") ∧ theme_is t (toggleTheme s).
Proof.
  destruct (toggleTheme_frame s) as [E1 E2]. simpl in *.
  exists (if decide (data_theme s = Some "dark") then "light" else "dark").
  split; [case_decide; auto |]. split; [done |]. rewrite E2. apply lookup_insert_eq.
Qed.

(** C6: from light or from dark, two calls of [toggleTheme] bring the
    active theme back; and after a call of [toggleTheme], from any state,
    the stored value is the theme that call has set, and stays so whatever
    happens until the theme is chosen again. *)
Theorem toggleTheme_twice_restores_and_persists (s : state) :
  (data_theme s = Some "light" \/ data_theme s = Some "dark" ->
   data_theme (toggleTheme (toggleTheme s)) = data_theme s)
  /\ localStorage (toggleTheme s) !! CONFIG_storage_theme = data_theme (toggleTheme s)
  /\ data_theme (toggleTheme s) =
       Some (if decide (data_theme s = Some "dark") then "light" else "dark")
  /\ (forall (evs : list event) (s' : state),
        Forall (fun ev => is_theme_call ev = false) evs ->
        run evs (toggleTheme s) = Some s' ->
        localStorage s' !! CONFIG_storage_theme = data_theme (toggleTheme s)).
Proof.
  destruct (toggleTheme_frame s) as [E1 E2].
  destruct (toggleTheme_frame (toggleTheme s)) as [F1 _]. simpl in *.
  split; [| split; [| split]].
  - rewrite F1, E1. intros [H | H]; rewrite H; reflexivity.
  - rewrite E2, E1. apply lookup_insert_eq.
  - exact E1.
  - intros evs s' Hevs Hrun. destruct (toggleTheme_theme_is s) as (t & Hv & Ht).
    destruct (run_theme_is t evs _ s' Hv Ht Hevs Hrun) as [_ ->]. by destruct Ht as [-> _].
Qed.

Lemma toggleTheme_twice_witness :
  data_theme (toggleTheme (toggleTheme (set_data_theme (Some "dark") first_visit)))
  = Some "dark".
Proof.
  apply (toggleTheme_twice_restores_and_persists
           (set_data_theme (Some "dark") first_visit)).
  right. reflexivity.
Defined.

Lemma init_resolved_theme_is (s : state) : theme_is (resolved_theme s) (fst (init s)).
Proof.
  unfold init. destruct (initTheme_frame s) as [D L].
  assert (H1 : theme_is (resolved_theme s) (fst (initTheme s))).
  { split; [done |]. rewrite L. apply lookup_insert_eq. }
  destruct (initTheme s) as [s1 [| e]]; simpl in *; [| done].
  eapply same_theme_is; [apply trackPageView_same_theme |].
  eapply same_theme_is; [apply initForms_same_theme | done].
Qed.

(** C1, at the input where the code departs from it: on a first visit with
    nothing stored and a system that prefers light, [init] runs and then the
    system switches to dark.  The active theme stays light: [initTheme] has
    stored the theme it resolved, so its own listener takes the stored value
    for a choice of the user and does nothing, here and after every load:
    once [init] has run, no sequence of events without an explicit choice
    of theme changes the active theme, however the system's preference
    changes.
    The other half of the claim holds: after [toggleTheme] the active theme
    stays what the user chose through every change of the system's
    preference, and through every other event that is no choice of theme. *)
Theorem system_change_after_load_is_ignored :
  (exists s', run [CallInit; SystemThemeChange true] first_visit = Some s'
     /\ theme_listener s' = true /\ prefers_dark s' = true
     /\ data_theme s' = Some "light")
  /\ (forall (s : state) (e_matches : bool),
        data_theme (onSystemThemeChange e_matches (fst (initTheme s)))
        = data_theme (fst (initTheme s)))
  /\ (forall (s : state) (evs : list event) (s' : state),
        Forall (fun ev => is_theme_call ev = false) evs ->
        run evs (fst (init s)) = Some s' ->
        data_theme s' = data_theme (fst (init s)))
  /\ (forall (s : state) (evs : list event) (s' : state),
        Forall (fun ev => is_theme_call ev = false) evs ->
        run evs (toggleTheme s) = Some s' ->
        data_theme s' = data_theme (toggleTheme s)).
Proof.
  split; [| split; [| split]].
  - eexists. split; [reflexivity |]. by vm_compute.
  - intros s m. by rewrite onSystemThemeChange_after_initTheme.
  - intros s evs s' Hevs Hrun. pose proof (init_resolved_theme_is s) as Ht.
    destruct (run_theme_is _ evs _ s' (resolved_theme_valid s) Ht Hevs Hrun) as [-> _].
    by destruct Ht as [-> _].
  - intros s evs s' Hevs Hrun. destruct (toggleTheme_theme_is s) as (t & Hv & Ht).
    destruct (run_theme_is t evs _ s' Hv Ht Hevs Hrun) as [-> _]. by destruct Ht as [-> _].
Qed.

(** C7, at the input where the code departs from it: a first visit with
    nothing stored and a system that prefers light; [init] runs, the user
    chooses no theme, and the page is loaded again when the system prefers
    dark.  No explicit preference is stored, yet the active theme is light
    and not what the system reports: [initTheme] takes the value that
    [setTheme] stored at the first load for a preference.  So it is after
    every first load: whatever happens in between that is no choice of
    theme, every later load resolves to the theme of the first load,
    whatever the system then prefers.  This is the defect of C1 and C2.
    The rest of the claim holds: with nothing stored the active theme is
    what the system reports, and after [toggleTheme] every later load
    resolves to the theme the user chose. *)
Theorem initTheme_later_load_ignores_system_preference :
  (∃ s1, run [CallInit; Elapse 60000] first_visit = Some s1
     ∧ prefers_dark (later_load first_visit s1 true) = true
     ∧ data_theme (fst (initTheme (later_load first_visit s1 true))) = Some "light")
  ∧ (∀ (s : state) (evs : list event) (s1 page : state) (dark : bool),
       Forall (λ ev, is_theme_call ev = false) evs →
       run evs (fst (init s)) = Some s1 →
       data_theme (fst (initTheme (later_load page s1 dark))) = data_theme (fst (init s)))
  ∧ (∀ s : state,
       localStorage s !! CONFIG_storage_theme = None →
       data_theme (fst (initTheme s)) = Some (if prefers_dark s then "dark" else "light"))
  ∧ (∀ (s : state) (evs : list event) (s1 page : state) (dark : bool),
       Forall (λ ev, is_theme_call ev = false) evs →
       run evs (toggleTheme s) = Some s1 →
       data_theme (fst (initTheme (later_load page s1 dark))) = data_theme (toggleTheme s)).
Proof.
  assert (Hload : ∀ (t : string) (s0 s1 page : state) (dark : bool),
            t = "light" ∨ t = "dark" → theme_is t s0 → theme_is t s1 →
            data_theme (fst (initTheme (later_load page s1 dark))) = data_theme s0).
  { intros t s0 s1 page dark Hv [D0 _] [_ L1].
    destruct (initTheme_frame (later_load page s1 dark)) as [-> _].
    rewrite D0. f_equal. by apply resolved_theme_stored. }
  split; [| split; [| split]].
  - eexists. split; [reflexivity |]. by vm_compute.
  - intros s evs s1 page dark Hevs Hrun. pose proof (init_resolved_theme_is s) as Ht.
    pose proof (run_theme_is _ evs _ s1 (resolved_theme_valid s) Ht Hevs Hrun) as Ht1.
    by apply (Hload (resolved_theme s)); [apply resolved_theme_valid | |].
  - intros s Hnone. destruct (initTheme_frame s) as [-> _]. unfold resolved_theme.
    rewrite Hnone. simpl. by destruct (prefers_dark s).
  - intros s evs s1 page dark Hevs Hrun. destruct (toggleTheme_theme_is s) as (t & Hv & Ht).
    pose proof (run_theme_is t evs _ s1 Hv Ht Hevs Hrun) as Ht1.
    by apply (Hload t).
Qed.

(** ** The stored preference and the active theme agree *)

Lemma step_theme_in_sync (ev : event) (s s' : state) :
  theme_in_sync s → step ev s = Some s' → theme_in_sync s'.
Proof.
  intros (t & Hv & Ht) Hstep.
  destruct (is_theme_call ev) eqn:Hev.
  - destruct ev; try discriminate Hev; simpl in Hstep; injection Hstep as <-.
    + apply toggleTheme_theme_is.
    + destruct (decide (theme = "light")) as [Hl | Hl];
        [| destruct (decide (theme = "dark")) as [Hd | Hd]].
      3: { rewrite setTheme_invalid by done. by exists t. }
      all: exists theme; split; [by auto |].
      all: destruct (setTheme_valid theme s) as (D & L & _); [by auto |].
      all: split; [done |]; rewrite L; apply lookup_insert_eq.
  - exists t. split; [done |]. by apply (step_theme_is t ev s).
Qed.

(** X2: the stored preference never departs from the theme on display.
    From the moment [init] has run (also when it ends with an exception),
    through every sequence of events, choices of theme through
    [toggleTheme] and [setTheme] included, with valid or invalid values,
    the active theme is light or dark and the stored preference is that
    same value: an invalid value is neither applied nor stored, and no
    handler changes the one without the other. *)
Theorem stored_theme_matches_active_theme (s : state) (evs : list event) (s' : state) :
  run evs (fst (init s)) = Some s' →
  ∃ t, (t = "light" ∨ t = "dark")
       ∧ data_theme s' = Some t
       ∧ localStorage s' !! CONFIG_storage_theme = Some t.
Proof.
  intros Hrun.
  assert (H0 : theme_in_sync (fst (init s))).
  { exists (resolved_theme s). split; [apply resolved_theme_valid |].
    apply init_resolved_theme_is. }
  revert H0 Hrun. generalize (fst (init s)).
  induction evs as [| ev evs IH]; intros s0 H0 Hrun; simpl in Hrun.
  - injection Hrun as <-. destruct H0 as (t & Hv & D & L). by exists t.
  - destruct (step ev s0) as [s1 |] eqn:Hstep; [| done].
    apply (IH s1); [| done]. by apply (step_theme_in_sync ev s0).
Qed.

Lemma stored_theme_matches_witness :
  ∃ s', run [CallSetTheme "blue"; CallToggleTheme; SystemThemeChange false;
             CallSetTheme ""; CallInit]
          (fst (init first_visit)) = Some s'
        ∧ data_theme s' = Some "dark"
        ∧ localStorage s' !! CONFIG_storage_theme = Some "dark".
Proof.
  match goal with |- ∃ s', ?r = Some s' ∧ _ => destruct r as [s' |] eqn:E end.
  - exists s'. split; [reflexivity |].
    destruct (stored_theme_matches_active_theme _ _ _ E) as (t & _ & D & L).
    assert (Ht : data_theme s' = Some "dark")
      by (vm_compute in E; injection E as <-; reflexivity).
    rewrite Ht in D. injection D as <-. by split.
  - vm_compute in E. discriminate E.
Defined.

(** ** Local storage only grows, and other properties of the script *)

Lemma keeps_keys_same (s s' : state) : localStorage s' = localStorage s → keeps_keys s s'.
Proof. intros E k. by rewrite E. Qed.

Lemma keeps_keys_insert (s s' : state) (k : string) (v : string) :
  localStorage s' = <[k := v]> (localStorage s) → keeps_keys s s'.
Proof.
  intros E k' Hk'. rewrite E. destruct (decide (k = k')) as [-> | Hne].
  - rewrite lookup_insert_eq. by eexists.
  - by rewrite lookup_insert_ne.
Qed.

Lemma keeps_keys_trans (s1 s2 s3 : state) :
  keeps_keys s1 s2 → keeps_keys s2 s3 → keeps_keys s1 s3.
Proof. intros H1 H2 k Hk. by apply H2, H1. Qed.

Lemma setTheme_keeps_keys (theme : string) (s : state) : keeps_keys s (setTheme theme s).
Proof.
  destruct (decide (theme = "light")) as [Hl | Hl];
    [| destruct (decide (theme = "dark")) as [Hd | Hd]].
  3: { rewrite setTheme_invalid by done. by apply keeps_keys_same. }
  all: destruct (setTheme_valid theme s) as (_ & L & _); [by auto |].
  all: by eapply keeps_keys_insert.
Qed.

Lemma trackPageView_keeps_keys (env : environment) (s : state) :
  keeps_keys s (fst (trackPageView env s)).
Proof.
  rewrite trackPageView_state. destruct (truthy _); [by apply keeps_keys_same |].
  by eapply keeps_keys_insert.
Qed.

Lemma init_keeps_keys (s : state) : keeps_keys s (fst (init s)).
Proof.
  unfold init. destruct (initTheme_frame s) as [_ L].
  destruct (initTheme s) as [s1 [| e]]; simpl in *.
  - eapply keeps_keys_trans; [by eapply keeps_keys_insert |].
    eapply keeps_keys_trans; [| apply trackPageView_keeps_keys].
    apply keeps_keys_same. apply initForms_frame.
  - by eapply keeps_keys_insert.
Qed.

Lemma handleNewsletterSubmit_keeps_keys (s : state) :
  keeps_keys s (handleNewsletterSubmit s).
Proof.
  apply keeps_keys_same. unfold handleNewsletterSubmit.
  destruct (newsletterForm s) as [fm |] eqn:Hfm; [| done].
  destruct (isValidEmail (trim (value (form_email fm)))); simpl.
  - unfold update_submit. by rewrite Hfm.
  - match goal with |- context [focus_emailInput ?x] =>
      destruct (focus_emailInput_frame x) as (_ & _ & _ & -> & _) end.
    done.
Qed.

Lemma run_callback_keeps_keys (cb : callback) (random : Q) (s : state) :
  keeps_keys s (run_callback cb random s).
Proof.
  destruct cb as [id | id | id | id | endpoint data k]; simpl.
  - by apply keeps_keys_same.
  - case_match; by apply keeps_keys_same.
  - case_match; by apply keeps_keys_same.
  - case_match; by apply keeps_keys_same.
  - destruct k as [email]. simpl.
    destruct (handleNewsletterSubmit_resume_frame email (api_settle random data) s)
      as (_ & _ & _ & L).
    destruct (api_settle random data); [by eapply keeps_keys_insert | by apply keeps_keys_same].
Qed.

Lemma step_keeps_keys (ev : event) (s s' : state) :
  step ev s = Some s' → keeps_keys s s'.
Proof.
  intros Hstep. destruct ev; simpl in Hstep.
  - injection Hstep as <-. apply init_keeps_keys.
  - injection Hstep as <-. case_match; [| by apply keeps_keys_same].
    unfold onSystemThemeChange. case_match; [| by apply keeps_keys_same].
    eapply keeps_keys_trans; [| apply setTheme_keeps_keys]. by apply keeps_keys_same.
  - injection Hstep as <-. apply setTheme_keeps_keys.
  - injection Hstep as <-. apply setTheme_keeps_keys.
  - injection Hstep as <-. by apply keeps_keys_same.
  - injection Hstep as <-. by apply keeps_keys_same.
  - destruct (newsletterForm s) as [fm |]; [| done].
    destruct (input_disabled (form_email fm)); [done |].
    injection Hstep as <-. by apply keeps_keys_same.
  - case_match; [| done]. injection Hstep as <-. apply handleNewsletterSubmit_keeps_keys.
  - case_match; [| done]. injection Hstep as <-. by apply keeps_keys_same.
  - destruct (timers s !! i) as [t |]; [| done].
    case_match; [| done]. injection Hstep as <-.
    eapply keeps_keys_trans; [| apply run_callback_keeps_keys]. by apply keeps_keys_same.
Qed.

(** X1: nothing the page does deletes a key of local storage: a key that
    is stored (the theme preference, the subscribed flag, any other) is
    still stored after every run of the event loop. *)
Theorem localStorage_keys_never_deleted
    (evs : list event) (s s' : state) (k : string) :
  run evs s = Some s' →
  is_Some (localStorage s !! k) →
  is_Some (localStorage s' !! k).
Proof.
  revert s. induction evs as [| ev evs IH]; intros s Hrun Hk; simpl in Hrun.
  - by injection Hrun as <-.
  - destruct (step ev s) as [s1 |] eqn:Hstep; [| done].
    apply (IH s1 Hrun). by apply (step_keeps_keys ev s s1).
Qed.

Lemma localStorage_keys_never_deleted_witness :
  ∃ s', run [CallToggleTheme; SystemThemeChange true; CallShowToast (txt "hello") Info]
          (fst (init first_visit)) = Some s'
        ∧ is_Some (localStorage s' !! CONFIG_storage_theme).
Proof.
  match goal with |- ∃ s', ?r = Some s' ∧ _ => destruct r as [s' |] eqn:E end.
  - exists s'. split; [reflexivity |].
    apply (localStorage_keys_never_deleted _ _ _ _ E). exists "light". reflexivity.
  - vm_compute in E. discriminate E.
Defined.

(** X3: when the simulated call resolves, the continuation of
    [handleNewsletterSubmit] disables the email input and the submit button
    through [updateNewsletterFormState], and then its [finally] block enables
    the button again through [setButtonLoading]: the form ends with the
    input disabled, emptied, and the button enabled. *)
Theorem resume_success_leaves_button_enabled
    (email : jsstring) (ok : bool) (data : payload) (s : state) (fm : form) :
  newsletterForm s = Some fm →
  ∃ fm', newsletterForm (handleNewsletterSubmit_resume email (Resolved ok data) s) = Some fm'
    ∧ input_disabled (form_email fm') = true
    ∧ value (form_email fm') = defaultValue (form_email fm)
    ∧ placeholder (form_email fm') = "You are already subscribed!"
    ∧ btn_textContent (form_submit fm') = "Subscribed ✓"
    ∧ btn_disabled (form_submit fm') = false
    ∧ aria_busy (form_submit fm') = false.
Proof.
  intros Hfm.
  unfold handleNewsletterSubmit_resume, update_submit, form_reset, updateNewsletterFormState.
  simpl. rewrite Hfm. simpl. eexists. split; [reflexivity |]. done.
Qed.

Lemma resume_success_witness :
  ∃ fm', newsletterForm
           (handleNewsletterSubmit_resume [] (Resolved true (Payload [] 0)) first_visit)
         = Some fm'
    ∧ btn_disabled (form_submit fm') = false.
Proof.
  destruct (resume_success_leaves_button_enabled [] true (Payload [] 0) first_visit
              sample_form eq_refl) as (fm' & H & _ & _ & _ & _ & Hb & _).
  by exists fm'.
Defined.


(** ** What [init] does when the navigation markup is missing *)

Lemma setTheme_markup (theme : string) (s : state) :
  nav_actions (setTheme theme s) = nav_actions s
  ∧ nav_container (setTheme theme s) = nav_container s
  ∧ theme_listener (setTheme theme s) = theme_listener s
  ∧ submit_listener (setTheme theme s) = submit_listener s
  ∧ themeToggle (setTheme theme s)
    = match themeToggle s with
      | Some tg => Some (if bool_decide (theme ∈ ["light"; "dark"])
                         then toggle_for (Some theme) else tg)
      | None => None
      end.
Proof.
  unfold setTheme, updateThemeToggle, toggle_for.
  destruct (bool_decide (theme ∈ ["light"; "dark"])); simpl;
    destruct (themeToggle s) eqn:E; simpl; try case_decide;
    rewrite ?E; repeat split; reflexivity.
Qed.

Lemma initTheme_steps (s : state) :
  initTheme s
  = (let (s2, c) := createThemeToggle (setTheme (resolved_theme s) s) in
     match c with
     | Throw e => (s2, Throw e)
     | Normal => (set_theme_listener true s2, Normal)
     end).
Proof.
  unfold initTheme, resolved_theme. cbv zeta.
  destruct (bool_decide (localStorage s !! CONFIG_storage_theme = Some "dark")
            || negb (truthy (localStorage s !! CONFIG_storage_theme)) && prefers_dark s);
    reflexivity.
Qed.

(** X4: [initTheme] throws a [TypeError] exactly when the page has no
    theme toggle, no [.nav-actions] and no [.nav-container], and it throws
    nothing else.  [init] then stops there: the theme has been applied and
    stored, but the listener for changes of the system's preference and the
    submit listener are not installed, no toggle is created, and the
    newsletter form is left as the markup has it, subscribed or not. *)
Theorem init_stops_without_nav_markup (s : state) :
  (snd (initTheme s) = Throw "TypeError"
   ↔ themeToggle s = None ∧ nav_actions s = false ∧ nav_container s = false)
  ∧ (snd (initTheme s) = Normal ∨ snd (initTheme s) = Throw "TypeError")
  ∧ (snd (initTheme s) = Throw "TypeError" →
     init s = initTheme s
     ∧ data_theme (fst (init s)) = Some (resolved_theme s)
     ∧ localStorage (fst (init s)) !! CONFIG_storage_theme = Some (resolved_theme s)
     ∧ themeToggle (fst (init s)) = None
     ∧ theme_listener (fst (init s)) = theme_listener s
     ∧ submit_listener (fst (init s)) = submit_listener s
     ∧ newsletterForm (fst (init s)) = newsletterForm s).
Proof.
  destruct (setTheme_markup (resolved_theme s) s) as (Na & Nc & Tl & Sl & Tg).
  destruct (setTheme_valid (resolved_theme s) s (resolved_theme_valid s))
    as (D & L & _ & _ & _ & F).
  unfold init. rewrite initTheme_steps.
  unfold createThemeToggle, createNavActions. rewrite Tg, Na, Nc.
  destruct (themeToggle s) as [tg |]; simpl.
  { split; [| split]; [| by left |]; [split; [done | by intros [? _]] | done]. }
  destruct (nav_actions s); simpl.
  { split; [| split]; [| by left |]; [split; [done | by intros (_ & ? & _)] | done]. }
  destruct (nav_container s); simpl.
  { split; [| split]; [| by left |]; [split; [done | by intros (_ & _ & ?)] | done]. }
  split; [done |]. split; [by right |]. intros _.
  rewrite D, L, Tg, Tl, Sl, F, lookup_insert_eq. done.
Qed.

Lemma init_stops_witness :
  let s := set_nav_actions false (set_nav_container false first_visit) in
  snd (init s) = Throw "TypeError" ∧ submit_listener (fst (init s)) = false.
Proof.
  cbv zeta.
  match goal with |- context [init ?x] => set (s := x) end.
  destruct (init_stops_without_nav_markup s) as (H1 & _ & H3).
  assert (Ht : snd (initTheme s) = Throw "TypeError")
    by (apply H1; repeat split; reflexivity).
  destruct (H3 Ht) as (Hi & _ & _ & _ & _ & Hs & _).
  split; [by rewrite Hi | by rewrite Hs].
Defined.

(** ** The toggle follows the theme *)

(** Unfolds the handlers down to the field updates and decides each test. *)
Ltac by_fields :=
  unfold run_callback, resume, handleNewsletterSubmit_resume, handleNewsletterSubmit,
    initForms, updateNewsletterFormState, form_reset, update_submit, focus_emailInput,
    simulateAPICall, hideToast, removeChild, showToast, removeExistingToasts,
    appendChild, createElement, setTimeout;
  repeat (simpl; case_match); simpl; try reflexivity.

Lemma toggle_mirrors_same (s s' : state) :
  themeToggle s' = themeToggle s → data_theme s' = data_theme s →
  toggle_mirrors s → toggle_mirrors s'.
Proof. unfold toggle_mirrors. by intros -> ->. Qed.

Lemma setTheme_toggle_mirrors (theme : string) (s : state) :
  toggle_mirrors s → toggle_mirrors (setTheme theme s).
Proof.
  intros Hm. destruct (setTheme_markup theme s) as (_ & _ & _ & _ & Tg).
  unfold toggle_mirrors in *. rewrite Tg, Hm.
  destruct (bool_decide (theme ∈ ["light"; "dark"])) eqn:Hv.
  - apply bool_decide_eq_true_1 in Hv. rewrite !elem_of_cons, elem_of_nil in Hv.
    destruct (setTheme_valid theme s) as (-> & _); [tauto | done].
  - apply bool_decide_eq_false_1 in Hv. rewrite !elem_of_cons, elem_of_nil in Hv.
    rewrite setTheme_invalid by tauto. done.
Qed.

Lemma initForms_toggle (s : state) :
  themeToggle (initForms s) = themeToggle s ∧ data_theme (initForms s) = data_theme s.
Proof. split; by_fields. Qed.

Lemma trackPageView_toggle_mirrors (env : environment) (s : state) :
  toggle_mirrors s → toggle_mirrors (fst (trackPageView env s)).
Proof.
  destruct (trackPageView_frame env s) as (_ & _ & _ & D & T & _).
  by apply toggle_mirrors_same.
Qed.

Lemma init_toggle_mirrors (s : state) :
  toggle_mirrors s ∨ snd (init s) = Normal → toggle_mirrors (fst (init s)).
Proof.
  unfold init. rewrite initTheme_steps.
  destruct (setTheme_markup (resolved_theme s) s) as (Na & Nc & _ & _ & Tg).
  destruct (setTheme_valid (resolved_theme s) s (resolved_theme_valid s)) as (D & _).
  pose proof (setTheme_toggle_mirrors (resolved_theme s) s) as Hkeep.
  set (s1 := setTheme (resolved_theme s) s) in *.
  unfold createThemeToggle, createNavActions.
  destruct (themeToggle s1) as [tg |] eqn:E1.
  - intros _. simpl. apply trackPageView_toggle_mirrors.
    destruct (initForms_toggle (set_theme_listener true s1)) as [T1 D1].
    apply (toggle_mirrors_same (set_theme_listener true s1)); [done | done |].
    unfold toggle_mirrors. simpl. rewrite E1. f_equal.
    destruct (themeToggle s) as [tg0 |]; [| done].
    rewrite bool_decide_eq_true_2 in Tg
      by (rewrite !elem_of_cons; destruct (resolved_theme_valid s); auto).
    rewrite D. congruence.
  - assert (Hnone : themeToggle s = None) by (by destruct (themeToggle s)).
    intros [Hm | Hn]; [unfold toggle_mirrors in Hm; congruence |].
    revert Hn.
    assert (Hmk : ∀ s0,
               toggle_mirrors
                 (initForms (set_theme_listener true
                    (updateThemeToggle (data_theme (set_themeToggle (Some (Toggle false "" "")) s0))
                       (set_themeToggle (Some (Toggle false "" "")) s0))))).
    { intros s0.
      match goal with |- toggle_mirrors (initForms ?x) =>
        destruct (initForms_toggle x) as [T1 D1];
        apply (toggle_mirrors_same x); [done | done |]; clear T1 D1 end.
      unfold toggle_mirrors, updateThemeToggle, toggle_for. simpl.
      destruct (decide (data_theme s0 = Some "dark")) as [Hd | Hd]; simpl;
        [by rewrite decide_True | by rewrite decide_False]. }
    destruct (nav_actions s1).
    + intros _. cbn [fst snd]. apply trackPageView_toggle_mirrors. exact (Hmk s1).
    + destruct (nav_container s1); [| done]. intros _. cbn [fst snd].
      apply trackPageView_toggle_mirrors. exact (Hmk (set_nav_actions true s1)).
Qed.

Lemma step_toggle_mirrors (ev : event) (s s' : state) :
  toggle_mirrors s → step ev s = Some s' → toggle_mirrors s'.
Proof.
  intros Hm Hstep. destruct ev; simpl in Hstep.
  - injection Hstep as <-. apply init_toggle_mirrors. by left.
  - injection Hstep as <-. case_match; [| by apply (toggle_mirrors_same s)].
    unfold onSystemThemeChange. case_match; [| by apply (toggle_mirrors_same s)].
    apply setTheme_toggle_mirrors. by apply (toggle_mirrors_same s).
  - injection Hstep as <-. by apply setTheme_toggle_mirrors.
  - injection Hstep as <-. by apply setTheme_toggle_mirrors.
  - injection Hstep as <-. by apply (toggle_mirrors_same s).
  - injection Hstep as <-. by apply (toggle_mirrors_same s).
  - destruct (newsletterForm s) as [fm |]; [| done].
    destruct (input_disabled (form_email fm)); [done |].
    injection Hstep as <-. by apply (toggle_mirrors_same s).
  - case_match; [| done]. injection Hstep as <-.
    apply (toggle_mirrors_same s); [by_fields | by_fields | done].
  - case_match; [| done]. injection Hstep as <-. by apply (toggle_mirrors_same s).
  - destruct (timers s !! i) as [t |]; [| done].
    case_match; [| done]. injection Hstep as <-.
    apply (toggle_mirrors_same s); [| | done].
    + destruct (timer_cb t) as [| | | | ? ? []]; by_fields.
    + destruct (timer_cb t) as [| | | | ? ? []]; by_fields.
Qed.

(** X5: once [init] has completed, the theme toggle exists and shows the
    active theme ([aria-pressed] is true and the moon icon is the opaque one
    exactly when the theme is dark), and it keeps showing it through every
    run of the event loop: no handler changes the theme without updating
    the toggle, or the toggle without the theme. *)
Theorem toggle_shows_active_theme (s : state) :
  (snd (init s) = Normal → toggle_mirrors (fst (init s)))
  ∧ (∀ evs s', toggle_mirrors s → run evs s = Some s' → toggle_mirrors s').
Proof.
  split; [intros H; apply init_toggle_mirrors; by right |].
  intros evs. revert s. induction evs as [| ev evs IH]; intros s s' Hm Hrun; simpl in Hrun.
  - by injection Hrun as <-.
  - destruct (step ev s) as [s1 |] eqn:Hstep; [| done].
    apply (IH s1 s'); [| done]. by apply (step_toggle_mirrors ev s).
Qed.

Lemma toggle_shows_active_theme_witness :
  ∃ s', run [CallToggleTheme; CallShowToast (txt "hi") Info; CallToggleTheme; CallToggleTheme]
          (fst (init first_visit)) = Some s'
        ∧ themeToggle s' = Some (Toggle true "0.5" "1") ∧ data_theme s' = Some "dark".
Proof.
  destruct (toggle_shows_active_theme first_visit) as [H1 _].
  match goal with |- ∃ s', ?r = Some s' ∧ _ => destruct r as [s' |] eqn:E end.
  - exists s'. split; [reflexivity |].
    destruct (toggle_shows_active_theme (fst (init first_visit))) as [_ H2].
    pose proof (H2 _ _ (H1 eq_refl) E) as Hm. unfold toggle_mirrors in Hm.
    assert (Hd : data_theme s' = Some "dark").
    { vm_compute in E. injection E as <-. reflexivity. }
    split; [| exact Hd]. rewrite Hm, Hd. reflexivity.
  - vm_compute in E. discriminate E.
Defined.

(** ** Nothing the script adds to the document stays for ever *)

Lemma removal_scheduled_app (id : nat) (l l' : list timer) :
  removal_scheduled id l → removal_scheduled id (l ++ l').
Proof. intros (t & Ht & Hcb). exists t. split; [| done]. apply elem_of_app. by left. Qed.

Lemma removal_scheduled_new (id : nat) (l : list timer) (t : timer) :
  t ∈ l →
  timer_cb t = ToastAutoHide id ∨ timer_cb t = ToastRemove id
    ∨ timer_cb t = AnnouncementRemove id →
  removal_scheduled id l.
Proof. intros Hin Hcb. by exists t. Qed.

Lemma removal_scheduled_delete (id : nat) (l : list timer) (i : nat) (t : timer) :
  removal_scheduled id l → l !! i = Some t →
  timer_cb t ≠ ToastAutoHide id → timer_cb t ≠ ToastRemove id →
  timer_cb t ≠ AnnouncementRemove id →
  removal_scheduled id (delete i l).
Proof.
  intros (t' & Hin & Hcb) Hi H1 H2 H3. exists t'. split; [| done].
  eapply elem_of_delete_ne; [done.. |]. intros ->. tauto.
Qed.

(** The elements of [s'] are elements of [s] up to their classes, or come
    with a removal timer; the timers of [s] are kept. *)
Lemma all_removable_grow (s s' : state) (l : list node) (l' : list timer) :
  all_removable s →
  (∀ n, n ∈ body s' → (∃ n0, n0 ∈ body s ∧ node_id n0 = node_id n) ∨ n ∈ l) →
  timers s' = timers s ++ l' →
  (∀ n, n ∈ l → removal_scheduled (node_id n) l') →
  all_removable s'.
Proof.
  intros Hall Hbody Ht Hnew n Hn. rewrite Ht.
  destruct (Hbody n Hn) as [(n0 & Hn0 & Hid) | Hl].
  - rewrite <- Hid. by apply removal_scheduled_app, Hall.
  - destruct (Hnew n Hl) as (t & Hin & Hcb). exists t. split; [| done].
    apply elem_of_app. by right.
Qed.

Lemma all_removable_same (s s' : state) :
  body s' = body s → timers s' = timers s → all_removable s → all_removable s'.
Proof. unfold all_removable. by intros -> ->. Qed.

Lemma setTheme_all_removable (theme : string) (s : state) :
  all_removable s → all_removable (setTheme theme s).
Proof.
  intros Hall.
  destruct (decide (theme = "light")) as [Hl | Hl];
    [| destruct (decide (theme = "dark")) as [Hd | Hd]].
  3: { by rewrite setTheme_invalid. }
  all: destruct (setTheme_valid theme s) as (_ & _ & B & T & _); [by auto |].
  all: eapply (all_removable_grow s); [done | | exact T |].
  all: try (intros n Hn; rewrite B in Hn; apply elem_of_app in Hn as [Hn | Hn];
            [left; by exists n | by right]).
  all: intros n ->%list_elem_of_singleton; eapply removal_scheduled_new;
       [by apply list_elem_of_singleton | simpl; auto].
Qed.

Lemma init_all_removable (s : state) : all_removable s → all_removable (fst (init s)).
Proof.
  intros Hall. unfold init. rewrite initTheme_steps.
  pose proof (setTheme_all_removable (resolved_theme s) s Hall) as H1.
  set (s1 := setTheme (resolved_theme s) s) in *.
  destruct (createThemeToggle_frame s1) as (_ & _ & B & T & _).
  destruct (createThemeToggle s1) as [s2 [| e]]; simpl in *.
  - destruct (initForms_frame (set_theme_listener true s2)) as (B' & T' & _).
    match goal with |- context [trackPageView ?env ?x] =>
      destruct (trackPageView_frame env x) as (B'' & T'' & _) end.
    apply (all_removable_same s1); [by rewrite B'', B' | by rewrite T'', T' | done].
  - by apply (all_removable_same s1).
Qed.

Lemma showToast_all_removable (message : text) (type : toastType) (s : state) :
  all_removable s → all_removable (fst (showToast message type s)).
Proof.
  intros Hall. destruct (showToast_frame message type s) as (B & T & _).
  eapply (all_removable_grow s); [done | | exact T |].
  - intros n Hn. rewrite B in Hn. apply elem_of_app in Hn as [Hn | Hn]; [| by right].
    apply list_elem_of_filter in Hn as [_ Hn]. left. by exists n.
  - intros n ->%list_elem_of_singleton. simpl.
    exists (Timer (now s + CONFIG_toast_duration) (ToastAutoHide (next_id s))).
    split; [rewrite !elem_of_cons; auto | by left].
Qed.

Lemma hideToast_all_removable (id : nat) (s : state) :
  all_removable s → all_removable (hideToast id s).
Proof.
  intros Hall. destruct (hideToast_frame id s) as (B & T & _).
  eapply (all_removable_grow s _ []); [done | | exact T | by intros n Hn%elem_of_nil].
  intros n Hn. rewrite B in Hn. apply list_elem_of_fmap in Hn as (n0 & -> & Hn0).
  left. exists n0. by rewrite node_id_update_classList.
Qed.

Lemma has_parent_false (id : nat) (s : state) (n : node) :
  has_parent id s = false → n ∈ body s → node_id n ≠ id.
Proof.
  unfold has_parent. intros Hp Hn <-. apply bool_decide_eq_false_1 in Hp.
  apply Hp, list_elem_of_fmap. by exists n.
Qed.

Lemma run_callback_all_removable (s : state) (i : nat) (t : timer) (random : Q) :
  all_removable s → timers s !! i = Some t →
  all_removable (run_callback (timer_cb t) random (set_timers (delete i (timers s)) s)).
Proof.
  intros Hall Hi. set (s0 := set_timers (delete i (timers s)) s).
  assert (Hkeep : ∀ n, n ∈ body s → timer_cb t ≠ ToastAutoHide (node_id n) →
            timer_cb t ≠ ToastRemove (node_id n) →
            timer_cb t ≠ AnnouncementRemove (node_id n) →
            removal_scheduled (node_id n) (timers s0)).
  { intros n Hn H1 H2 H3. eapply removal_scheduled_delete; [by apply Hall | done..]. }
  assert (Hother : ∀ id n, n ∈ body s → node_id n ≠ id →
            (timer_cb t = ToastShow id ∨ timer_cb t = ToastAutoHide id
             ∨ timer_cb t = ToastRemove id ∨ timer_cb t = AnnouncementRemove id) →
            removal_scheduled (node_id n) (timers s0)).
  { intros id n Hn Hne Hcb. apply Hkeep; [done | ..];
      intros E; rewrite E in Hcb; destruct Hcb as [? | [? | [? | ?]]]; congruence. }
  destruct (timer_cb t) as [id | id | id | id | endpoint data k] eqn:Hcb; simpl.
  - intros n Hn. simpl in Hn. apply list_elem_of_fmap in Hn as (n0 & -> & Hn0).
    rewrite node_id_update_classList. apply Hkeep; [done | congruence..].
  - destruct (has_parent id s0) eqn:Hp.
    + destruct (hideToast_frame id s0) as (B & T & _).
      intros n Hn. rewrite B in Hn. apply list_elem_of_fmap in Hn as (n0 & -> & Hn0).
      rewrite node_id_update_classList, T.
      destruct (decide (node_id n0 = id)) as [<- | Hne].
      * exists (Timer (now s0 + CONFIG_animations_normal) (ToastRemove (node_id n0))).
        split; [| by right; left]. rewrite elem_of_app, list_elem_of_singleton. by right.
      * apply removal_scheduled_app. apply (Hother id); auto.
    + intros n Hn. apply (Hother id); [done | by eapply has_parent_false | auto].
  - destruct (has_parent id s0) eqn:Hp.
    + intros n Hn. simpl in Hn. apply list_elem_of_filter in Hn as [Hne Hn].
      apply (Hother id); auto.
    + intros n Hn. apply (Hother id); [done | by eapply has_parent_false | auto].
  - destruct (has_parent id s0) eqn:Hp.
    + intros n Hn. simpl in Hn. apply list_elem_of_filter in Hn as [Hne Hn].
      apply (Hother id); auto.
    + intros n Hn. apply (Hother id); [done | by eapply has_parent_false | by auto 6].
  - destruct k as [email]. simpl.
    destruct (handleNewsletterSubmit_resume_frame email (api_settle random data) s0)
      as (B & T & _).
    eapply all_removable_same; [exact B | exact T |].
    apply showToast_all_removable. intros n Hn. apply Hkeep; [done | congruence..].
Qed.

Lemma step_all_removable (ev : event) (s s' : state) :
  all_removable s → step ev s = Some s' → all_removable s'.
Proof.
  intros Hall Hstep. destruct ev; simpl in Hstep.
  - injection Hstep as <-. by apply init_all_removable.
  - injection Hstep as <-. case_match; [| by apply (all_removable_same s)].
    unfold onSystemThemeChange. case_match; [| by apply (all_removable_same s)].
    apply setTheme_all_removable. by apply (all_removable_same s).
  - injection Hstep as <-. by apply setTheme_all_removable.
  - injection Hstep as <-. by apply setTheme_all_removable.
  - injection Hstep as <-. by apply showToast_all_removable.
  - injection Hstep as <-. by apply hideToast_all_removable.
  - destruct (newsletterForm s) as [fm |]; [| done].
    destruct (input_disabled (form_email fm)); [done |].
    injection Hstep as <-. by apply (all_removable_same s).
  - case_match; [| done]. injection Hstep as <-.
    unfold handleNewsletterSubmit. destruct (newsletterForm s) as [fm |] eqn:Hfm; [| done].
    destruct (isValidEmail (trim (value (form_email fm)))); cbn [negb]; cbv zeta.
    + eapply (all_removable_grow s _ []); [done | | | by intros n Hn%elem_of_nil].
      * intros n Hn. left. exists n. split; [| done].
        revert Hn. unfold update_submit. by rewrite Hfm.
      * unfold simulateAPICall, setTimeout, update_submit. rewrite Hfm. reflexivity.
    + match goal with |- context [focus_emailInput ?x] =>
        destruct (focus_emailInput_frame x) as (B & T & _) end.
      eapply all_removable_same; [exact B | exact T |]. by apply showToast_all_removable.
  - case_match; [| done]. injection Hstep as <-. by apply (all_removable_same s).
  - destruct (timers s !! i) as [t |] eqn:Hi; [| done].
    case_match; [| done]. injection Hstep as <-. by apply run_callback_all_removable.
Qed.

(** X6: starting from a document in which the script has put nothing yet,
    every element it adds (a toast with a message free of markup, an
    announcement for screen readers) has, at every moment of every run, a
    pending timer that hides or removes it;
    and when the removal timer of an element fires, no element with that
    identity is left in the document. *)
Theorem added_elements_get_removed (evs : list event) (s s' : state) :
  body s = [] →
  run evs s = Some s' →
  all_removable s'
  ∧ (∀ id random, ¬ has_parent id (run_callback (AnnouncementRemove id) random s') = true)
  ∧ (∀ id random, ¬ has_parent id (run_callback (ToastRemove id) random s') = true).
Proof.
  intros Hempty Hrun. split.
  - assert (H0 : all_removable s) by (intros n Hn; rewrite Hempty in Hn; by apply elem_of_nil in Hn).
    clear Hempty. revert s H0 Hrun.
    induction evs as [| ev evs IH]; intros s H0 Hrun; simpl in Hrun.
    + by injection Hrun as <-.
    + destruct (step ev s) as [s1 |] eqn:Hstep; [| done].
      apply (IH s1); [| done]. by apply (step_all_removable ev s).
  - assert (Hgone : ∀ id st, has_parent id (if has_parent id st then removeChild id st else st)
                             = false).
    { intros id st. destruct (has_parent id st) eqn:Hp; [| done].
      unfold has_parent, removeChild. simpl. apply bool_decide_eq_false_2.
      intros (n & Hid & Hn)%list_elem_of_fmap. apply list_elem_of_filter in Hn as [Hne _].
      congruence. }
    split; intros id random; simpl; rewrite Hgone; discriminate.
Qed.

Lemma added_elements_get_removed_witness :
  ∃ s', run [CallInit; CallToggleTheme; CallShowToast (txt "hello") Info; Elapse 1000; Fire 0 0%Q]
          first_visit = Some s'
        ∧ all_removable s'.
Proof.
  match goal with |- ∃ s', ?r = Some s' ∧ _ => destruct r as [s' |] eqn:E end.
  - exists s'. split; [reflexivity |].
    exact (proj1 (added_elements_get_removed _ first_visit s' eq_refl E)).
  - vm_compute in E. discriminate E.
Defined.

(** ** The newsletter form through a submission *)

Lemma classList_remove_add (c : string) (l : list string) :
  c ∉ l → classList_remove c (classList_add c l) = l.
Proof.
  intros Hc. unfold classList_add, classList_remove. rewrite decide_False by done.
  rewrite filter_app, filter_cons, decide_False, filter_nil, app_nil_r by (by intros ?).
  induction l as [| x l IH]; [done |].
  apply not_elem_of_cons in Hc as [Hx Hl].
  rewrite filter_cons, decide_True by done. by rewrite IH.
Qed.

Lemma setButtonLoading_round_trip (button : submitBtn) :
  btn_disabled button = false → aria_busy button = false →
  "btn-loading" ∉ btn_classList button →
  setButtonLoading false (setButtonLoading true button) = button.
Proof.
  intros Hd Hb Hc. destruct button as [text dis cls busy]. simpl in *. subst.
  unfold setButtonLoading. simpl. by rewrite classList_remove_add.
Qed.

Lemma handleNewsletterSubmit_valid (s : state) (fm : form) :
  newsletterForm s = Some fm →
  isValidEmail (trim (value (form_email fm))) = true →
  newsletterForm (handleNewsletterSubmit s)
  = Some (Form (form_email fm) (setButtonLoading true (form_submit fm)))
  ∧ localStorage (handleNewsletterSubmit s) = localStorage s.
Proof.
  intros Hfm Hok. unfold handleNewsletterSubmit. rewrite Hfm, Hok. simpl negb. cbv iota zeta.
  unfold simulateAPICall, setTimeout, update_submit. by rewrite Hfm.
Qed.

Lemma resume_rejected_form (email : jsstring) (error : string) (s : state) (fm : form) :
  newsletterForm s = Some fm →
  newsletterForm (handleNewsletterSubmit_resume email (Rejected error) s)
  = Some (Form (form_email fm) (setButtonLoading false (form_submit fm))).
Proof.
  intros Hfm. unfold handleNewsletterSubmit_resume, update_submit.
  destruct (showToast_frame (txt "Subscription failed. Please try again.") Error s)
    as (_ & _ & _ & _ & F & _). cbv zeta in F. rewrite F, Hfm. done.
Qed.

(** X7: a submission that fails gives the form back as the user had it.
    While the call is pending the submit button is disabled and marked
    busy; when the call is rejected the email input still has the value that
    was entered, the button is enabled and no longer busy, and nothing has
    been stored.  For a button that was enabled, not busy and without the
    class [btn-loading], the form is exactly the one before the submission. *)
Theorem failed_submission_gives_form_back (s : state) (fm : form) (error : string) :
  newsletterForm s = Some fm →
  isValidEmail (trim (value (form_email fm))) = true →
  let s1 := handleNewsletterSubmit s in
  let s2 := handleNewsletterSubmit_resume (trim (value (form_email fm))) (Rejected error) s1 in
  (∃ fm1, newsletterForm s1 = Some fm1
     ∧ form_email fm1 = form_email fm
     ∧ btn_disabled (form_submit fm1) = true ∧ aria_busy (form_submit fm1) = true)
  ∧ (∃ fm2, newsletterForm s2 = Some fm2
     ∧ form_email fm2 = form_email fm
     ∧ btn_disabled (form_submit fm2) = false ∧ aria_busy (form_submit fm2) = false
     ∧ btn_textContent (form_submit fm2) = btn_textContent (form_submit fm))
  ∧ localStorage s2 = localStorage s
  ∧ (btn_disabled (form_submit fm) = false → aria_busy (form_submit fm) = false →
     "btn-loading" ∉ btn_classList (form_submit fm) →
     newsletterForm s2 = Some fm).
Proof.
  intros Hfm Hok. cbv zeta.
  destruct (handleNewsletterSubmit_valid s fm Hfm Hok) as [F1 L1].
  pose proof (resume_rejected_form (trim (value (form_email fm))) error _ _ F1) as F2.
  destruct (handleNewsletterSubmit_resume_frame (trim (value (form_email fm)))
              (Rejected error) (handleNewsletterSubmit s)) as (_ & _ & _ & L2).
  split; [| split; [| split]].
  - eexists. split; [exact F1 |]. done.
  - eexists. split; [exact F2 |]. done.
  - by rewrite L2, L1.
  - intros Hd Hb Hc. rewrite F2. cbn [form_submit form_email].
    rewrite setButtonLoading_round_trip by done.
    by destruct fm.
Qed.

Lemma failed_submission_witness :
  let s := set_newsletterForm
             (Some (Form (EmailInput (units "user@example.com") [] "Enter your email" false)
                      (form_submit sample_form))) first_visit in
  newsletterForm
    (handleNewsletterSubmit_resume (units "user@example.com") (Rejected "API request failed")
       (handleNewsletterSubmit s))
  = newsletterForm s.
Proof.
  cbv zeta.
  match goal with |- context [handleNewsletterSubmit ?x] => set (s := x) end.
  destruct (failed_submission_gives_form_back s
              (Form (EmailInput (units "user@example.com") [] "Enter your email" false)
                 (form_submit sample_form)) "API request failed" eq_refl eq_refl)
    as (_ & _ & _ & H).
  apply H; [reflexivity | reflexivity |].
  simpl. rewrite !elem_of_cons, elem_of_nil. intros [? | [? | []]]; discriminate.
Defined.

(** ** A subscription lasts *)

Lemma setTheme_other_key (theme : string) (s : state) (k : string) :
  k ≠ CONFIG_storage_theme →
  localStorage (setTheme theme s) !! k = localStorage s !! k.
Proof.
  intros Hk.
  destruct (decide (theme = "light")) as [Hl | Hl];
    [| destruct (decide (theme = "dark")) as [Hd | Hd]].
  3: { by rewrite setTheme_invalid. }
  all: destruct (setTheme_valid theme s) as (_ & -> & _); [by auto |].
  all: by rewrite lookup_insert_ne.
Qed.

(** [init] leaves every key but the theme as it is, the visited flag too
    once it is set. *)
Lemma init_other_key (s : state) (k : string) :
  k ≠ CONFIG_storage_theme →
  (k = CONFIG_storage_visitedBefore → truthy (localStorage s !! k) = true) →
  localStorage (fst (init s)) !! k = localStorage s !! k.
Proof.
  intros Hk Hk'. unfold init. destruct (initTheme_frame s) as [_ L].
  destruct (initTheme s) as [s1 [| e]]; simpl in *.
  - destruct (initForms_frame s1) as (_ & _ & _ & F).
    assert (Hs1 : localStorage (initForms s1) !! k = localStorage s !! k).
    { rewrite F, L. by rewrite lookup_insert_ne. }
    rewrite trackPageView_state.
    destruct (truthy (localStorage (initForms s1) !! CONFIG_storage_visitedBefore)) eqn:Hv;
      [done |].
    simpl. destruct (decide (k = CONFIG_storage_visitedBefore)) as [-> | Hne].
    + rewrite Hs1, Hk' in Hv; done.
    + by rewrite lookup_insert_ne.
  - rewrite L. by rewrite lookup_insert_ne.
Qed.

Lemma step_keeps_subscribed (ev : event) (s s' : state) :
  localStorage s !! CONFIG_storage_newsletterSubscribed = Some "true" →
  step ev s = Some s' →
  localStorage s' !! CONFIG_storage_newsletterSubscribed = Some "true".
Proof.
  intros Hsub Hstep. destruct ev; simpl in Hstep.
  - injection Hstep as <-. by rewrite init_other_key.
  - injection Hstep as <-. case_match; [| done].
    unfold onSystemThemeChange. case_match; [| done]. by rewrite setTheme_other_key.
  - injection Hstep as <-. unfold toggleTheme. by rewrite setTheme_other_key.
  - injection Hstep as <-. by rewrite setTheme_other_key.
  - by injection Hstep as <-.
  - by injection Hstep as <-.
  - destruct (newsletterForm s) as [fm |]; [| done].
    destruct (input_disabled (form_email fm)); [done |]. by injection Hstep as <-.
  - case_match; [| done]. injection Hstep as <-.
    replace (localStorage (handleNewsletterSubmit s)) with (localStorage s); [done |].
    by_fields.
  - case_match; [| done]. by injection Hstep as <-.
  - destruct (timers s !! i) as [t |]; [| done].
    case_match; [| done]. injection Hstep as <-.
    destruct (timer_cb t) as [id | id | id | id | endpoint data [email]]; simpl.
    + done.
    + by case_match.
    + by case_match.
    + by case_match.
    + match goal with |- context [handleNewsletterSubmit_resume ?e ?r ?x] =>
        destruct (handleNewsletterSubmit_resume_frame e r x) as (_ & _ & _ & ->) end.
      destruct (api_settle random data); [apply lookup_insert_eq | done].
Qed.

Lemma initForms_truthy_flag (s : state) (fm : form) (v : string) :
  newsletterForm s = Some fm →
  localStorage s !! CONFIG_storage_newsletterSubscribed = Some v → v ≠ "" →
  rendered_subscribed (initForms s).
Proof.
  intros Hfm Hv Hne. unfold initForms. rewrite Hfm. simpl. rewrite Hv. simpl.
  rewrite (proj2 (String.eqb_neq v "") Hne). simpl.
  unfold updateNewsletterFormState. simpl. rewrite Hfm. eexists. by split.
Qed.

Lemma trackPageView_rendered_subscribed (env : environment) (s : state) :
  rendered_subscribed s → rendered_subscribed (fst (trackPageView env s)).
Proof.
  destruct (trackPageView_frame env s) as (_ & _ & _ & _ & _ & F & _).
  unfold rendered_subscribed. by rewrite F.
Qed.

Lemma init_renders_subscribed (s : state) (fm : form) (v : string) :
  newsletterForm s = Some fm →
  localStorage s !! CONFIG_storage_newsletterSubscribed = Some v → v ≠ "" →
  snd (init s) = Normal →
  rendered_subscribed (fst (init s)).
Proof.
  intros Hfm Hv Hne. unfold init.
  pose proof (initTheme_keeps_form s) as HF. destruct (initTheme_frame s) as [_ HL].
  destruct (initTheme s) as [s1 [| e]]; simpl in *; [| done].
  intros _. apply trackPageView_rendered_subscribed.
  apply (initForms_truthy_flag s1 fm v); [congruence | | done].
  rewrite HL, lookup_insert_ne; done.
Qed.

(** A turn of the event loop leaves the subscribed flag as it is or sets it
    to ["true"]. *)
Lemma step_flag_as_written (ev : event) (s s' : state) :
  flag_as_written s → step ev s = Some s' → flag_as_written s'.
Proof.
  intros Hflag Hstep.
  assert (Hsame : ∀ x, localStorage x !! CONFIG_storage_newsletterSubscribed
                       = localStorage s !! CONFIG_storage_newsletterSubscribed
                       → flag_as_written x).
  { intros x E v. rewrite E. apply Hflag. }
  destruct ev; simpl in Hstep.
  - injection Hstep as <-. apply Hsame. by rewrite init_other_key.
  - injection Hstep as <-. apply Hsame. case_match; [| done].
    unfold onSystemThemeChange. case_match; [| done]. by rewrite setTheme_other_key.
  - injection Hstep as <-. apply Hsame. unfold toggleTheme. by rewrite setTheme_other_key.
  - injection Hstep as <-. apply Hsame. by rewrite setTheme_other_key.
  - injection Hstep as <-. by apply Hsame.
  - injection Hstep as <-. by apply Hsame.
  - destruct (newsletterForm s) as [fm |]; [| done].
    destruct (input_disabled (form_email fm)); [done |]. injection Hstep as <-. by apply Hsame.
  - case_match; [| done]. injection Hstep as <-. apply Hsame.
    replace (localStorage (handleNewsletterSubmit s)) with (localStorage s); [done |].
    by_fields.
  - case_match; [| done]. injection Hstep as <-. by apply Hsame.
  - destruct (timers s !! i) as [t |]; [| done].
    case_match; [| done]. injection Hstep as <-.
    destruct (timer_cb t) as [id | id | id | id | endpoint data [email]]; simpl.
    + by apply Hsame.
    + case_match; by apply Hsame.
    + case_match; by apply Hsame.
    + case_match; by apply Hsame.
    + intros v.
      match goal with |- context [handleNewsletterSubmit_resume ?e ?r ?x] =>
        destruct (handleNewsletterSubmit_resume_frame e r x) as (_ & _ & _ & ->) end.
      destruct (api_settle random data); [| apply Hflag].
      rewrite lookup_insert_eq. congruence.
Qed.

Lemma run_flag_as_written (evs : list event) (s s' : state) :
  flag_as_written s → run evs s = Some s' → flag_as_written s'.
Proof.
  revert s. induction evs as [| ev evs IH]; intros s Hflag Hrun; simpl in Hrun.
  - by injection Hrun as <-.
  - destruct (step ev s) as [s1 |] eqn:Hstep; [| done].
    apply (IH s1); [| done]. by apply (step_flag_as_written ev s).
Qed.

(** ** Initialisation of the forms *)

(** C8: in every execution of the page, starting from a profile in which
    the subscribed flag is absent or as an earlier visit has left it, once
    the flag is present in local storage an initialisation renders the
    newsletter form of the page with the email input and the submit button
    disabled and the placeholder "You are already subscribed!":
    [initForms], and [init] when [initTheme] completes, on the page as it
    is and on every later load of a page that has the form. *)
Theorem initForms_disables_subscribed_form
    (s : state) (evs : list event) (s' page : state) (dark : bool) :
  flag_as_written s →
  run evs s = Some s' →
  is_Some (localStorage s' !! CONFIG_storage_newsletterSubscribed) →
  (is_Some (newsletterForm s') →
   rendered_subscribed (initForms s')
   ∧ (snd (init s') = Normal → rendered_subscribed (fst (init s'))))
  ∧ (is_Some (newsletterForm page) →
     rendered_subscribed (initForms (later_load page s' dark))
     ∧ (snd (init (later_load page s' dark)) = Normal →
        rendered_subscribed (fst (init (later_load page s' dark))))).
Proof.
  intros Hflag Hrun [v Hv].
  pose proof (run_flag_as_written evs s s' Hflag Hrun v Hv) as ->.
  split.
  - intros [fm Hfm]. split.
    + by apply (initForms_truthy_flag s' fm "true").
    + by apply (init_renders_subscribed s' fm "true").
  - intros [fm Hfm]. split.
    + by apply (initForms_truthy_flag (later_load page s' dark) fm "true").
    + by apply (init_renders_subscribed (later_load page s' dark) fm "true").
Qed.

Lemma initForms_disables_witness :
  ∃ s', run [CallInit; EditEmail (units "user@example.com"); SubmitNewsletter;
             Elapse 1500; Fire 1 (1 # 2)%Q] first_visit = Some s'
        ∧ rendered_subscribed (initForms (later_load first_visit s' false)).
Proof.
  match goal with |- ∃ s', ?r = Some s' ∧ _ => destruct r as [s' |] eqn:E end.
  - exists s'. split; [reflexivity |].
    assert (Hs : is_Some (localStorage s' !! CONFIG_storage_newsletterSubscribed)).
    { vm_compute in E. injection E as <-. by eexists. }
    assert (H0 : flag_as_written first_visit) by (intros v Hv; discriminate Hv).
    destruct (initForms_disables_subscribed_form first_visit _ s' first_visit false H0 E Hs)
      as [_ H].
    apply H. by eexists.
  - vm_compute in E. discriminate E.
Defined.

(** The test of [initForms] is the truth value of what [getItem] returns:
    in a store edited by other means, so that the flag holds the empty
    string, the flag is present and the form stays enabled. *)
Remark initForms_empty_flag_leaves_form_enabled :
  let s := set_localStorage (<[CONFIG_storage_newsletterSubscribed := ""]> ∅) first_visit in
  is_Some (localStorage s !! CONFIG_storage_newsletterSubscribed)
  ∧ newsletterForm s = Some sample_form
  ∧ ¬ rendered_subscribed (initForms s).
Proof.
  cbv zeta. split; [by eexists |]. split; [reflexivity |].
  intros (fm & Hfm & Hd & _). vm_compute in Hfm. injection Hfm as <-. discriminate Hd.
Qed.

(** X8: a subscription lasts.  Once the simulated call has resolved, the
    subscribed flag holds ["true"] after every further run of the event loop
    (theme changes, later submissions that fail, timers), so every later
    [initForms], and every later [init] that completes, renders the form
    disabled with the placeholder "You are already subscribed!". *)
Theorem subscription_lasts
    (email : jsstring) (ok : bool) (data : payload) (s : state)
    (evs : list event) (s' : state) :
  run evs (handleNewsletterSubmit_resume email (Resolved ok data) s) = Some s' →
  localStorage s' !! CONFIG_storage_newsletterSubscribed = Some "true"
  ∧ (is_Some (newsletterForm s') → rendered_subscribed (initForms s'))
  ∧ (is_Some (newsletterForm s') → snd (init s') = Normal →
     rendered_subscribed (fst (init s'))).
Proof.
  intros Hrun.
  assert (Hsub : localStorage s' !! CONFIG_storage_newsletterSubscribed = Some "true").
  { assert (H0 : localStorage (handleNewsletterSubmit_resume email (Resolved ok data) s)
                 !! CONFIG_storage_newsletterSubscribed = Some "true").
    { destruct (handleNewsletterSubmit_resume_frame email (Resolved ok data) s)
        as (_ & _ & _ & ->). apply lookup_insert_eq. }
    revert H0 Hrun. generalize (handleNewsletterSubmit_resume email (Resolved ok data) s).
    induction evs as [| ev evs IH]; intros s0 H0 Hrun; simpl in Hrun.
    - by injection Hrun as <-.
    - destruct (step ev s0) as [s1 |] eqn:Hstep; [| done].
      apply (IH s1); [| done]. by apply (step_keeps_subscribed ev s0). }
  split; [done |]. split.
  - intros [fm Hfm]. by apply (initForms_truthy_flag s' fm "true").
  - intros [fm Hfm] Hn. by apply (init_renders_subscribed s' fm "true").
Qed.

Lemma subscription_lasts_witness :
  ∃ s', run [CallToggleTheme; SystemThemeChange true; CallInit]
          (handleNewsletterSubmit_resume [] (Resolved true (Payload [] 0)) first_visit)
        = Some s'
        ∧ rendered_subscribed (initForms s').
Proof.
  match goal with |- ∃ s', ?r = Some s' ∧ _ => destruct r as [s' |] eqn:E end.
  - exists s'. split; [reflexivity |].
    destruct (subscription_lasts _ _ _ _ _ _ E) as (_ & H & _). apply H.
    vm_compute in E. injection E as <-. by eexists.
  - vm_compute in E. discriminate E.
Defined.

(** ** Analytics: the first visit *)

Lemma step_other_keys (ev : event) (s s' : state) (k : string) :
  k ≠ CONFIG_storage_theme → k ≠ CONFIG_storage_newsletterSubscribed →
  (k = CONFIG_storage_visitedBefore → truthy (localStorage s !! k) = true) →
  step ev s = Some s' →
  localStorage s' !! k = localStorage s !! k.
Proof.
  intros Hk1 Hk2 Hk3 Hstep. destruct ev; simpl in Hstep.
  - injection Hstep as <-. by rewrite init_other_key.
  - injection Hstep as <-. case_match; [| done].
    unfold onSystemThemeChange. case_match; [| done]. by rewrite setTheme_other_key.
  - injection Hstep as <-. unfold toggleTheme. by rewrite setTheme_other_key.
  - injection Hstep as <-. by rewrite setTheme_other_key.
  - by injection Hstep as <-.
  - by injection Hstep as <-.
  - destruct (newsletterForm s) as [fm |]; [| done].
    destruct (input_disabled (form_email fm)); [done |]. by injection Hstep as <-.
  - case_match; [| done]. injection Hstep as <-.
    replace (localStorage (handleNewsletterSubmit s)) with (localStorage s); [done |].
    by_fields.
  - case_match; [| done]. by injection Hstep as <-.
  - destruct (timers s !! i) as [t |]; [| done].
    case_match; [| done]. injection Hstep as <-.
    destruct (timer_cb t) as [id | id | id | id | endpoint data [email]]; simpl.
    + done.
    + by case_match.
    + by case_match.
    + by case_match.
    + match goal with |- context [handleNewsletterSubmit_resume ?e ?r ?x] =>
        destruct (handleNewsletterSubmit_resume_frame e r x) as (_ & _ & _ & ->) end.
      destruct (api_settle random data); [by rewrite lookup_insert_ne | done].
Qed.

Lemma run_other_keys (evs : list event) (s s' : state) (k : string) :
  k ≠ CONFIG_storage_theme → k ≠ CONFIG_storage_newsletterSubscribed →
  (k = CONFIG_storage_visitedBefore → truthy (localStorage s !! k) = true) →
  run evs s = Some s' →
  localStorage s' !! k = localStorage s !! k.
Proof.
  intros Hk1 Hk2. revert s.
  induction evs as [| ev evs IH]; intros s Hk3 Hrun; simpl in Hrun.
  - by injection Hrun as <-.
  - destruct (step ev s) as [s1 |] eqn:Hstep; [| done].
    pose proof (step_other_keys ev s s1 k Hk1 Hk2 Hk3 Hstep) as H1.
    rewrite (IH s1); [done | by rewrite H1 | done].
Qed.

Lemma trackPageView_visited (env : environment) (s : state) :
  truthy (localStorage (fst (trackPageView env s)) !! CONFIG_storage_visitedBefore) = true.
Proof.
  unfold trackPageView. cbv zeta.
  destruct (truthy (localStorage s !! CONFIG_storage_visitedBefore)) eqn:Hv; simpl.
  - done.
  - by rewrite lookup_insert_eq.
Qed.

Lemma init_visited (s : state) :
  snd (init s) = Normal →
  truthy (localStorage (fst (init s)) !! CONFIG_storage_visitedBefore) = true.
Proof.
  unfold init. destruct (initTheme s) as [s1 [| e]]; simpl; [| done].
  intros _. apply trackPageView_visited.
Qed.

(** X9: a browser profile is counted as a first visit once.
    [trackPageView] logs [first_visit] exactly when the visited flag is
    absent or empty, and then stores the flag; the [page_view] record says so
    in [is_first_visit].  After one call, and so after an [init] that has
    completed, whatever the page does next (further calls of [init], which
    track a page view each, included), every later [trackPageView] logs one
    [page_view] record with [is_first_visit] false, logs no [first_visit]
    and stores nothing. *)
Theorem first_visit_is_tracked_once (env : environment) (s : state) :
  let visitedBefore := localStorage s !! CONFIG_storage_visitedBefore in
  ((λ r : gmap string jsval, r !! "event") <$> snd (trackPageView env s)
   = if truthy visitedBefore
     then [Some (VStr "page_view")]
     else [Some (VStr "page_view"); Some (VStr "first_visit")])
  ∧ ((λ r : gmap string jsval, r !! "is_first_visit") <$> snd (trackPageView env s)
     = if truthy visitedBefore
       then [Some (VBool false)]
       else [Some (VBool true); None])
  ∧ (localStorage (fst (trackPageView env s)) !! CONFIG_storage_visitedBefore
     = if truthy visitedBefore then visitedBefore else Some "true")
  ∧ (∀ (env' : environment) (evs : list event) (s' : state),
       run evs (fst (trackPageView env s)) = Some s' →
       fst (trackPageView env' s') = s'
       ∧ (λ r : gmap string jsval, r !! "event") <$> snd (trackPageView env' s')
         = [Some (VStr "page_view")]
       ∧ (λ r : gmap string jsval, r !! "is_first_visit") <$> snd (trackPageView env' s')
         = [Some (VBool false)])
  ∧ (∀ (env' : environment) (evs : list event) (s' : state),
       snd (init s) = Normal →
       run evs (fst (init s)) = Some s' →
       fst (trackPageView env' s') = s'
       ∧ (λ r : gmap string jsval, r !! "event") <$> snd (trackPageView env' s')
         = [Some (VStr "page_view")]
       ∧ (λ r : gmap string jsval, r !! "is_first_visit") <$> snd (trackPageView env' s')
         = [Some (VBool false)]).
Proof.
  cbv zeta. split; [| split; [| split; [| split]]].
  - unfold trackPageView. cbv zeta.
    destruct (truthy (localStorage s !! CONFIG_storage_visitedBefore)); reflexivity.
  - unfold trackPageView. cbv zeta.
    destruct (truthy (localStorage s !! CONFIG_storage_visitedBefore)); reflexivity.
  - unfold trackPageView. cbv zeta.
    destruct (truthy (localStorage s !! CONFIG_storage_visitedBefore)); simpl;
      [done | by rewrite lookup_insert_eq].
  - intros env' evs s' Hrun.
    assert (Hv : truthy (localStorage s' !! CONFIG_storage_visitedBefore) = true).
    { rewrite (run_other_keys evs (fst (trackPageView env s)) s'
                 CONFIG_storage_visitedBefore);
        [| done | done | intros _ | done]; apply trackPageView_visited. }
    unfold trackPageView. cbv zeta. rewrite Hv. done.
  - intros env' evs s' Hn Hrun.
    assert (Hv : truthy (localStorage s' !! CONFIG_storage_visitedBefore) = true).
    { rewrite (run_other_keys evs (fst (init s)) s' CONFIG_storage_visitedBefore);
        [| done | done | intros _ | done]; by apply init_visited. }
    unfold trackPageView. cbv zeta. rewrite Hv. done.
Qed.

Lemma first_visit_witness :
  ∃ s', run [CallToggleTheme; CallInit; Elapse 1000] (fst (init first_visit)) = Some s'
        ∧ (λ r : gmap string jsval, r !! "event")
            <$> snd (trackPageView
                       (Environment "https://devhubxcloud.github.io/" "" "UA" "Blog" "/") s')
          = [Some (VStr "page_view")].
Proof.
  match goal with |- ∃ s', ?r = Some s' ∧ _ => destruct r as [s' |] eqn:E end.
  - exists s'. split; [reflexivity |].
    destruct (first_visit_is_tracked_once
                (Environment "https://devhubxcloud.github.io/" "" "UA" "Blog" "/")
                first_visit) as (_ & _ & _ & _ & H).
    by destruct (H (Environment "https://devhubxcloud.github.io/" "" "UA" "Blog" "/")
                   _ s' eq_refl E) as (_ & -> & _).
  - vm_compute in E. discriminate E.
Defined.

(** ** [throttle] *)

Section Throttle.
Context {A T : Type}.
Variable func : A → T → T.
Variable limit : Z.

Lemma throttle_step_inv (ev : rl_event A) (t t' : throttled T) :
  throttle_inv t → throttle_step func limit ev t = Some t' → throttle_inv t'.
Proof.
  intros Hinv Hstep. destruct ev as [args | dt | i]; simpl in Hstep.
  - injection Hstep as <-. unfold throttle_call.
    destruct Hinv as [[Hf Ht] | [Hf Ht]]; rewrite Hf; simpl; [| by right].
    right. rewrite Ht. split; [done |]. by eexists.
  - destruct (0 <=? dt)%Z; [| done]. by injection Hstep as <-.
  - destruct (th_timers t !! i) as [d |] eqn:Hi; [| done].
    destruct (d <=? th_now t)%Z; [| done]. injection Hstep as <-.
    left. simpl. split; [done |].
    destruct Hinv as [[_ Ht] | [_ [d' Ht]]]; rewrite Ht in *; [done |].
    destruct i; [done |]. by rewrite lookup_cons_ne_0, lookup_nil in Hi.
Qed.

Lemma throttle_run_inv (evs : list (rl_event A)) (t t' : throttled T) :
  throttle_inv t → throttle_run func limit evs t = Some t' → throttle_inv t'.
Proof.
  revert t. induction evs as [| ev evs IH]; intros t Hinv Hrun; simpl in Hrun.
  - by injection Hrun as <-.
  - destruct (throttle_step func limit ev t) as [t1 |] eqn:Hstep; [| done].
    apply (IH t1); [| done]. by apply (throttle_step_inv ev t).
Qed.

Lemma throttle_step_held (ev : rl_event A) (t t' : throttled T) (d : Z) (x : T) :
  throttle_step func limit ev t = Some t' →
  (th_now t ≤ th_now t')%Z
  ∧ (held_until d x t → (th_now t' < d)%Z → held_until d x t').
Proof.
  intros Hstep. destruct ev as [args | dt | i]; simpl in Hstep.
  - injection Hstep as <-. unfold throttle_call.
    destruct (inThrottle t) eqn:Hf; simpl; [by split |].
    split; [done |]. intros (Hf' & _). congruence.
  - destruct (0 <=? dt)%Z eqn:Hdt; [| done]. injection Hstep as <-. simpl.
    apply Z.leb_le in Hdt. split; [lia | done].
  - destruct (th_timers t !! i) as [d' |] eqn:Hi; [| done].
    destruct (d' <=? th_now t)%Z eqn:Hd; [| done]. injection Hstep as <-. simpl.
    apply Z.leb_le in Hd. split; [done |].
    intros (_ & Ht & _) Hlt. rewrite Ht in Hi.
    destruct i; simpl in Hi; [| by rewrite lookup_nil in Hi].
    injection Hi as <-. lia.
Qed.

Lemma throttle_run_held (evs : list (rl_event A)) (t t' : throttled T) (d : Z) (x : T) :
  throttle_run func limit evs t = Some t' →
  (th_now t ≤ th_now t')%Z
  ∧ (held_until d x t → (th_now t' < d)%Z → held_until d x t').
Proof.
  revert t. induction evs as [| ev evs IH]; intros t Hrun; simpl in Hrun.
  - injection Hrun as <-. split; [lia | done].
  - destruct (throttle_step func limit ev t) as [t1 |] eqn:Hstep; [| done].
    destruct (throttle_step_held ev t t1 d x Hstep) as [N1 P1].
    destruct (IH t1 Hrun) as [N2 P2].
    split; [lia |]. intros Hh Hlt. apply P2; [| done]. apply P1; [done | lia].
Qed.

(** X10: a throttled function runs [func] at most once in any window of
    [limit] ms.  Whatever has happened to the function since it was made,
    when a call finds it free and runs [func], then until [limit] ms have
    passed no call runs [func] again, however many calls are made and
    whatever timers fire; and at every moment at most one reset timer is
    pending. *)
Theorem throttle_runs_once_per_window
    (clock : Z) (x : T) (before : list (rl_event A)) (t : throttled T) (args : A) :
  throttle_run func limit before (throttle clock x) = Some t →
  inThrottle t = false →
  th_target (throttle_call func limit args t) = func args (th_target t)
  ∧ (∀ evs t', throttle_run func limit evs (throttle_call func limit args t) = Some t' →
       (length (th_timers t') ≤ 1)%nat
       ∧ ((th_now t' < th_now t + limit)%Z →
          th_target t' = func args (th_target t) ∧ inThrottle t' = true)).
Proof.
  intros Hbefore Hfree.
  assert (Hinv : throttle_inv t).
  { apply (throttle_run_inv before (throttle clock x)); [by left | done]. }
  assert (Hempty : th_timers t = []).
  { destruct Hinv as [[_ ?] | [? _]]; [done | congruence]. }
  assert (Hheld : held_until (th_now t + limit) (func args (th_target t))
                    (throttle_call func limit args t)).
  { unfold throttle_call, held_until. rewrite Hfree, Hempty. done. }
  split; [by destruct Hheld as (_ & _ & ?) |].
  intros evs t' Hrun. split.
  - assert (Hinv' : throttle_inv t').
    { apply (throttle_run_inv evs (throttle_call func limit args t)); [| done].
      right. destruct Hheld as (? & ? & _). split; [done | by eexists]. }
    destruct Hinv' as [[_ ->] | [_ [d ->]]]; simpl; lia.
  - intros Hlt.
    destruct (throttle_run_held evs _ t' (th_now t + limit)%Z (func args (th_target t)) Hrun)
      as [_ P].
    destruct (P Hheld) as (? & _ & ?); [| done].
    replace (th_now (throttle_call func limit args t)) with (th_now t) in *; [done |].
    unfold throttle_call. by rewrite Hfree.
Qed.

(** X11: of a burst of calls only the first runs [func].  From a fresh
    throttled function, after a first call and any number of further calls
    while no timer has fired, [func] has run once, with the arguments of
    the first call: the later calls are dropped, none is kept for later.
    Once [limit] ms have passed and the reset has fired, the next call runs
    [func] again. *)
Theorem throttle_keeps_first_call_of_burst
    (clock : Z) (x : T) (first : A) (burst : list (rl_event A)) (t : throttled T) :
  Forall (λ ev, is_fire ev = false) burst →
  throttle_run func limit (RlCall first :: burst) (throttle clock x) = Some t →
  th_target t = func first x
  ∧ th_timers t = [(clock + limit)%Z]
  ∧ (∀ (next : A) (dt : Z),
       (limit ≤ dt)%Z → (0 ≤ dt)%Z →
       ∃ t', throttle_run func limit [RlElapse dt; RlFire 0; RlCall next] t = Some t'
             ∧ th_target t' = func next (func first x)).
Proof.
  intros Hburst Hrun. simpl in Hrun.
  assert (Hgen : ∀ t0, held_until (clock + limit) (func first x) t0 →
            (clock ≤ th_now t0)%Z →
            throttle_run func limit burst t0 = Some t →
            held_until (clock + limit) (func first x) t ∧ (clock ≤ th_now t)%Z).
  { clear Hrun. induction Hburst as [| ev burst Hev _ IH]; intros t0 Hh Hn Hrun;
      simpl in Hrun.
    - by injection Hrun as <-.
    - destruct (throttle_step func limit ev t0) as [t1 |] eqn:Hstep; [| done].
      apply (IH t1); [| | done].
      + destruct ev as [args | dt | i]; [| | done]; simpl in Hstep.
        * injection Hstep as <-. unfold throttle_call.
          destruct Hh as (Hf & ?). by rewrite Hf.
        * destruct (0 <=? dt)%Z; [| done]. by injection Hstep as <-.
      + destruct (throttle_step_held ev t0 t1 0%Z x Hstep) as [? _]. lia. }
  destruct (Hgen (throttle_call func limit first (throttle clock x))) as [(Hf & Ht & Hx) Hn];
    [done | simpl; lia | done |].
  split; [done |]. split; [done |].
  intros next dt Hdt H0. simpl.
  rewrite (proj2 (Z.leb_le 0 dt) H0). simpl. rewrite Ht. simpl.
  rewrite (proj2 (Z.leb_le (clock + limit) (th_now t + dt)) ltac:(lia)).
  eexists. split; [reflexivity |]. unfold throttle_call. simpl. by rewrite Hx.
Qed.

End Throttle.

Lemma throttle_window_witness :
  th_target (throttle_call (λ (a : nat) (l : list nat), l ++ [a]) 100 7 (throttle 0 []))
  = [7].
Proof.
  destruct (throttle_runs_once_per_window (λ (a : nat) (l : list nat), l ++ [a]) 100
              0 [] [] (throttle 0 []) 7 eq_refl eq_refl) as [H _].
  exact H.
Defined.

Lemma throttle_burst_witness :
  ∃ t, throttle_run (λ (a : nat) (l : list nat), l ++ [a]) 100
         [RlCall 1; RlCall 2; RlElapse 50; RlCall 3] (throttle 0 []) = Some t
       ∧ th_target t = [1].
Proof.
  eexists. split; [reflexivity |].
  refine (proj1 (throttle_keeps_first_call_of_burst (λ (a : nat) (l : list nat), l ++ [a])
                   100 0 [] 1 [RlCall 2; RlElapse 50; RlCall 3] _ _ eq_refl)).
  repeat constructor.
Defined.

(** ** [debounce] *)

Section Debounce.
Context {A T : Type}.
Variable func : A → T → T.
Variable wait : Z.

Lemma clearTimeout_inv (d : debounced A T) :
  debounce_inv d → clearTimeout (timeout d) (db_timers d) = [].
Proof.
  intros [-> | (t & -> & ->)]; [done |].
  unfold clearTimeout. rewrite filter_cons, decide_False; [done |]. by intros ?.
Qed.

Lemma debounce_call_waiting (args : A) (d : debounced A T) :
  debounce_inv d →
  waiting_for (DbTimer (db_next d) (db_now d + wait) args) (db_target d)
    (debounce_call wait args d).
Proof.
  intros Hinv. unfold debounce_call, waiting_for. simpl.
  by rewrite (clearTimeout_inv d Hinv).
Qed.

Lemma waiting_for_inv (t : db_timer A) (x : T) (d : debounced A T) :
  waiting_for t x d → debounce_inv d.
Proof. intros (Ht & Hto & _). right. by exists t. Qed.

Lemma debounce_step_inv (ev : rl_event A) (d d' : debounced A T) :
  debounce_inv d → debounce_step func wait ev d = Some d' → debounce_inv d'.
Proof.
  intros Hinv Hstep. destruct ev as [args | dt | i]; simpl in Hstep.
  - injection Hstep as <-. eapply waiting_for_inv. by apply debounce_call_waiting.
  - destruct (0 <=? dt)%Z; [| done]. by injection Hstep as <-.
  - destruct (db_timers d !! i) as [t |] eqn:Hi; [| done].
    destruct (db_due t <=? db_now d)%Z; [| done]. injection Hstep as <-.
    left. unfold debounce_later. simpl.
    destruct Hinv as [Ht | (t' & Ht & _)]; rewrite Ht in *; [done |].
    destruct i; [done |]. by rewrite lookup_cons_ne_0, lookup_nil in Hi.
Qed.

Lemma debounce_run_inv (evs : list (rl_event A)) (d d' : debounced A T) :
  debounce_inv d → debounce_run func wait evs d = Some d' → debounce_inv d'.
Proof.
  revert d. induction evs as [| ev evs IH]; intros d Hinv Hrun; simpl in Hrun.
  - by injection Hrun as <-.
  - destruct (debounce_step func wait ev d) as [d1 |] eqn:Hstep; [| done].
    apply (IH d1); [| done]. by apply (debounce_step_inv ev d).
Qed.

Lemma debounce_step_quiet (ev : rl_event A) (d d' : debounced A T) (t0 : Z) (x : T) :
  debounce_step func wait ev d = Some d' →
  (db_now d ≤ db_now d')%Z
  ∧ (quiet_since wait t0 x d → (db_now d' < t0 + wait)%Z → quiet_since wait t0 x d').
Proof.
  intros Hstep. destruct ev as [args | dt | i]; simpl in Hstep.
  - injection Hstep as <-. split; [done |].
    intros (Hn & t & Hw & Hd) _. split; [done |].
    pose proof (debounce_call_waiting args d (waiting_for_inv t x d Hw)) as Hw'.
    destruct Hw as (_ & _ & <-). eexists. split; [exact Hw' |]. simpl. lia.
  - destruct (0 <=? dt)%Z eqn:Hdt; [| done]. injection Hstep as <-. simpl.
    apply Z.leb_le in Hdt. split; [lia |].
    intros (Hn & t & Hw & Hd) _. split; [simpl; lia |]. by exists t.
  - destruct (db_timers d !! i) as [t |] eqn:Hi; [| done].
    destruct (db_due t <=? db_now d)%Z eqn:Hdue; [| done]. injection Hstep as <-.
    apply Z.leb_le in Hdue. split; [done |].
    intros (Hn & t' & (Ht & _) & Hd) Hlt. simpl in Hlt. rewrite Ht in Hi.
    destruct i; simpl in Hi; [| by rewrite lookup_nil in Hi].
    injection Hi as <-. lia.
Qed.

Lemma debounce_run_quiet (evs : list (rl_event A)) (d d' : debounced A T) (t0 : Z) (x : T) :
  debounce_run func wait evs d = Some d' →
  (db_now d ≤ db_now d')%Z
  ∧ (quiet_since wait t0 x d → (db_now d' < t0 + wait)%Z → quiet_since wait t0 x d').
Proof.
  revert d. induction evs as [| ev evs IH]; intros d Hrun; simpl in Hrun.
  - injection Hrun as <-. split; [lia | done].
  - destruct (debounce_step func wait ev d) as [d1 |] eqn:Hstep; [| done].
    destruct (debounce_step_quiet ev d d1 t0 x Hstep) as [N1 P1].
    destruct (IH d1 Hrun) as [N2 P2].
    split; [lia |]. intros Hq Hlt. apply P2; [| done]. apply P1; [done | lia].
Qed.

(** X12: a debounced function does not run [func] until [wait] ms have
    passed since the latest call.  Whatever has happened to the function
    since it was made, after a call at the instant [t0] and any further
    events, as long as the clock is before [t0 + wait] the function has not
    run [func]; and at every moment at most one timer is pending, each call
    having cleared the timer of the call before. *)
Theorem debounce_waits_for_quiet
    (clock : Z) (x : T) (before : list (rl_event A)) (d : debounced A T) (args : A) :
  debounce_run func wait before (debounce clock x) = Some d →
  ∀ evs d', debounce_run func wait evs (debounce_call wait args d) = Some d' →
    (length (db_timers d') ≤ 1)%nat
    ∧ ((db_now d' < db_now d + wait)%Z → db_target d' = db_target d).
Proof.
  intros Hbefore evs d' Hrun.
  assert (Hinv : debounce_inv d).
  { apply (debounce_run_inv before (debounce clock x)); [by left | done]. }
  pose proof (debounce_call_waiting args d Hinv) as Hw.
  split.
  - assert (Hinv' : debounce_inv d').
    { apply (debounce_run_inv evs (debounce_call wait args d)); [| done].
      by eapply waiting_for_inv. }
    destruct Hinv' as [-> | (t & -> & _)]; simpl; lia.
  - intros Hlt.
    destruct (debounce_run_quiet evs _ d' (db_now d) (db_target d) Hrun) as [_ P].
    destruct P as (_ & t & (_ & _ & Hx) & _); [| done | done].
    split; [simpl; lia |]. eexists. split; [exact Hw |]. simpl. lia.
Qed.

(** X13: of a burst of calls only the last one counts.  From a fresh
    debounced function, while calls are made and time passes without a
    timer firing, [func] is not run; when then a last call is followed by
    [wait] ms or more, its timer can fire, and [func] has then run exactly
    once, with the arguments of that last call, and no timer is left. *)
Theorem debounce_runs_last_call_of_burst
    (clock : Z) (x : T) (burst : list (rl_event A)) (d : debounced A T) :
  Forall (λ ev, is_fire ev = false) burst →
  debounce_run func wait burst (debounce clock x) = Some d →
  db_target d = x
  ∧ (∀ (last : A) (dt : Z),
       (wait ≤ dt)%Z → (0 ≤ dt)%Z →
       ∃ d', debounce_run func wait [RlCall last; RlElapse dt; RlFire 0] d = Some d'
             ∧ db_target d' = func last x
             ∧ db_timers d' = []).
Proof.
  intros Hburst Hrun.
  assert (Hinv : debounce_inv d).
  { apply (debounce_run_inv burst (debounce clock x)); [by left | done]. }
  assert (Hx : db_target d = x).
  { change x with (db_target (debounce (A:=A) clock x)).
    revert Hrun. generalize (debounce (A:=A) clock x).
    induction Hburst as [| ev burst Hev _ IH]; intros d0 Hrun; simpl in Hrun.
    - by injection Hrun as <-.
    - destruct (debounce_step func wait ev d0) as [d1 |] eqn:Hstep; [| done].
      rewrite (IH d1 Hrun).
      destruct ev as [args | dt | i]; [| | done]; simpl in Hstep.
      + by injection Hstep as <-.
      + destruct (0 <=? dt)%Z; [| done]. by injection Hstep as <-. }
  split; [done |]. intros last dt Hdt H0. simpl.
  rewrite (proj2 (Z.leb_le 0 dt) H0). simpl.
  rewrite (clearTimeout_inv d Hinv). simpl.
  rewrite (proj2 (Z.leb_le (db_now d + wait) (db_now d + dt)) ltac:(lia)).
  eexists. split; [reflexivity |]. unfold debounce_later. simpl. by rewrite Hx.
Qed.

End Debounce.

Lemma debounce_quiet_witness :
  db_target (debounce_call (T:=list nat) 300 7 (debounce 0 [])) = [].
Proof.
  destruct (debounce_waits_for_quiet (λ (a : nat) (l : list nat), l ++ [a]) 300
              0 [] [] (debounce 0 []) 7 eq_refl [] _ eq_refl) as [_ H].
  apply H. simpl. lia.
Defined.

Lemma debounce_burst_witness :
  ∃ d', debounce_run (λ (a : nat) (l : list nat), l ++ [a]) 300
          [RlCall 1; RlElapse 100; RlCall 2; RlCall 3; RlElapse 300; RlFire 0]
          (debounce 0 []) = Some d'
        ∧ db_target d' = [3].
Proof.
  destruct (debounce_runs_last_call_of_burst (λ (a : nat) (l : list nat), l ++ [a]) 300
              0 [] [RlCall 1; RlElapse 100; RlCall 2] _ ltac:(repeat constructor) eq_refl)
    as [_ H].
  destruct (H 3 300%Z ltac:(lia) ltac:(lia)) as (d' & Hrun & Ht & _).
  exists d'. split; [exact Hrun | exact Ht].
Defined.

(** ** [calculateReadingTime] *)

Lemma split_whitespace_from_length (in_gap : bool) (piece text : jsstring) :
  1 ≤ length (split_whitespace_from in_gap piece text).
Proof.
  revert in_gap piece. induction text as [| c rest IH]; intros in_gap piece; simpl.
  - lia.
  - destruct (is_space c); [destruct in_gap |]; simpl; try apply IH. lia.
Qed.

Lemma ceil_quotient_bounds (a b : nat) :
  0 < b → a ≤ b * ceil_quotient a b ∧ b * ceil_quotient a b < a + b.
Proof.
  intros Hb. unfold ceil_quotient.
  pose proof (Nat.div_mod_eq a b) as E. pose proof (Nat.mod_upper_bound a b ltac:(lia)) as U.
  destruct (a mod b =? 0) eqn:Hm.
  - apply Nat.eqb_eq in Hm. nia.
  - apply Nat.eqb_neq in Hm. nia.
Qed.

(** X14: the reading time is [Math.ceil(words / 200)] minutes, where
    [words] is the number of pieces [split] returns, which is at least one:
    every text, the empty one included, reads "N min read" with [N] at
    least 1, [N] being the least number of minutes that covers [words] at
    200 a minute. *)
Theorem reading_time_is_at_least_one_minute (text : jsstring) :
  let words := length (split_whitespace text) in
  ∃ minutes,
    calculateReadingTime text = pretty minutes +:+ " min read"
    ∧ 1 ≤ words
    ∧ 1 ≤ minutes
    ∧ words ≤ 200 * minutes ∧ 200 * minutes < words + 200.
Proof.
  cbv zeta. exists (ceil_quotient (length (split_whitespace text)) 200).
  pose proof (split_whitespace_from_length false [] text) as Hw.
  fold (split_whitespace text) in Hw.
  destruct (ceil_quotient_bounds (length (split_whitespace text)) 200 ltac:(lia)) as [H1 H2].
  split; [reflexivity |]. repeat split; lia.
Qed.

Lemma split_word (in_gap : bool) (piece word tail : jsstring) :
  Forall (λ c, is_space c = false) word →
  split_whitespace_from in_gap piece (word ++ tail)
  = match word with
    | [] => split_whitespace_from in_gap piece tail
    | _ => split_whitespace_from false (rev word ++ piece) tail
    end.
Proof.
  intros Hw. revert in_gap piece.
  induction Hw as [| c word Hc Hw IH]; intros in_gap piece; [done |].
  simpl. rewrite Hc, IH. destruct word as [| c' word']; simpl.
  - done.
  - by rewrite <- !app_assoc.
Qed.

Lemma split_gap (gap tail : jsstring) :
  Forall (λ c, is_space c = true) gap →
  split_whitespace_from true [] (gap ++ tail) = split_whitespace_from true [] tail.
Proof. induction 1 as [| c gap Hc _ IH]; [done |]. simpl. by rewrite Hc. Qed.

Lemma split_join_gaps (in_gap : bool) (rest : list (jsstring * jsstring)) (first : jsstring) :
  words_and_gaps first rest →
  (in_gap = true → rest ≠ [] → first ≠ []) →
  split_whitespace_from in_gap [] (join_gaps first rest) = first :: (snd <$> rest).
Proof.
  revert in_gap first. induction rest as [| [gap word] rest IH]; intros in_gap first Hwf Hne.
  - simpl in *. destruct Hwf as [Hf _].
    rewrite <- (app_nil_r first) at 1. rewrite split_word by done.
    destruct first as [| c first']; [done |]. simpl.
    by rewrite app_nil_r, rev_app_distr, rev_involutive.
  - simpl in Hwf. destruct Hwf as (Hf & Hg & Hsp & Hw & Hwf). simpl join_gaps.
    rewrite split_word by done.
    destruct gap as [| g gap']; [done |]. apply Forall_cons in Hsp as [Hg1 Hsp].
    assert (Hrest : split_whitespace_from true [] (gap' ++ join_gaps word rest)
                    = word :: (snd <$> rest)).
    { rewrite split_gap by done. apply IH; [done | by intros _]. }
    destruct first as [| c first'].
    + destruct in_gap; [by specialize (Hne eq_refl ltac:(done)) |].
      simpl. rewrite Hg1. by rewrite Hrest.
    + simpl. rewrite Hg1, Hrest. f_equal.
      by rewrite app_nil_r, rev_app_distr, rev_involutive.
Qed.

(** X15: [split] gives back the words of a text.  For a text made of
    words without whitespace separated by runs of whitespace, the reading
    time counts exactly those words; a run of whitespace at the start or
    at the end of the text counts as one more, empty, word (the first or
    the last word of the decomposition is then empty), so that 200 words
    followed by a newline read as 2 minutes. *)
Theorem reading_time_counts_the_words
    (first : jsstring) (rest : list (jsstring * jsstring)) :
  words_and_gaps first rest →
  split_whitespace (join_gaps first rest) = first :: (snd <$> rest)
  ∧ calculateReadingTime (join_gaps first rest)
    = pretty (ceil_quotient (S (length rest)) 200) +:+ " min read".
Proof.
  intros Hwf.
  assert (Hs : split_whitespace (join_gaps first rest) = first :: (snd <$> rest)).
  { apply split_join_gaps; [done | discriminate]. }
  split; [done |]. unfold calculateReadingTime. cbv zeta. rewrite Hs. simpl length.
  by rewrite length_fmap.
Qed.

Lemma reading_time_counts_witness :
  split_whitespace (units "two words ") = [units "two"; units "words"; []].
Proof.
  refine (proj1 (reading_time_counts_the_words (units "two")
                   [(units " ", units "words"); (units " ", [])] _)).
  simpl. repeat split; try discriminate; try (intros _; discriminate);
    try (intros H; exfalso; by apply H); repeat constructor.
Defined.

(** ** [updateActiveNavLink] *)

Lemma classList_remove_not_elem (c : string) (l : list string) :
  c ∉ classList_remove c l.
Proof. unfold classList_remove. intros [Hne _]%list_elem_of_filter. done. Qed.

Lemma classList_remove_absent (c : string) (l : list string) :
  c ∉ l → classList_remove c l = l.
Proof.
  intros Hc. unfold classList_remove. induction l as [| x l IH]; [done |].
  apply not_elem_of_cons in Hc as [Hx Hl].
  rewrite filter_cons, decide_True by done. by rewrite IH.
Qed.

Lemma classList_add_elem (c x : string) (l : list string) :
  x ∈ classList_add c l ↔ x = c ∨ x ∈ l.
Proof.
  unfold classList_add. case_decide.
  - split; [by right | by intros [-> | ?]].
  - rewrite elem_of_app, list_elem_of_singleton. tauto.
Qed.

Lemma classList_remove_elem (c x : string) (l : list string) :
  x ∈ classList_remove c l ↔ x ≠ c ∧ x ∈ l.
Proof. unfold classList_remove. by rewrite list_elem_of_filter. Qed.

Lemma currentSection_app (p : Z) (l1 l2 : list pageSection) :
  currentSection p (l1 ++ l2)
  = foldl (λ cur sec, if in_view p sec then section_id sec else cur) (currentSection p l1) l2.
Proof. unfold currentSection. by rewrite foldl_app. Qed.

Lemma foldl_not_in_view (p : Z) (start : string) (l : list pageSection) :
  Forall (λ sec, in_view p sec = false) l →
  foldl (λ cur sec, if in_view p sec then section_id sec else cur) start l = start.
Proof.
  intros Hl. revert start. induction Hl as [| sec l Hs _ IH]; intros start; [done |].
  simpl. by rewrite Hs.
Qed.

Lemma currentSection_last (p : Z) (sections : list pageSection) :
  (Forall (λ sec, in_view p sec = false) sections ∧ currentSection p sections = "")
  ∨ (∃ before sec after,
       sections = before ++ sec :: after
       ∧ in_view p sec = true
       ∧ Forall (λ sec', in_view p sec' = false) after
       ∧ currentSection p sections = section_id sec).
Proof.
  induction sections as [| sec sections IH] using rev_ind.
  - left. by split.
  - rewrite currentSection_app. simpl. destruct (in_view p sec) eqn:Hv.
    + right. exists sections, sec, []. by repeat split.
    + destruct IH as [[Hall Hc] | (before & sec0 & after & -> & Hv0 & Hafter & Hc)].
      * left. split; [| done]. apply Forall_app. split; [done | by constructor].
      * right. exists before, sec0, (after ++ [sec]).
        rewrite <- app_assoc. repeat split; [done | | done].
        apply Forall_app. split; [done | by constructor].
Qed.

(** X16: after [updateActiveNavLink] a link is marked active exactly when
    its [href] is ["#"] followed by the identity of the current section,
    whatever was marked before.  The current section is the last section,
    in document order, that contains the position 100 px below the scroll
    offset; when no section contains it the identity is empty, and it is
    the links with [href="#"] that are marked. *)
Theorem active_links_point_to_last_section_in_view
    (scrollY : Z) (sections : list pageSection) (navLinks : list navLink) :
  let current := currentSection (scrollY + 100) sections in
  ((Forall (λ sec, in_view (scrollY + 100) sec = false) sections ∧ current = "")
   ∨ (∃ before sec after,
        sections = before ++ sec :: after
        ∧ (offsetTop sec ≤ scrollY + 100 < offsetTop sec + clientHeight sec)%Z
        ∧ Forall (λ sec', in_view (scrollY + 100) sec' = false) after
        ∧ current = section_id sec))
  ∧ length (updateActiveNavLink scrollY sections navLinks) = length navLinks
  ∧ (∀ i link link',
       navLinks !! i = Some link →
       updateActiveNavLink scrollY sections navLinks !! i = Some link' →
       link_href link' = link_href link
       ∧ (link_active link' ↔ link_href link = Some ("#" +:+ current))).
Proof.
  cbv zeta. split; [| split].
  - destruct (currentSection_last (scrollY + 100) sections)
      as [H | (before & sec & after & E & Hv & Hafter & Hc)]; [by left |].
    right. exists before, sec, after. repeat split; try done.
    all: unfold in_view in Hv; apply andb_true_iff in Hv as [H1 H2].
    + by apply Z.leb_le.
    + by apply Z.ltb_lt.
  - unfold updateActiveNavLink. by rewrite length_fmap.
  - intros i link link' Hi Hi'. unfold updateActiveNavLink in Hi'. cbv zeta in Hi'.
    rewrite list_lookup_fmap, Hi in Hi'. simpl in Hi'. injection Hi' as <-.
    split; [done |]. unfold link_active. simpl.
    pose proof (classList_remove_not_elem "active" (link_classList link)) as Hno.
    case_decide as Hh.
    + rewrite classList_add_elem. split; [done | by left].
    + split; [done | done].
Qed.

(** X17: [updateActiveNavLink] only touches the class [active]: every
    other class of every link is kept, and running it again at the same
    scroll offset changes nothing. *)
Theorem updateActiveNavLink_is_idempotent
    (scrollY : Z) (sections : list pageSection) (navLinks : list navLink) :
  updateActiveNavLink scrollY sections (updateActiveNavLink scrollY sections navLinks)
  = updateActiveNavLink scrollY sections navLinks
  ∧ (∀ i link link' c,
       navLinks !! i = Some link →
       updateActiveNavLink scrollY sections navLinks !! i = Some link' →
       c ≠ "active" →
       (c ∈ link_classList link' ↔ c ∈ link_classList link)).
Proof.
  split.
  - unfold updateActiveNavLink. cbv zeta. rewrite <- list_fmap_compose.
    apply list_fmap_ext. intros i link _. simpl.
    pose proof (classList_remove_not_elem "active" (link_classList link)) as Hno.
    case_decide as Hh; cbn [link_href link_classList].
    + rewrite ?decide_True by done. by rewrite classList_remove_add.
    + rewrite ?decide_False by done. by rewrite classList_remove_absent.
  - intros i link link' c Hi Hi' Hc. unfold updateActiveNavLink in Hi'. cbv zeta in Hi'.
    rewrite list_lookup_fmap, Hi in Hi'. simpl in Hi'. injection Hi' as <-. simpl.
    case_decide.
    + rewrite classList_add_elem, classList_remove_elem. tauto.
    + rewrite classList_remove_elem. tauto.
Qed.

Lemma active_links_witness :
  link_active (NavLink (Some "#home") ["nav-link"; "active"]).
Proof.
  destruct (active_links_point_to_last_section_in_view 0
              [PageSection "home" 0 600; PageSection "posts" 600 900]
              [NavLink (Some "#home") ["nav-link"];
               NavLink (Some "#posts") ["nav-link"; "active"]]) as (_ & _ & H).
  destruct (H 0 (NavLink (Some "#home") ["nav-link"])
              (NavLink (Some "#home") ["nav-link"; "active"]) eq_refl eq_refl) as [_ Hact].
  apply Hact. reflexivity.
Defined.

Lemma updateActiveNavLink_idempotent_witness :
  "nav-link" ∈ link_classList (NavLink (Some "#posts") ["nav-link"]).
Proof.
  destruct (updateActiveNavLink_is_idempotent 0
              [PageSection "home" 0 600; PageSection "posts" 600 900]
              [NavLink (Some "#home") ["nav-link"];
               NavLink (Some "#posts") ["nav-link"; "active"]]) as [_ H].
  apply (H 1 (NavLink (Some "#posts") ["nav-link"; "active"])
           (NavLink (Some "#posts") ["nav-link"]) "nav-link" eq_refl eq_refl).
  - discriminate.
  - simpl. rewrite !elem_of_cons. by left.
Defined.

(** ** Lazy loading *)

Lemma lazy_entry_unobserved (img : image) : img_observed (lazy_entry true img) = false.
Proof. done. Qed.

Lemma lazy_entries_waiting_or_loaded
    (watched : list image) (entries : list (nat * bool)) (imgs : list image) :
  waiting_or_loaded watched imgs → waiting_or_loaded watched (lazy_entries entries imgs).
Proof.
  unfold lazy_entries. revert imgs.
  induction entries as [| [j b] entries IH]; intros imgs Hinv; [done |].
  simpl. apply IH. destruct (imgs !! j) as [x |] eqn:Hj; [| done].
  destruct (img_observed x) eqn:Hobs; [| done].
  intros i img0 Hi. destruct (Hinv i img0 Hi) as (img' & Hi' & Hcase).
  destruct (decide (i = j)) as [-> | Hne].
  - rewrite Hj in Hi'. injection Hi' as ->.
    exists (lazy_entry b img'). split.
    + apply list_lookup_insert_eq. by eapply lookup_lt_Some.
    + destruct Hcase as [-> | [_ ->]]; [| by rewrite lazy_entry_unobserved in Hobs].
      destruct b; [right | left]; done.
  - exists img'. split; [| done]. by rewrite list_lookup_insert_ne.
Qed.

(** X18: with [IntersectionObserver], whatever entries the browser
    delivers and in whatever order, every image of the page is either still
    as [initLazyLoading] set it up, or has been loaded exactly once from
    that state: a loaded image is no longer observed, so no later entry
    touches it.  A loaded image has its non-empty [data-src] as [src] and
    its non-empty [data-srcset] as [srcset], those attributes removed, and
    the class [loaded]; an image with neither attribute is never touched. *)
Theorem lazy_images_load_once
    (images : list image) (entries : list (nat * bool)) (i : nat) (img : image) :
  images !! i = Some img →
  ∃ img0 img',
    initLazyLoading true images !! i = Some img0
    ∧ lazy_entries entries (initLazyLoading true images) !! i = Some img'
    ∧ (img' = img0 ∨ (img_observed img0 = true ∧ img' = lazy_entry true img0))
    ∧ (img_observed img = false →
       img_data_src img = None → img_data_srcset img = None → img' = img)
    ∧ (img' = lazy_entry true img0 →
       img_observed img' = false
       ∧ "loaded" ∈ img_classList img'
       ∧ (truthy (img_data_src img) = true →
          img_src img' = img_data_src img ∧ img_data_src img' = None)
       ∧ (truthy (img_data_srcset img) = true →
          img_srcset img' = img_data_srcset img ∧ img_data_srcset img' = None)).
Proof.
  intros Hi.
  pose proof (lazy_entries_waiting_or_loaded (initLazyLoading true images) entries
                (initLazyLoading true images)) as Hinv.
  assert (H0 : ∃ img0, initLazyLoading true images !! i = Some img0
                 ∧ img_data_src img0 = img_data_src img
                 ∧ img_data_srcset img0 = img_data_srcset img
                 ∧ (img_data_src img = None → img_data_srcset img = None → img0 = img)).
  { unfold initLazyLoading. rewrite list_lookup_fmap, Hi. simpl. eexists.
    split; [done |]. case_bool_decide as Hd.
    - simpl. repeat split; try done. intros E1 E2. rewrite E1, E2 in Hd.
      exfalso. destruct Hd as [[? ?] | [? ?]]; done.
    - done. }
  destruct H0 as (img0 & Hi0 & Ed & Es & Hplain).
  destruct (Hinv (λ j x Hj, ex_intro _ x (conj Hj (or_introl eq_refl))) i img0 Hi0)
    as (img' & Hi' & Hcase).
  exists img0, img'. split; [done |]. split; [done |]. split; [done |]. split.
  - intros Hobs E1 E2. rewrite (Hplain E1 E2) in Hcase.
    destruct Hcase as [-> | [Hobs' _]]; [done | congruence].
  - intros ->. unfold lazy_entry. rewrite Ed.
    destruct (truthy (img_data_src img)) eqn:T1; simpl; rewrite Es;
      destruct (truthy (img_data_srcset img)) eqn:T2; simpl;
      (split; [done |]); (split; [apply classList_add_elem; by left |]);
      split; try done; by rewrite ?Ed, ?Es.
Qed.

Lemma lazy_images_witness :
  ∃ img', lazy_entries [(0, false); (0, true); (0, true)]
            (initLazyLoading true [Image None None (Some "a.png") None [] false]) !! 0
          = Some img'
        ∧ img_src img' = Some "a.png".
Proof.
  destruct (lazy_images_load_once [Image None None (Some "a.png") None [] false]
              [(0, false); (0, true); (0, true)] 0 _ eq_refl)
    as (img0 & img' & _ & H' & _).
  exists img'. split; [exact H' |].
  vm_compute in H'. injection H' as <-. reflexivity.
Defined.

(** ** The contact form *)

Lemma is_empty_true (v : jsstring) : is_empty v = true ↔ v = [].
Proof. by destruct v. Qed.

Lemma contact_filled_test (form : contactForm) :
  is_empty (fd_name (contact_formData form)) || is_empty (fd_email (contact_formData form))
  || is_empty (fd_subject (contact_formData form))
  || is_empty (fd_message (contact_formData form)) = false
  ↔ contact_filled form.
Proof.
  unfold contact_filled. rewrite !orb_false_iff.
  assert (H : ∀ v : jsstring, is_empty v = false ↔ v ≠ []) by (intros []; split; done).
  rewrite !H. tauto.
Qed.

(** X20: [handleContactSubmit] checks the fields in a fixed order.  When
    one of the four fields is empty once trimmed (whitespace alone counts as
    empty), the toast is "Please fill in all required fields", whatever the
    email looks like; when all are filled and the trimmed email fails
    [isValidEmail], the toast is "Please enter a valid email address"; in
    both cases no call is made and the form is left as it is.  Otherwise no
    toast is shown, the button is set loading and one call is scheduled,
    due in 1500 ms, with the trimmed values.  Nothing is stored in any
    case. *)
Theorem contact_validation_order (cp : contactPage) (form : contactForm) :
  cp_form cp = Some form →
  let data := contact_formData form in
  let cp' := handleContactSubmit cp in
  (¬ contact_filled form →
   toasts (cp_page cp')
   = [Node (next_id (cp_page cp)) ["toast"; "error"] (Some "assertive")
        "Please fill in all required fields"]
   ∧ cp_form cp' = Some form ∧ cp_calls cp' = cp_calls cp)
  ∧ (contact_filled form → isValidEmail (fd_email data) = false →
     toasts (cp_page cp')
     = [Node (next_id (cp_page cp)) ["toast"; "error"] (Some "assertive")
          "Please enter a valid email address"]
     ∧ cp_form cp' = Some form ∧ cp_calls cp' = cp_calls cp)
  ∧ (contact_filled form → isValidEmail (fd_email data) = true →
     cp_page cp' = cp_page cp
     ∧ cp_form cp' = Some (contact_update_submit (setButtonLoading true) form)
     ∧ cp_calls cp'
       = cp_calls cp ++ [ContactCall (now (cp_page cp) + 1500) CONFIG_api_contact data])
  ∧ localStorage (cp_page cp') = localStorage (cp_page cp).
Proof.
  intros Hform. cbv zeta. unfold handleContactSubmit. rewrite Hform. cbv zeta.
  pose proof (contact_filled_test form) as Htest.
  destruct (is_empty (fd_name (contact_formData form))
            || is_empty (fd_email (contact_formData form))
            || is_empty (fd_subject (contact_formData form))
            || is_empty (fd_message (contact_formData form))) eqn:Hempty.
  - assert (Hnot : ¬ contact_filled form) by (intros H; apply Htest in H; done).
    cbn [cp_page cp_form cp_calls].
    destruct (showToast_frame (txt "Please fill in all required fields") Error (cp_page cp))
      as (_ & _ & _ & Hls & _).
    split; [| split; [| split]]; [| intros; tauto | intros; tauto | exact Hls].
    intros _. split; [apply showToast_toasts | done].
  - assert (Hfilled : contact_filled form) by by apply Htest.
    destruct (isValidEmail (fd_email (contact_formData form))) eqn:Hv;
      cbn [negb cp_page cp_form cp_calls].
    + split; [| split; [| split]]; [intros; tauto | intros; congruence | | done].
      intros _ _. done.
    + destruct (showToast_frame (txt "Please enter a valid email address") Error (cp_page cp))
        as (_ & _ & _ & Hls & _).
      split; [| split; [| split]]; [intros; tauto | | intros; congruence | exact Hls].
      intros _ _. split; [apply showToast_toasts | done].
Qed.

Lemma contact_validation_witness :
  shows_toast "Please fill in all required fields" "error"
    (cp_page (handleContactSubmit (sample_contact "not-an-email")))
  ∧ cp_calls (handleContactSubmit (sample_contact "not-an-email")) = [].
Proof.
  destruct (contact_validation_order (sample_contact "not-an-email") _ eq_refl)
    as (H & _).
  destruct H as (Ht & _ & Hc).
  - intros (_ & _ & Hs & _). by apply Hs.
  - split; [by eexists | exact Hc].
Defined.

(** X21: a call made for the contact form settles no earlier than it is
    due.  When it resolves (the draw is above the threshold) the success
    toast is shown and every field is reset to its default; when it is
    rejected the failure toast is shown and every field keeps what the
    user typed.  Either way the call is no longer pending, the submit
    button ends enabled and not busy, and nothing is stored: unlike the
    newsletter form, the contact form keeps no trace of a submission. *)
Theorem contact_call_settles
    (cp : contactPage) (form : contactForm) (i : nat) (call : contactCall) (random : Q) :
  cp_form cp = Some form →
  cp_calls cp !! i = Some call →
  ((now (cp_page cp) < call_due call)%Z → contact_fire i random cp = None)
  ∧ ((call_due call ≤ now (cp_page cp))%Z →
     ∃ cp' form',
       contact_fire i random cp = Some cp'
       ∧ cp_form cp' = Some form'
       ∧ cp_calls cp' = delete i (cp_calls cp)
       ∧ localStorage (cp_page cp') = localStorage (cp_page cp)
       ∧ btn_disabled (contact_submit form') = false
       ∧ aria_busy (contact_submit form') = false
       ∧ ((success_threshold < random)%Q →
          shows_toast "Message sent successfully! We'll get back to you soon." "success"
            (cp_page cp')
          ∧ contact_update_submit (λ _, contact_submit form) form' = contact_reset form)
       ∧ (¬ (success_threshold < random)%Q →
          shows_toast "Failed to send message. Please try again." "error" (cp_page cp')
          ∧ contact_update_submit (λ _, contact_submit form) form' = form)).
Proof.
  intros Hform Hcall. unfold contact_fire. rewrite Hcall. split.
  - intros Hlt. destruct (call_due call <=? now (cp_page cp))%Z eqn:Hle; [| done].
    apply Z.leb_le in Hle. lia.
  - intros Hle. rewrite (proj2 (Z.leb_le _ _) Hle).
    unfold handleContactSubmit_resume. cbn [cp_page cp_form cp_calls]. rewrite Hform.
    destruct (Qle_bool random success_threshold) eqn:Hq;
      cbn [negb cp_page cp_form cp_calls fmap option_fmap option_map].
    + assert (Hn : ¬ (success_threshold < random)%Q).
      { apply Qle_not_lt. by apply Qle_bool_iff. }
      destruct (showToast_frame (txt "Failed to send message. Please try again.") Error
                  (cp_page cp)) as (_ & _ & _ & Hls & _).
      eexists _, _. split; [reflexivity |]. cbn [cp_page cp_form cp_calls].
      split; [reflexivity |]. split; [reflexivity |]. split; [exact Hls |].
      split; [reflexivity |]. split; [reflexivity |]. split; [intros; tauto |].
      intros _. split; [eexists; apply showToast_toasts | by destruct form].
    + assert (Hy : (success_threshold < random)%Q).
      { apply Qnot_le_lt. intros H. apply Qle_bool_iff in H. congruence. }
      destruct (showToast_frame (txt "Message sent successfully! We'll get back to you soon.")
                  Success (cp_page cp)) as (_ & _ & _ & Hls & _).
      eexists _, _. split; [reflexivity |]. cbn [cp_page cp_form cp_calls].
      split; [reflexivity |]. split; [reflexivity |]. split; [exact Hls |].
      split; [reflexivity |]. split; [reflexivity |]. split; [| intros; tauto].
      intros _. split; [eexists; apply showToast_toasts | done].
Qed.

Lemma contact_call_settles_witness :
  let cp := handleContactSubmit
              (ContactPage first_visit
                 (Some (ContactForm (TextField (units "Ada") [])
                          (TextField (units "ada@example.com") [])
                          (TextField (units "Hi") []) (TextField (units "Hello") [])
                          (SubmitBtn "Send" false ["btn"] false)))
                 []) in
  contact_fire 0 (1 # 2) cp = None.
Proof.
  cbv zeta.
  match goal with |- contact_fire _ _ ?x = None => set (cp := x) end.
  destruct (contact_call_settles cp
              (contact_update_submit (setButtonLoading true)
                 (ContactForm (TextField (units "Ada") [])
                    (TextField (units "ada@example.com") [])
                    (TextField (units "Hi") []) (TextField (units "Hello") [])
                    (SubmitBtn "Send" false ["btn"] false)))
              0 (ContactCall 1500 CONFIG_api_contact
                   (FormData (units "Ada") (units "ada@example.com") (units "Hi")
                      (units "Hello")))
              (1 # 2) eq_refl eq_refl) as [H _].
  apply H. reflexivity.
Defined.

(** ** The markup of a toast *)

Lemma feed_string_app (p : parser) (a b : string) :
  feed_string p (a +:+ b)
  = match feed_string p a with
    | Some p' => feed_string p' b
    | None => None
    end.
Proof.
  revert p. induction a as [| c a IH]; intros p; simpl; [done |].
  destruct (feed p c); [apply IH | done].
Qed.

(** Between tags a message free of markup goes through the parser as
    character tokens, which leave the tokenizer and the open elements as
    they are. *)
Lemma feed_string_text (stack : list open_element) (message : string) :
  stack ≠ [] → markup_free message = true →
  feed_string (Parser Data stack) message = Some (Parser Data stack).
Proof.
  intros Hstack. induction message as [| c message IH]; simpl; [done |].
  intros [Hc Hrest]%andb_true_iff. apply negb_true_iff in Hc.
  unfold feed, tokenize. cbn [parser_tokenizer parser_stack].
  assert (Hlt : Nat.eqb (nat_of_ascii c) 60 = false).
  { unfold is_markup_char in Hc. cbv zeta in Hc.
    by apply orb_false_iff in Hc as [[[? _]%orb_false_iff _]%orb_false_iff _]. }
  rewrite Hlt, Hc. destruct stack as [| current below]; [done |]. simpl. by apply IH.
Qed.

(** X22: what the browser makes of the markup of a toast.  For every
    message free of markup, assigning the template of [showToast] with the
    message spliced in to [innerHTML] gives the elements of the template and
    no other: no descendant of the toast has the class [toast], and
    [querySelector('.toast-close')] finds the button.  That is not so for
    every message.  At "Searching for: <div class=toast>x</div>", which
    [handleSearchSubmit] passes when that markup is the query, the toast
    gets a descendant of class [toast], a second element for the selector
    [.toast]; at "Searching for: <!--" the comment swallows the rest of the
    template, [querySelector('.toast-close')] is [null], and the
    [closeBtn.addEventListener] that follows throws. *)
Theorem toast_markup_is_inert_for_text_only (message : text) :
  (innerHTML (toast_markup (text_string message)) = Some template_elements
   ∧ querySelectorAll "toast" template_elements = []
   ∧ is_Some (querySelector "toast-close" template_elements))
  ∧ (∃ children,
       innerHTML (toast_markup "Searching for: <div class=toast>x</div>") = Some children
       ∧ length (querySelectorAll "toast" children) = 1)
  ∧ (∃ children,
       innerHTML (toast_markup "Searching for: <!--") = Some children
       ∧ querySelector "toast-close" children = None).
Proof.
  split; [| split].
  - split; [| split; [reflexivity | by eexists]].
    unfold innerHTML, toast_markup. rewrite feed_string_app.
    assert (Hbefore : feed_string (Parser Data [Open "html" false [] []]) template_before
                      = Some (Parser Data
                                [Open "span" false ["toast-message"] [];
                                 Open "div" false ["toast-content"] [];
                                 Open "html" false [] []])) by (by vm_compute).
    rewrite Hbefore, feed_string_app.
    rewrite feed_string_text; [| done | apply text_markup_free].
    by vm_compute.
  - eexists. split; [by vm_compute | by vm_compute].
  - eexists. split; [by vm_compute | by vm_compute].
Qed.
